(** * A shallow embedding of the Vigenere cracker ([project.py])

    Python strings are lists of Unicode code points, Python integers are [Z],
    list positions are [nat].  A call that can raise returns a [result].
    The order in which a [set] is iterated is not fixed by the language; the
    Kasiski analysis takes it as a parameter [set_iter] constrained only by
    the laws of a set (no duplicates, same members).

    The first part of the file holds the embedding of the source functions,
    in the order of the source, followed by the specification-side
    definitions the statements need.  The second part holds the proofs. *)

From Stdlib Require Import Ascii String.
From Stdlib Require Import ZArith List Bool Lia Arith Permutation Sorted.
From Stdlib Require FinFun.
Import ListNotations.
Open Scope Z_scope.

(* ================================================================== *)
(** * Part 1. The embedding *)
(* ================================================================== *)

(** ** Python values and the fragment of the runtime the program uses *)

(** A [str] is the list of its code points; a character is a [str] of
    length one, written here as its code point. *)
Definition str := list Z.

(** [lit "abc"] is the Python literal ['abc'] (ASCII only). *)
Definition lit (s : string) : str :=
  map (fun a => Z.of_N (N_of_ascii a)) (list_ascii_of_string s).

Arguments lit s%_string.

Inductive exn : Set :=
| StopIteration
| TypeError
| ValueError.

Inductive result (A : Type) : Type :=
| Ok (a : A)
| Raise (e : exn).

Arguments Ok {A} a.
Arguments Raise {A} e.

Definition bind {A B : Type} (m : result A) (k : A -> result B) : result B :=
  match m with
  | Ok a => k a
  | Raise e => Raise e
  end.

Notation "x <- m ;; k" := (bind m (fun x => k))
  (at level 61, m at next level, right associativity).

(** [[f(x) for x in l]] where [f] may raise: the first exception wins. *)
Fixpoint map_result {A B : Type} (f : A -> result B) (l : list A)
  : result (list B) :=
  match l with
  | [] => Ok []
  | x :: r => y <- f x ;; ys <- map_result f r ;; Ok (y :: ys)
  end.

(** [range(a, b)] over Python integers. *)
Definition range (a b : Z) : list Z :=
  map (fun k => a + Z.of_nat k) (seq 0 (Z.to_nat (b - a))).

Definition str_eqb (s t : str) : bool :=
  if list_eq_dec Z.eq_dec s t then true else false.

(** [x in l] for a list [l]. *)
Definition mem (x : Z) (l : list Z) : bool := existsb (Z.eqb x) l.

(** [l.index(x)]: position of the first [x]; the program calls it only
    under the guard [x in l]. *)
Fixpoint list_index (x : Z) (l : list Z) : nat :=
  match l with
  | [] => O
  | y :: r => if Z.eqb y x then O else S (list_index x r)
  end.

(** [s.startswith(p)]. *)
Fixpoint starts_with (p s : str) : bool :=
  match p, s with
  | [], _ => true
  | _ :: _, [] => false
  | a :: p', b :: s' => Z.eqb a b && starts_with p' s'
  end.

(** [p in s] for strings: [p] occurs in [s] as a contiguous substring. *)
Fixpoint str_in (p s : str) : bool :=
  starts_with p s ||
  match s with
  | [] => false
  | _ :: s' => str_in p s'
  end.

(** [string.ascii_lowercase]. *)
Definition ascii_lowercase : str := lit "abcdefghijklmnopqrstuvwxyz".

Definition KELVIN_SIGN : Z := 8490.           (* U+212A, category Lu *)
Definition CAPITAL_I_WITH_DOT : Z := 304.     (* U+0130 *)

(** [c.lower()] for a one-character string [c].  The result is a string:
    U+0130 lowers to the two code points [i] and U+0307.  Exactly two code
    points outside ASCII have a lowercase form that contains an ASCII
    letter, U+0130 and the Kelvin sign U+212A (which lowers to ['k']); every
    other code point outside ASCII lowers to code points outside ASCII, and
    is kept as it is here.  So the definition is exact on ASCII and on these
    two code points, and on every character of a text the letter test of
    [decrypt_vigenere] has the outcome it has in Python; only the shift
    drawn from a key character outside ASCII can differ, and no statement
    below depends on its value. *)
Definition char_lower (c : Z) : str :=
  if (65 <=? c) && (c <=? 90) then [c + 32]
  else if c =? KELVIN_SIGN then [107]
  else if c =? CAPITAL_I_WITH_DOT then [105; 775]
  else [c].

(** [s.lower()]. *)
Definition str_lower (s : str) : str := flat_map char_lower s.

(** [c.isupper()] for the one-character strings on which the program calls
    it, those with [c.lower() in string.ascii_lowercase]. *)
Definition char_isupper (c : Z) : bool :=
  ((65 <=? c) && (c <=? 90)) || (c =? KELVIN_SIGN).

(** [c.upper()] for a lowercase ASCII letter, the only argument the program
    gives it. *)
Definition char_upper (c : Z) : Z :=
  if (97 <=? c) && (c <=? 122) then c - 32 else c.

(** [ord(s)]: defined on strings of length one. *)
Definition ord (s : str) : result Z :=
  match s with
  | [c] => Ok c
  | _ => Raise TypeError
  end.

Definition ord_a : Z := 97.

(** An insertion-ordered dictionary (a [dict], a [Counter]) is an
    association list in insertion order. *)

(** [counter[k] += 1] *)
Fixpoint counter_incr (k : Z) (c : list (Z * Z)) : list (Z * Z) :=
  match c with
  | [] => [(k, 1)]
  | (k', v) :: c' =>
      if Z.eqb k' k then (k', v + 1) :: c' else (k', v) :: counter_incr k c'
  end.

(** [Counter(iterable)] *)
Definition Counter (l : list Z) : list (Z * Z) :=
  fold_left (fun c x => counter_incr x c) l [].

(** [sorted(items, key=itemgetter(1), reverse=True)]: stable, so items with
    equal counts keep their order. *)
Fixpoint insert_desc (x : Z * Z) (l : list (Z * Z)) : list (Z * Z) :=
  match l with
  | [] => [x]
  | y :: r => if snd y >? snd x then y :: insert_desc x r else x :: y :: r
  end.

Fixpoint sort_desc (l : list (Z * Z)) : list (Z * Z) :=
  match l with
  | [] => []
  | x :: r => insert_desc x (sort_desc r)
  end.

(** [counter.most_common(n)], that is [heapq.nlargest(n, items, key=count)],
    documented as [sorted(items, key=count, reverse=True)[:n]]. *)
Definition most_common (n : nat) (c : list (Z * Z)) : list (Z * Z) :=
  firstn n (sort_desc c).

(** ** [ENGLISH_FREQ] *)

Definition ENGLISH_FREQ : list Z := lit "etaoinshrdlcumwfgypbvkjxqz".

(** ** [clean_text] *)

(** [re.sub(r'[^a-zA-Z]', '', ciphertext).lower()] *)
Definition is_ascii_letter (c : Z) : bool :=
  ((97 <=? c) && (c <=? 122)) || ((65 <=? c) && (c <=? 90)).

Definition clean_text (ciphertext : str) : str :=
  str_lower (filter is_ascii_letter ciphertext).

(** ** [kasiski_examination] *)

(** [sequences[seq].append(i)] if [seq in sequences], else
    [sequences[seq] = [i]]. *)
Fixpoint dict_append (k : str) (i : Z) (d : list (str * list Z))
  : list (str * list Z) :=
  match d with
  | [] => [(k, [i])]
  | (k', v) :: d' =>
      if str_eqb k' k then (k', v ++ [i]) :: d'
      else (k', v) :: dict_append k i d'
  end.

(** [ciphertext[i:i+3]] *)
Definition trigram_at (ciphertext : str) (i : nat) : str :=
  firstn 3 (skipn i ciphertext).

Definition sequences (ciphertext : str) : list (str * list Z) :=
  fold_left
    (fun d i => dict_append (trigram_at ciphertext i) (Z.of_nat i) d)
    (seq 0 (length ciphertext - 2)) [].

Definition repeated_seqs (d : list (str * list Z)) : list (str * list Z) :=
  filter (fun kv => (1 <? length (snd kv))%nat) d.

(** The two nested loops over [i] and [j > i]:
    [positions[j] - positions[i]]. *)
Fixpoint pair_distances (positions : list Z) : list Z :=
  match positions with
  | [] => []
  | p :: later => map (fun q => q - p) later ++ pair_distances later
  end.

Definition distances (ciphertext : str) : list Z :=
  flat_map (fun kv => pair_distances (snd kv))
           (repeated_seqs (sequences ciphertext)).

(** The list inside [get_factors], before [set(...)]. *)
Definition factor_list (max_key_length n : Z) : list Z :=
  filter (fun i => n mod i =? 0) (range 2 (max_key_length + 1)).

Section Kasiski.

(** [set_iter l] is the sequence in which [for f in set(l)] visits the
    members of the set. *)
Variable set_iter : list Z -> list Z.

Definition get_factors (max_key_length n : Z) : list Z :=
  set_iter (factor_list max_key_length n).

(** The sequence of all [f] for which [common_factors[f] += 1] runs. *)
Definition factor_scan (max_key_length : Z) (ds : list Z) : list Z :=
  flat_map (get_factors max_key_length) ds.

Definition common_factors (max_key_length : Z) (ds : list Z)
  : list (Z * Z) :=
  fold_left (fun c f => counter_incr f c) (factor_scan max_key_length ds) [].

Definition kasiski_examination (ciphertext : str) (max_key_length : Z)
  : list Z :=
  map fst (most_common 3
             (common_factors max_key_length (distances ciphertext))).

End Kasiski.

(** ** [get_cosets] *)

(** The characters of [s] at the positions of [range(start, len(s), st)],
    for a positive stride [st]. *)
Definition stride_from (s : str) (start st : nat) : str :=
  map (fun j => nth (start + j * st)%nat s 0)
      (seq 0 ((length s - start + st - 1) / st)%nat).

(** The characters of [s] at the positions of [range(top, -1, -st)]. *)
Definition stride_back (s : str) (top st : nat) : str :=
  map (fun j => nth (top - j * st)%nat s 0) (seq 0 (top / st + 1)%nat).

(** [s[start::step]] for [start >= 0]: from [start] upwards for a positive
    step, from [min(start, len(s) - 1)] downwards for a negative one; a
    zero step raises [ValueError]. *)
Definition slice_from_step (s : str) (start : nat) (step : Z) : result str :=
  if step =? 0 then Raise ValueError
  else if 0 <? step then Ok (stride_from s start (Z.to_nat step))
  else
    match length s with
    | O => Ok []
    | S m => Ok (stride_back s (Nat.min start m) (Z.to_nat (- step)))
    end.

(** [[ciphertext[i::key_length] for i in range(key_length)]] *)
Definition get_cosets (ciphertext : str) (key_length : Z)
  : result (list str) :=
  map_result (fun i => slice_from_step ciphertext i key_length)
             (seq 0 (Z.to_nat key_length)).

(** ** [frequency_analysis] *)

(** The inner loop [for c in counts] for one [shift]. *)
Definition shift_score (counts : list (Z * Z)) (shift : Z) : Z :=
  fold_left
    (fun score cn =>
       let c := fst cn in
       let expected_char := ((c - ord_a - shift) mod 26) + ord_a in
       score +
       (if mem expected_char ENGLISH_FREQ
        then snd cn * (26 - Z.of_nat (list_index expected_char ENGLISH_FREQ))
        else 0))
    counts 0.

(** One round of the loop over [shift]; the state is
    [(best_shift, best_score)]. *)
Definition best_step (counts : list (Z * Z)) (best : Z * Z) (shift : Z)
  : Z * Z :=
  let score := shift_score counts shift in
  if score >? snd best then (shift, score) else best.

Definition frequency_analysis (coset : str) : Z :=
  let counts := Counter coset in
  fst (fold_left (best_step counts) (range 0 26) (0, -1)).

(** ** [decrypt_vigenere] *)

(** [next(key_cycle)] where [key_cycle = cycle(key)]: the call number [n]
    (from 0) returns [key[n % len(key)]]; on an empty key the iterator is
    exhausted at once. *)
Definition cycle_next (key : str) (n : nat) : result Z :=
  match key with
  | [] => Raise StopIteration
  | _ => Ok (nth (n mod length key) key 0)
  end.

(** The test [c.lower() in string.ascii_lowercase]. *)
Definition takes_key (c : Z) : bool := str_in (char_lower c) ascii_lowercase.

(** The body of the branch for a character that takes a key character:
    [shift] and [decrypted_char]. *)
Definition decrypt_char (c key_char : Z) : result Z :=
  let shift := key_char - ord_a in
  if char_isupper c then
    o <- ord (char_lower c) ;;
    Ok (char_upper (((o - ord_a - shift) mod 26) + ord_a))
  else
    Ok (((c - ord_a - shift) mod 26) + ord_a).

(** The loop [for c in ciphertext]; [n] counts the calls of
    [next(key_cycle)] made so far. *)
Fixpoint decrypt_loop (key : str) (n : nat) (ciphertext : str)
  : result str :=
  match ciphertext with
  | [] => Ok []
  | c :: rest =>
      if takes_key c then
        key_char <- cycle_next key n ;;
        decrypted_char <- decrypt_char c key_char ;;
        decrypted <- decrypt_loop key (S n) rest ;;
        Ok (decrypted_char :: decrypted)
      else
        decrypted <- decrypt_loop key n rest ;;
        Ok (c :: decrypted)
  end.

Definition decrypt_vigenere (ciphertext key : str) : result str :=
  decrypt_loop (str_lower key) 0 ciphertext.

(** ** [crack_vigenere] *)

(** The console: [stdin n] is line number [n] of the answers typed at the
    prompt, [asked] counts the calls of [input] so far, and [tried] holds,
    oldest first, what the attempts have printed: the key length, the key
    and the decryption put before the user. *)
Record console : Type := {
  asked : nat;
  tried : list (Z * str * str)
}.

Definition console0 : console := {| asked := 0; tried := [] |}.

(** Steps 2 to 4 for one key length. *)
Definition attempt (cleaned ciphertext : str) (key_length : Z)
  : result (str * str) :=
  cosets <- get_cosets cleaned key_length ;;
  let key := map (fun coset => frequency_analysis coset + ord_a) cosets in
  decrypted <- decrypt_vigenere ciphertext key ;;
  Ok (key, decrypted).

(** [input(...).lower() == 'y'] *)
Definition says_yes (response : str) : bool :=
  str_eqb (str_lower response) (lit "y").

Section Orchestrator.

Variable set_iter : list Z -> list Z.
Variable stdin : nat -> str.

(** The body shared by the two loops: the attempt, then the question.
    [Some] is the [return key, decrypted]. *)
Definition try_length (cleaned ciphertext : str) (key_length : Z)
  (w : console) : result (option (str * str) * console) :=
  kd <- attempt cleaned ciphertext key_length ;;
  let response := stdin (asked w) in
  let w' := {| asked := S (asked w);
               tried := tried w ++ [(key_length, fst kd, snd kd)] |} in
  Ok (if says_yes response then Some kd else None, w').

(** [for key_length in possible_lengths: ...] *)
Fixpoint ranked_loop (cleaned ciphertext : str) (lengths : list Z)
  (w : console) : result (option (str * str) * console) :=
  match lengths with
  | [] => Ok (None, w)
  | key_length :: later =>
      r <- try_length cleaned ciphertext key_length w ;;
      match fst r with
      | Some kd => Ok (Some kd, snd r)
      | None => ranked_loop cleaned ciphertext later (snd r)
      end
  end.

(** [for key_length in range(5, 16):
       if key_length not in possible_lengths: ...] *)
Fixpoint manual_loop (cleaned ciphertext : str) (possible_lengths : list Z)
  (lengths : list Z) (w : console) : result (option (str * str) * console) :=
  match lengths with
  | [] => Ok (None, w)
  | key_length :: later =>
      if negb (mem key_length possible_lengths) then
        r <- try_length cleaned ciphertext key_length w ;;
        match fst r with
        | Some kd => Ok (Some kd, snd r)
        | None =>
            manual_loop cleaned ciphertext possible_lengths later (snd r)
        end
      else manual_loop cleaned ciphertext possible_lengths later w
  end.

(** The result is [Some (key, decrypted)] or [None] for [(None, None)]. *)
Definition crack_vigenere (ciphertext : str)
  : result (option (str * str) * console) :=
  let cleaned := clean_text ciphertext in
  let possible_lengths := kasiski_examination set_iter cleaned 15 in
  r <- ranked_loop cleaned ciphertext possible_lengths console0 ;;
  match fst r with
  | Some kd => Ok (Some kd, snd r)
  | None =>
      manual_loop cleaned ciphertext possible_lengths (range 5 16) (snd r)
  end.

End Orchestrator.

(* ================================================================== *)
(** * Part 1b. Definitions of the specification side *)
(* ================================================================== *)

(** ** The Encrypt direction of the codec *)

(** Modelled from the spec: the Encrypt direction of the codec (section
    4.5), which the repository does not contain.  A character is alphabetic
    when it is an ASCII letter (section 6); an alphabetic character takes
    the next key character cyclically and is moved to
    [(char_index + shift) mod 26] in its own case; any other character
    passes through and takes no key character.  The key is lowercased
    first. *)
Fixpoint encrypt_loop (key : str) (n : nat) (text : str) : result str :=
  match text with
  | [] => Ok []
  | c :: rest =>
      if is_ascii_letter c then
        key_char <- cycle_next key n ;;
        let shift := key_char - ord_a in
        let base := if c <=? 90 then 65 else ord_a in
        out <- encrypt_loop key (S n) rest ;;
        Ok ((((c - base + shift) mod 26) + base) :: out)
      else
        out <- encrypt_loop key n rest ;;
        Ok (c :: out)
  end.

Definition encrypt_vigenere (text key : str) : result str :=
  encrypt_loop (str_lower key) 0 text.

Definition is_lower_letter (c : Z) : bool := (97 <=? c) && (c <=? 122).
Definition is_upper_letter (c : Z) : bool := (65 <=? c) && (c <=? 90).

(** The number of characters of [text] that take a key character. *)
Definition key_uses (text : str) : nat := length (filter takes_key text).

(** ** Cosets *)

Definition total_length (cosets : list str) : nat :=
  fold_right (fun c n => (length c + n)%nat) O cosets.

(** Round-robin interleaving: position [p] of the result is letter number
    [p / N] of coset number [p mod N], for [N] cosets. *)
Definition interleave (cosets : list str) : str :=
  let n := length cosets in
  map (fun p => nth (p / n) (nth (p mod n) cosets []) 0)
      (seq 0 (total_length cosets)).

(** ** The score of a shift *)

Definition count (c : Z) (coset : str) : Z :=
  Z.of_nat (count_occ Z.eq_dec coset c).

(** 0-based rank of a letter in the frequency table. *)
Definition rank (letter : Z) : Z := Z.of_nat (list_index letter ENGLISH_FREQ).

(** Sum, over the distinct letters [c] of the coset, of
    [count(c) * (26 - rank of the letter ((c - 'a') - s) mod 26)]. *)
Definition alignment_score (coset : str) (s : Z) : Z :=
  fold_right Z.add 0
    (map (fun c => count c coset * (26 - rank (((c - 97 - s) mod 26) + 97)))
         (nodup Z.eq_dec coset)).

(** ** Kasiski: occurrences, votes, order of discovery *)

(** Start offsets of the 3-letter substring [t] in [text], ascending. *)
Definition occurrences (text : str) (t : str) : list Z :=
  map Z.of_nat
      (filter (fun i => str_eqb (trigram_at text i) t)
              (seq 0 (length text - 2))).

(** One vote per distance that [f] divides evenly. *)
Definition votes (ds : list Z) (f : Z) : Z :=
  Z.of_nat (length (filter (fun d => d mod f =? 0) ds)).

(** [f] divides every distance of [ds]. *)
Definition divides_all (ds : list Z) (f : Z) : bool :=
  forallb (fun d => d mod f =? 0) ds.

(** The lengths of [2..M], other than [P], that divide every distance. *)
Definition rivals (M P : Z) (ds : list Z) : list Z :=
  filter (fun f => negb (f =? P) && divides_all ds f) (range 2 (M + 1)).

(** Laws of a set: iteration visits each member once and nothing else. *)
Definition set_laws (set_iter : list Z -> list Z) : Prop :=
  forall l, NoDup (set_iter l) /\ forall x, In x (set_iter l) <-> In x l.

(** Ranking of two candidates: more votes first, and among equal votes the
    one met first in the factor scan. *)
Definition outranks (ds scan : list Z) (a b : Z) : Prop :=
  votes ds a > votes ds b \/
  (votes ds a = votes ds b /\ (list_index a scan < list_index b scan)%nat).

(** An iteration order that satisfies the laws: first occurrences, in the
    order of the list. *)
Fixpoint dedup (l : list Z) : list Z :=
  match l with
  | [] => []
  | x :: r => x :: filter (fun y => negb (y =? x)) (dedup r)
  end.

(** ** The orchestrator's schedule *)

(** Ranked candidates, then the lengths of 5..15 not among them. *)
Definition schedule (possible_lengths : list Z) : list Z :=
  possible_lengths ++
  filter (fun k => negb (mem k possible_lengths)) (range 5 16).

(** ** Reading a dictionary *)

(** [counter[k]]: the count of [k], zero for a missing key. *)
Fixpoint counter_get (k : Z) (c : list (Z * Z)) : Z :=
  match c with
  | [] => 0
  | (k', v) :: c' => if Z.eqb k' k then v else counter_get k c'
  end.

(** [d.get(k, [])] *)
Fixpoint dict_get (k : str) (d : list (str * list Z)) : list Z :=
  match d with
  | [] => []
  | (k', v) :: d' => if str_eqb k' k then v else dict_get k d'
  end.

(** Sum of a list of integers. *)
Definition zsum (l : list Z) : Z := fold_right Z.add 0 l.

(** What one letter [c] with count [n] adds to the score of [shift]. *)
Definition contribution (shift : Z) (cn : Z * Z) : Z :=
  snd cn * (26 - rank (((fst cn - 97 - shift) mod 26) + 97)).

(** Order of two counter items under [most_common]: the larger count
    first, and among equal counts the one whose key comes first for
    [idx]. *)
Definition ranks_before (idx : Z -> nat) (x y : Z * Z) : Prop :=
  snd x > snd y \/ (snd x = snd y /\ (idx (fst x) < idx (fst y))%nat).

(** No trigram of [text] other than [t] occurs at two positions; checked by
    comparing the trigrams of all pairs of positions. *)
Definition only_repeated (text t : str) : bool :=
  let positions := seq 0 (length text - 2) in
  forallb
    (fun i =>
       forallb
         (fun j =>
            (i =? j)%nat || str_eqb (trigram_at text i) t ||
            negb (str_eqb (trigram_at text i) (trigram_at text j)))
         positions)
    positions.

(** The key lengths of the attempts logged on the console, oldest first. *)
Definition tried_lengths (w : console) : list Z :=
  map (fun a => fst (fst a)) (tried w).

(** ** Definitions for the further properties of the code *)

(** A string of lowercase ASCII letters. *)
Definition lowercase (s : str) : Prop := Forall (fun c => 97 <= c <= 122) s.

(** The number of Kelvin signs of a text. *)
Definition kelvin_count (text : str) : nat :=
  count_occ Z.eq_dec text KELVIN_SIGN.

(** [key.upper()] for a key of lowercase ASCII letters. *)
Definition key_upper (key : str) : str := map char_upper key.

(** The key whose shift, at each position, is the sum of the shifts of the
    two keys. *)
Definition combine_keys (k1 k2 : str) : str :=
  map (fun p => (((fst p - 97) + (snd p - 97)) mod 26) + 97) (combine k1 k2).

(** The key whose shifts are the opposites of the shifts of [key]. *)
Definition complement_key (key : str) : str :=
  map (fun k => ((- (k - 97)) mod 26) + 97) key.

(** The key read cyclically from position [n]. *)
Definition rotate_key (n : nat) (key : str) : str :=
  skipn (n mod length key) key ++ firstn (n mod length key) key.

(** Caesar shift of a run of lowercase letters, backwards by the shift of
    the key character [k] ... *)
Definition caesar_decrypt (k : Z) (coset : str) : str :=
  map (fun c => ((c - 97 - (k - 97)) mod 26) + 97) coset.

(** ... and forwards by the shift [k] of 0..25. *)
Definition caesar_encrypt (k : Z) (coset : str) : str :=
  map (fun c => ((c - 97 + k) mod 26) + 97) coset.

(** What one occurrence of the letter [c] adds to the score of [shift]. *)
Definition letter_weight (shift c : Z) : Z :=
  26 - rank (((c - 97 - shift) mod 26) + 97).

(** ** The end of the script *)

(** The last lines of the script, [if key and plaintext: ... else: ...]:
    success is printed when both values are true, and a string is true when
    it is not empty; the NotFound result [(None, None)] is false. *)
Inductive report : Type :=
| Success (key plaintext : str)
| Failed.

Definition truthy (s : str) : bool :=
  match s with
  | [] => false
  | _ :: _ => true
  end.

Definition final_report (r : option (str * str)) : report :=
  match r with
  | Some (key, plaintext) =>
      if truthy key && truthy plaintext then Success key plaintext
      else Failed
  | None => Failed
  end.

(** A string of ASCII characters; on such a string [str_lower] is Python's
    [lower] exactly, character by character. *)
Definition ascii_only (s : str) : Prop := Forall (fun c => 0 <= c <= 127) s.

(** ** The distances of the specification *)

(** The start positions of the windows of width 3. *)
Definition windows (text : str) : list nat := seq 0 (length text - 2).

(** The distinct strings of a list, in the order in which they first
    occur. *)
Fixpoint distinct_strs (l : list str) : list str :=
  match l with
  | [] => []
  | x :: r => x :: filter (fun y => negb (str_eqb y x)) (distinct_strs r)
  end.

(** The 3-letter substrings of the text, each once, in the order of their
    first occurrence. *)
Definition trigrams (text : str) : list str :=
  distinct_strs (map (trigram_at text) (windows text)).

(** The distances of one substring: for each occurrence, in ascending
    order, the distances to the later occurrences, nearest first. *)
Definition trigram_gaps (text t : str) : list Z :=
  flat_map
    (fun p => map (fun q => q - p)
                  (filter (fun q => p <? q) (occurrences text t)))
    (occurrences text t).

(** The distances in the order of the specification: substring by
    substring, in the order of first occurrence. *)
Definition pair_gaps (text : str) : list Z :=
  flat_map (trigram_gaps text) (trigrams text).

(** The distances as a multiset, position by position: one distance
    [j - i] for each pair of window positions [i < j] that spell the same
    3-letter substring. *)
Definition all_gaps (text : str) : list Z :=
  flat_map
    (fun i =>
       map (fun j => Z.of_nat j - Z.of_nat i)
           (filter (fun j => (i <? j)%nat &&
                             str_eqb (trigram_at text i) (trigram_at text j))
                   (windows text)))
    (windows text).

(** The factor scan over a list of distances: distance after distance, the
    divisors of [2..M] of the distance in the order in which the set of
    them is iterated. *)
Definition discovery_order (set_iter : list Z -> list Z) (M : Z)
  (gaps : list Z) : list Z :=
  flat_map
    (fun d => set_iter (filter (fun f => d mod f =? 0) (range 2 (M + 1))))
    gaps.

(* ================================================================== *)
(** * Part 2. Proofs *)
(* ================================================================== *)

(** ** The runtime fragment *)

(** Case analysis on every integer comparison of the goal, then [lia]. *)
Ltac split_cmp :=
  match goal with
  | |- context [(?u =? ?v)] => destruct (Z.eqb_spec u v)
  | |- context [(?u <=? ?v)] => destruct (Z.leb_spec u v)
  | |- context [(?u <? ?v)] => destruct (Z.ltb_spec u v)
  end.

Ltac zbool :=
  repeat split_cmp; simpl; try reflexivity; try lia; try discriminate.

Lemma bind_ok {A B : Type} (m : result A) (k : A -> result B) (b : B) :
  bind m k = Ok b -> exists a, m = Ok a /\ k a = Ok b.
Proof.
  destruct m as [a|e]; simpl; intros H; [eauto | discriminate].
Qed.

Lemma In_range (a b x : Z) : In x (range a b) <-> a <= x < b.
Proof.
  unfold range. rewrite in_map_iff. split.
  - intros [k [<- Hk]]. apply in_seq in Hk. lia.
  - intros H. exists (Z.to_nat (x - a)). split; [lia|].
    apply in_seq. lia.
Qed.

Lemma NoDup_range (a b : Z) : NoDup (range a b).
Proof.
  unfold range. apply Finite.Injective_map_NoDup.
  - intros x y H. lia.
  - apply seq_NoDup.
Qed.

Lemma mem_true_iff (x : Z) (l : list Z) : mem x l = true <-> In x l.
Proof.
  unfold mem. rewrite existsb_exists. split.
  - intros [y [Hy E]]. apply Z.eqb_eq in E. now subst.
  - intros H. exists x. split; [assumption | apply Z.eqb_refl].
Qed.

Lemma mem_false_iff (x : Z) (l : list Z) : mem x l = false <-> ~ In x l.
Proof.
  rewrite <- mem_true_iff. destruct (mem x l); intuition congruence.
Qed.

Lemma str_eqb_eq (s t : str) : str_eqb s t = true <-> s = t.
Proof.
  unfold str_eqb. destruct (list_eq_dec Z.eq_dec s t); intuition congruence.
Qed.

Lemma str_eqb_refl (s : str) : str_eqb s s = true.
Proof. now apply str_eqb_eq. Qed.

Lemma str_eqb_neq (s t : str) : str_eqb s t = false <-> s <> t.
Proof.
  unfold str_eqb. destruct (list_eq_dec Z.eq_dec s t); intuition congruence.
Qed.

Lemma str_in_single (x : Z) (s : str) : str_in [x] s = mem x s.
Proof.
  induction s as [|y s IH]; simpl; [reflexivity|].
  rewrite IH. rewrite andb_true_r. reflexivity.
Qed.

Lemma ascii_lowercase_range : ascii_lowercase = range 97 123.
Proof. reflexivity. Qed.

Lemma mem_ascii_lowercase (x : Z) :
  mem x ascii_lowercase = is_lower_letter x.
Proof.
  rewrite ascii_lowercase_range. unfold is_lower_letter.
  destruct (mem x (range 97 123)) eqn:E.
  - apply mem_true_iff, In_range in E. symmetry. zbool.
  - apply mem_false_iff in E. rewrite In_range in E. symmetry. zbool.
Qed.

(** The characters that take a key character are the ASCII letters and the
    Kelvin sign. *)
Lemma takes_key_spec (c : Z) :
  takes_key c = is_ascii_letter c || (c =? KELVIN_SIGN).
Proof.
  unfold takes_key, char_lower, is_ascii_letter, KELVIN_SIGN,
    CAPITAL_I_WITH_DOT.
  destruct ((65 <=? c) && (c <=? 90)) eqn:U.
  - rewrite str_in_single, mem_ascii_lowercase. unfold is_lower_letter.
    apply andb_true_iff in U. destruct U as [U1 U2].
    apply Z.leb_le in U1, U2. zbool.
  - rewrite orb_false_r.
    destruct (Z.eqb_spec c 8490) as [->|NK]; [reflexivity|].
    destruct (Z.eqb_spec c 304) as [->|NI]; [reflexivity|].
    rewrite str_in_single, mem_ascii_lowercase. unfold is_lower_letter.
    now rewrite orb_false_r.
Qed.

(** ** [decrypt_vigenere] *)

Lemma cycle_next_ok (key : str) (n : nat) :
  key <> [] -> cycle_next key n = Ok (nth (n mod length key) key 0).
Proof. destruct key; [congruence | reflexivity]. Qed.

Lemma is_ascii_letter_cases (c : Z) :
  is_ascii_letter c = is_lower_letter c || is_upper_letter c.
Proof. reflexivity. Qed.

Lemma is_upper_letter_iff (c : Z) : is_upper_letter c = true <-> 65 <= c <= 90.
Proof. unfold is_upper_letter. rewrite andb_true_iff, !Z.leb_le. tauto. Qed.

Lemma is_lower_letter_iff (c : Z) :
  is_lower_letter c = true <-> 97 <= c <= 122.
Proof. unfold is_lower_letter. rewrite andb_true_iff, !Z.leb_le. tauto. Qed.

Lemma takes_key_true_iff (c : Z) :
  takes_key c = true <-> 97 <= c <= 122 \/ 65 <= c <= 90 \/ c = KELVIN_SIGN.
Proof.
  rewrite takes_key_spec, is_ascii_letter_cases, !orb_true_iff,
    is_lower_letter_iff, is_upper_letter_iff, Z.eqb_eq. tauto.
Qed.

(** On a lowercase letter: the letter [(c - 'a' - shift) mod 26]. *)
Lemma decrypt_char_lower (c k : Z) :
  97 <= c <= 122 ->
  decrypt_char c k = Ok (((c - 97 - (k - 97)) mod 26) + 97).
Proof.
  intros H. unfold decrypt_char, char_isupper, KELVIN_SIGN, ord_a.
  replace ((65 <=? c) && (c <=? 90) || (c =? 8490)) with false by zbool.
  reflexivity.
Qed.

(** On an uppercase letter: the same, in uppercase. *)
Lemma decrypt_char_upper (c k : Z) :
  65 <= c <= 90 ->
  decrypt_char c k = Ok (((c - 65 - (k - 97)) mod 26) + 65).
Proof.
  intros H. unfold decrypt_char, char_isupper, char_lower, ord_a.
  replace ((65 <=? c) && (c <=? 90)) with true by zbool.
  simpl. f_equal. unfold char_upper.
  replace (c + 32 - 97 - (k - 97)) with (c - 65 - (k - 97)) by lia.
  pose proof (Z.mod_pos_bound (c - 65 - (k - 97)) 26 ltac:(lia)) as B.
  replace ((97 <=? (c - 65 - (k - 97)) mod 26 + 97) &&
           ((c - 65 - (k - 97)) mod 26 + 97 <=? 122)) with true by zbool.
  simpl. lia.
Qed.

(** On the Kelvin sign: as on the letter [K]. *)
Lemma decrypt_char_kelvin (k : Z) :
  decrypt_char KELVIN_SIGN k = Ok (((10 - (k - 97)) mod 26) + 65).
Proof.
  unfold decrypt_char.
  change (char_isupper KELVIN_SIGN) with true.
  change (char_lower KELVIN_SIGN) with [107].
  cbv beta iota zeta. unfold ord, bind, char_upper, ord_a. f_equal.
  replace (107 - 97 - (k - 97)) with (10 - (k - 97)) by lia.
  pose proof (Z.mod_pos_bound (10 - (k - 97)) 26 ltac:(lia)) as B.
  replace ((97 <=? (10 - (k - 97)) mod 26 + 97) &&
           ((10 - (k - 97)) mod 26 + 97 <=? 122)) with true by zbool.
  lia.
Qed.

Lemma decrypt_char_total (c k : Z) :
  takes_key c = true -> exists d, decrypt_char c k = Ok d.
Proof.
  intros H. apply takes_key_true_iff in H. destruct H as [H|[H| ->]].
  - rewrite decrypt_char_lower by assumption. eauto.
  - rewrite decrypt_char_upper by assumption. eauto.
  - rewrite decrypt_char_kelvin. eauto.
Qed.

Lemma key_uses_cons (c : Z) (text : str) :
  key_uses (c :: text) =
  ((if takes_key c then 1 else 0) + key_uses text)%nat.
Proof. unfold key_uses. simpl. destruct (takes_key c); reflexivity. Qed.

(** With a non-empty key the loop never raises, and the output has the
    length of the input. *)
Lemma decrypt_loop_total (key : str) :
  key <> [] ->
  forall (text : str) (n : nat),
  exists out, decrypt_loop key n text = Ok out /\ length out = length text.
Proof.
  intros Hk text. induction text as [|c rest IH]; intros n; simpl.
  - exists []. auto.
  - destruct (takes_key c) eqn:T.
    + rewrite cycle_next_ok by assumption. simpl.
      destruct (decrypt_char_total c (nth (n mod length key) key 0) T)
        as [d ->]. simpl.
      destruct (IH (S n)) as [out [-> L]]. simpl. eexists. split; eauto.
      simpl. now rewrite L.
    + destruct (IH n) as [out [-> L]]. simpl. eexists. split; eauto.
      simpl. now rewrite L.
Qed.

(** Position by position: a character that takes a key character becomes
    [decrypt_char] of itself and of the key character at the cursor, where
    the cursor is the number of key-taking characters before it; any other
    character is copied. *)
Lemma decrypt_loop_pointwise (key : str) :
  key <> [] ->
  forall (text out : str) (n i : nat),
  decrypt_loop key n text = Ok out ->
  (i < length text)%nat ->
  let c := nth i text 0 in
  let cursor := (n + key_uses (firstn i text))%nat in
  if takes_key c
  then decrypt_char c (nth (cursor mod length key) key 0) = Ok (nth i out 0)
  else nth i out 0 = c.
Proof.
  intros Hk text. induction text as [|c rest IH]; intros out n i E Hi;
    simpl in Hi; [lia|].
  simpl in E. destruct (takes_key c) eqn:T.
  - rewrite cycle_next_ok in E by assumption. simpl in E.
    apply bind_ok in E. destruct E as [d [Ed E]].
    apply bind_ok in E. destruct E as [out' [Eo E]].
    injection E as <-.
    destruct i as [|i]; simpl.
    + rewrite T. unfold key_uses. simpl. rewrite Nat.add_0_r. exact Ed.
    + specialize (IH out' (S n) i Eo ltac:(lia)). simpl in IH.
      rewrite key_uses_cons, T.
      replace (n + (1 + key_uses (firstn i rest)))%nat
        with (S n + key_uses (firstn i rest))%nat by lia.
      exact IH.
  - apply bind_ok in E. destruct E as [out' [Eo E]]. injection E as <-.
    destruct i as [|i]; simpl.
    + now rewrite T.
    + specialize (IH out' n i Eo ltac:(lia)). simpl in IH.
      rewrite key_uses_cons, T. exact IH.
Qed.

Lemma char_lower_nonempty (c : Z) : char_lower c <> [].
Proof.
  unfold char_lower.
  destruct ((65 <=? c) && (c <=? 90)); [discriminate|].
  destruct (c =? KELVIN_SIGN); [discriminate|].
  destruct (c =? CAPITAL_I_WITH_DOT); discriminate.
Qed.

Lemma str_lower_nonempty (key : str) : key <> [] -> str_lower key <> [].
Proof.
  destruct key as [|c key]; [congruence|]. intros _. unfold str_lower. simpl.
  pose proof (char_lower_nonempty c) as H.
  destruct (char_lower c); [congruence | discriminate].
Qed.

Lemma char_lower_of_lower (c : Z) : 97 <= c <= 122 -> char_lower c = [c].
Proof.
  intros H. unfold char_lower, KELVIN_SIGN, CAPITAL_I_WITH_DOT.
  replace ((65 <=? c) && (c <=? 90)) with false by zbool.
  replace (c =? 8490) with false by zbool.
  replace (c =? 304) with false by zbool. reflexivity.
Qed.

(** A key of lowercase letters is its own lowercase form. *)
Lemma str_lower_lowercase (key : str) :
  Forall (fun c => 97 <= c <= 122) key -> str_lower key = key.
Proof.
  induction 1 as [|c key Hc _ IH]; [reflexivity|].
  unfold str_lower in *. simpl. rewrite IH, char_lower_of_lower by assumption.
  reflexivity.
Qed.

(** Every key character the cycle hands out is a character of the key. *)
Lemma cycle_char_in (key : str) (n : nat) :
  key <> [] -> In (nth (n mod length key) key 0) key.
Proof.
  intros H. apply nth_In. apply Nat.mod_upper_bound.
  destruct key; [congruence | discriminate].
Qed.

(** The shift of the key character ['a'] leaves an ASCII letter alone. *)
Lemma decrypt_char_a (c : Z) :
  is_ascii_letter c = true -> decrypt_char c 97 = Ok c.
Proof.
  rewrite is_ascii_letter_cases, orb_true_iff, is_lower_letter_iff,
    is_upper_letter_iff.
  intros [H|H].
  - rewrite decrypt_char_lower by assumption. f_equal.
    rewrite Z.mod_small; lia.
  - rewrite decrypt_char_upper by assumption. f_equal.
    rewrite Z.mod_small; lia.
Qed.

Lemma decrypt_loop_all_a (m : nat) (text : str) :
  (1 <= m)%nat -> ~ In KELVIN_SIGN text ->
  forall n, decrypt_loop (repeat 97 m) n text = Ok text.
Proof.
  intros Hm. assert (Hk : repeat 97 m <> []) by (destruct m; [lia|discriminate]).
  induction text as [|c rest IH]; intros NK n; [reflexivity|].
  simpl. assert (NK' : ~ In KELVIN_SIGN rest) by (intros H; apply NK; now right).
  destruct (takes_key c) eqn:T.
  - rewrite cycle_next_ok by assumption. simpl.
    rewrite (repeat_spec _ _ _ (cycle_char_in _ n Hk)).
    rewrite takes_key_spec, orb_true_iff in T. destruct T as [T|T].
    + rewrite decrypt_char_a by assumption. simpl. rewrite IH by assumption.
      reflexivity.
    + apply Z.eqb_eq in T. exfalso. apply NK. now left.
  - rewrite IH by assumption. reflexivity.
Qed.

(** The all-['a'] key is an identity on every text without the Kelvin
    sign. *)
Lemma identity_key_without_kelvin (m : nat) (text : str) :
  (1 <= m)%nat -> ~ In KELVIN_SIGN text ->
  decrypt_vigenere text (repeat 97 m) = Ok text.
Proof.
  intros Hm NK. unfold decrypt_vigenere.
  rewrite str_lower_lowercase.
  - now apply decrypt_loop_all_a.
  - apply Forall_forall. intros x Hx. apply repeat_spec in Hx. lia.
Qed.

(** Case and format for a non-empty key: the call returns, the output has
    the length of the input, an ASCII letter becomes an ASCII letter of the
    same case, and a character that is neither an ASCII letter nor the
    Kelvin sign is copied. *)
Lemma decrypt_vigenere_case_format (text key : str) :
  key <> [] ->
  exists out,
    decrypt_vigenere text key = Ok out /\
    length out = length text /\
    forall i, (i < length text)%nat ->
      let c := nth i text 0 in
      let d := nth i out 0 in
      (is_upper_letter c = true -> is_upper_letter d = true) /\
      (is_lower_letter c = true -> is_lower_letter d = true) /\
      (takes_key c = false -> d = c).
Proof.
  intros Hk. apply str_lower_nonempty in Hk. unfold decrypt_vigenere.
  destruct (decrypt_loop_total _ Hk text 0) as [out [E L]].
  exists out. split; [assumption|]. split; [assumption|].
  intros i Hi. cbv zeta.
  pose proof (decrypt_loop_pointwise _ Hk text out 0 i E Hi) as P.
  simpl in P. set (c := nth i text 0) in *. set (d := nth i out 0) in *.
  set (kc := nth (key_uses (firstn i text) mod length (str_lower key))
                 (str_lower key) 0) in P.
  repeat split.
  - intros U. apply is_upper_letter_iff in U.
    replace (takes_key c) with true in P
      by (symmetry; apply takes_key_true_iff; tauto).
    rewrite decrypt_char_upper in P by assumption. injection P as <-.
    apply is_upper_letter_iff.
    pose proof (Z.mod_pos_bound (c - 65 - (kc - 97)) 26 ltac:(lia)). lia.
  - intros U. apply is_lower_letter_iff in U.
    replace (takes_key c) with true in P
      by (symmetry; apply takes_key_true_iff; tauto).
    rewrite decrypt_char_lower in P by assumption. injection P as <-.
    apply is_lower_letter_iff.
    pose proof (Z.mod_pos_bound (c - 97 - (kc - 97)) 26 ltac:(lia)). lia.
  - intros T. now rewrite T in P.
Qed.

(** ** Round trip with the Encrypt direction *)

Lemma unshift_shift (x s : Z) :
  0 <= x < 26 -> ((x + s) mod 26 - s) mod 26 = x.
Proof.
  intros H. rewrite Zminus_mod_idemp_l.
  replace (x + s - s) with x by lia. apply Z.mod_small. lia.
Qed.

Lemma decrypt_encrypted_lower (c kc : Z) :
  97 <= c <= 122 ->
  let e := ((c - 97 + (kc - 97)) mod 26) + 97 in
  takes_key e = true /\ decrypt_char e kc = Ok c.
Proof.
  intros H e.
  pose proof (Z.mod_pos_bound (c - 97 + (kc - 97)) 26 ltac:(lia)) as B.
  assert (He : 97 <= e <= 122) by (unfold e; lia).
  split; [apply takes_key_true_iff; tauto|].
  rewrite decrypt_char_lower by assumption. f_equal. unfold e.
  replace ((c - 97 + (kc - 97)) mod 26 + 97 - 97 - (kc - 97))
    with ((c - 97 + (kc - 97)) mod 26 - (kc - 97)) by lia.
  rewrite unshift_shift; lia.
Qed.

Lemma decrypt_encrypted_upper (c kc : Z) :
  65 <= c <= 90 ->
  let e := ((c - 65 + (kc - 97)) mod 26) + 65 in
  takes_key e = true /\ decrypt_char e kc = Ok c.
Proof.
  intros H e.
  pose proof (Z.mod_pos_bound (c - 65 + (kc - 97)) 26 ltac:(lia)) as B.
  assert (He : 65 <= e <= 90) by (unfold e; lia).
  split; [apply takes_key_true_iff; tauto|].
  rewrite decrypt_char_upper by assumption. f_equal. unfold e.
  replace ((c - 65 + (kc - 97)) mod 26 + 65 - 65 - (kc - 97))
    with ((c - 65 + (kc - 97)) mod 26 - (kc - 97)) by lia.
  rewrite unshift_shift; lia.
Qed.

Lemma round_trip_loop (key : str) :
  key <> [] ->
  forall text, ~ In KELVIN_SIGN text ->
  forall n, exists enc,
    encrypt_loop key n text = Ok enc /\ decrypt_loop key n enc = Ok text.
Proof.
  intros Hk text. induction text as [|c rest IH]; intros NK n.
  - exists []. split; reflexivity.
  - assert (NK' : ~ In KELVIN_SIGN rest) by (intros H; apply NK; now right).
    assert (Hc : c <> KELVIN_SIGN) by (intros ->; apply NK; now left).
    simpl. destruct (is_ascii_letter c) eqn:L.
    + rewrite cycle_next_ok by assumption. simpl.
      set (kc := nth (n mod length key) key 0).
      destruct (IH NK' (S n)) as [enc [-> D]]. simpl.
      eexists. split; [reflexivity|]. simpl.
      rewrite is_ascii_letter_cases, orb_true_iff, is_lower_letter_iff,
        is_upper_letter_iff in L.
      unfold ord_a. destruct L as [L|L].
      * replace (c <=? 90) with false by zbool.
        destruct (decrypt_encrypted_lower c kc L) as [T E].
        cbv zeta in T, E. rewrite T.
        rewrite cycle_next_ok by assumption. simpl. fold kc.
        rewrite E. simpl. rewrite D. reflexivity.
      * replace (c <=? 90) with true by zbool.
        destruct (decrypt_encrypted_upper c kc L) as [T E].
        cbv zeta in T, E. rewrite T.
        rewrite cycle_next_ok by assumption. simpl. fold kc.
        rewrite E. simpl. rewrite D. reflexivity.
    + destruct (IH NK' n) as [enc [-> D]]. simpl.
      eexists. split; [reflexivity|]. simpl.
      replace (takes_key c) with false.
      * rewrite D. reflexivity.
      * rewrite takes_key_spec, L. symmetry. simpl. now apply Z.eqb_neq.
Qed.

(** Decrypting the encryption gives the text back, for every non-empty key
    and every text without the Kelvin sign. *)
Lemma round_trip_without_kelvin (text key : str) :
  key <> [] -> ~ In KELVIN_SIGN text ->
  exists enc,
    encrypt_vigenere text key = Ok enc /\ decrypt_vigenere enc key = Ok text.
Proof.
  intros Hk NK. unfold encrypt_vigenere, decrypt_vigenere.
  apply round_trip_loop; [now apply str_lower_nonempty | assumption].
Qed.

(** No output of the loop contains the Kelvin sign: a character that takes
    a key character becomes an ASCII letter, and the Kelvin sign is not
    among the characters that are copied.  So no text with a Kelvin sign is
    the decryption of anything, whatever the encryption. *)
Lemma decrypt_output_has_no_kelvin (key : str) (text : str) :
  forall n out,
  decrypt_loop key n text = Ok out -> ~ In KELVIN_SIGN out.
Proof.
  induction text as [|c rest IH]; intros n out E; simpl in E.
  - injection E as <-. simpl. tauto.
  - destruct (takes_key c) eqn:T.
    + apply bind_ok in E. destruct E as [kc [_ E]].
      apply bind_ok in E. destruct E as [d [Ed E]].
      apply bind_ok in E. destruct E as [out' [Eo E]]. injection E as <-.
      intros [H|H]; [|exact (IH _ _ Eo H)].
      apply takes_key_true_iff in T. destruct T as [T|[T| ->]].
      * rewrite decrypt_char_lower in Ed by assumption. injection Ed as <-.
        pose proof (Z.mod_pos_bound (c - 97 - (kc - 97)) 26 ltac:(lia)).
        unfold KELVIN_SIGN in H. lia.
      * rewrite decrypt_char_upper in Ed by assumption. injection Ed as <-.
        pose proof (Z.mod_pos_bound (c - 65 - (kc - 97)) 26 ltac:(lia)).
        unfold KELVIN_SIGN in H. lia.
      * rewrite decrypt_char_kelvin in Ed.
        assert (Hd : (10 - (kc - 97)) mod 26 + 65 = d) by congruence.
        pose proof (Z.mod_pos_bound (10 - (kc - 97)) 26 ltac:(lia)).
        unfold KELVIN_SIGN in H. lia.
    + apply bind_ok in E. destruct E as [out' [Eo E]]. injection E as <-.
      intros [H|H]; [|exact (IH _ _ Eo H)].
      subst c. discriminate T.
Qed.

(** C1 (the code departs from the claim).  Round trip: decrypting the
    encryption of a text with the same lowercase key should return the text.
    On the one-character text U+212A (Kelvin sign) and the key ['a'] the
    encryption is the text itself, a character that is not an ASCII letter
    passing through, and [decrypt_vigenere] turns it into the letter ['K']:
    the round trip does not return the text. *)
Theorem round_trip_kelvin_sign :
  encrypt_vigenere [KELVIN_SIGN] (lit "a") = Ok [KELVIN_SIGN] /\
  decrypt_vigenere [KELVIN_SIGN] (lit "a") = Ok (lit "K") /\
  lit "K" <> [KELVIN_SIGN].
Proof.
  split; [reflexivity|]. split; [reflexivity|]. discriminate.
Qed.

(** C6 (the code departs from the claim).  Case and format preservation:
    a character that is not an ASCII letter should pass through unchanged
    and take no key character.  On the text U+212A followed by ['b'] and
    the key ['ab'], [decrypt_vigenere] returns ['Ka']: the Kelvin sign, a
    letter outside ASCII, is replaced by ['K'] and takes the key character
    ['a'], so that ['b'] is decrypted with ['b'] instead of ['a']. *)
Theorem kelvin_sign_takes_key :
  decrypt_vigenere (KELVIN_SIGN :: lit "b") (lit "ab") = Ok (lit "Ka") /\
  is_ascii_letter KELVIN_SIGN = false /\
  decrypt_vigenere (lit "b") (lit "ab") = Ok (lit "b").
Proof.
  split; [reflexivity|]. split; reflexivity.
Qed.

(** C7 (as amended).  With a zero-length key, [decrypt_vigenere] raises
    (StopIteration, from [next] on the exhausted cycle) exactly when the
    text has a character that takes a key character; otherwise it returns
    the text unchanged and raises nothing. *)
Theorem decrypt_vigenere_empty_key (text : str) :
  decrypt_vigenere text [] =
  if existsb takes_key text then Raise StopIteration else Ok text.
Proof.
  unfold decrypt_vigenere. simpl. generalize 0%nat.
  induction text as [|c rest IH]; intros n; [reflexivity|].
  simpl. destruct (takes_key c); [reflexivity|].
  simpl. rewrite IH. destruct (existsb takes_key rest); reflexivity.
Qed.

(** C7 (counterexample).  A text without letters and the empty key: the
    call returns the text and raises nothing. *)
Lemma empty_key_returns_silently :
  decrypt_vigenere (lit "12:30, 7/8") (lit "") = Ok (lit "12:30, 7/8").
Proof. reflexivity. Qed.

(** C10 (the code departs from the claim).  The all-['a'] key should leave
    every text unchanged.  On the text ['273 '] followed by U+212A and the
    key ['aaa'], [decrypt_vigenere] returns ['273 K']: the Kelvin sign has
    become the ASCII letter ['K']. *)
Theorem identity_key_kelvin_sign :
  decrypt_vigenere (lit "273 " ++ [KELVIN_SIGN]) (lit "aaa")
  = Ok (lit "273 K") /\
  lit "273 K" <> lit "273 " ++ [KELVIN_SIGN].
Proof.
  split; [reflexivity | discriminate].
Qed.

(** ** [get_cosets] *)

Lemma map_result_ok {A B : Type} (f : A -> result B) (g : A -> B)
  (l : list A) :
  (forall x, In x l -> f x = Ok (g x)) -> map_result f l = Ok (map g l).
Proof.
  induction l as [|x l IH]; intros H; [reflexivity|].
  simpl. rewrite (H x) by now left. simpl.
  rewrite IH by (intros y Hy; apply H; now right). reflexivity.
Qed.

Lemma slice_from_step_pos (s : str) (i : nat) (N : Z) :
  1 <= N -> slice_from_step s i N = Ok (stride_from s i (Z.to_nat N)).
Proof.
  intros H. unfold slice_from_step.
  replace (N =? 0) with false by zbool.
  replace (0 <? N) with true by zbool. reflexivity.
Qed.

(** For a positive key length the cosets are the [N] slices. *)
Lemma get_cosets_pos (s : str) (N : Z) :
  1 <= N ->
  get_cosets s N =
  Ok (map (fun i => stride_from s i (Z.to_nat N)) (seq 0 (Z.to_nat N))).
Proof.
  intros H. unfold get_cosets. apply map_result_ok.
  intros i _. now apply slice_from_step_pos.
Qed.

(** For a key length of zero or less the loop [range(key_length)] is empty:
    no slice is taken and the result is the empty list. *)
Lemma get_cosets_nonpos (s : str) (N : Z) : N <= 0 -> get_cosets s N = Ok [].
Proof.
  intros H. unfold get_cosets.
  replace (Z.to_nat N) with O by lia. reflexivity.
Qed.

(** Length of coset [i]: one more than the quotient for the first
    [len mod n] cosets. *)
Lemma coset_length (len n i : nat) :
  (1 <= n)%nat -> (i < n)%nat ->
  ((len - i + n - 1) / n = len / n + (if i <? len mod n then 1 else 0))%nat.
Proof.
  intros Hn Hi.
  pose proof (Nat.div_mod_eq len n) as E.
  pose proof (Nat.mod_upper_bound len n ltac:(lia)) as B.
  set (q := (len / n)%nat) in *. set (r := (len mod n)%nat) in *.
  destruct (Nat.ltb_spec i r) as [L|L].
  - symmetry. apply Nat.div_unique with (r := (r - i - 1)%nat); nia.
  - destruct (Nat.le_gt_cases i len) as [L'|L'].
    + symmetry. apply Nat.div_unique with (r := (r + n - 1 - i)%nat); nia.
    + assert (q = 0)%nat by nia. subst q.
      replace (len - i + n - 1)%nat with (n - 1)%nat by lia.
      rewrite Nat.div_small; lia.
Qed.

Lemma total_length_app (a b : list str) :
  total_length (a ++ b) = (total_length a + total_length b)%nat.
Proof.
  induction a as [|x a IH]; simpl; [reflexivity|]. rewrite IH. lia.
Qed.

Lemma total_length_cosets (f : nat -> str) (q r n : nat) :
  (forall i, (i < n)%nat ->
             length (f i) = q + (if i <? r then 1 else 0))%nat ->
  forall m, (m <= n)%nat ->
  total_length (map f (seq 0 m)) = (m * q + Nat.min m r)%nat.
Proof.
  intros H m. induction m as [|m IH]; intros Hm; [reflexivity|].
  rewrite seq_S, map_app, total_length_app, IH by lia.
  change (total_length (map f [(0 + m)%nat])) with (length (f m) + 0)%nat.
  rewrite H by lia. destruct (Nat.ltb_spec m r); lia.
Qed.

Lemma map_nth_seq (s : str) : map (fun p => nth p s 0) (seq 0 (length s)) = s.
Proof.
  induction s as [|x s IH]; [reflexivity|].
  simpl. f_equal. rewrite <- seq_shift, map_map. exact IH.
Qed.

Lemma nth_map_seq {A : Type} (g : nat -> A) (k j : nat) (d : A) :
  (j < k)%nat -> nth j (map g (seq 0 k)) d = g j.
Proof.
  intros H. rewrite (nth_indep _ d (g O)).
  - rewrite map_nth, seq_nth; [reflexivity | assumption].
  - now rewrite length_map, length_seq.
Qed.

Lemma stride_from_length (s : str) (n i : nat) :
  (1 <= n)%nat -> (i < n)%nat ->
  length (stride_from s i n) =
  (length s / n + (if i <? length s mod n then 1 else 0))%nat.
Proof.
  intros Hn Hi. unfold stride_from.
  rewrite length_map, length_seq. now apply coset_length.
Qed.

(** The letter at position [p] of the text is letter number [p / n] of
    coset number [p mod n]. *)
Lemma stride_from_nth (s : str) (n p : nat) :
  (1 <= n)%nat -> (p < length s)%nat ->
  nth (p / n) (stride_from s (p mod n) n) 0 = nth p s 0.
Proof.
  intros Hn Hp. unfold stride_from.
  pose proof (Nat.div_mod_eq p n) as E.
  rewrite nth_map_seq.
  - f_equal. lia.
  - pose proof (Nat.mod_upper_bound p n ltac:(lia)) as Bi.
    set (i := (p mod n)%nat) in *. set (a := (p / n)%nat) in *.
    apply Nat.div_le_lower_bound; [lia|]. nia.
Qed.

(** C3.  Coset reconstruction: for every text [C] and every key length
    [N >= 1], [get_cosets] returns exactly [N] cosets; their round-robin
    interleaving is [C]; their lengths add up to [len(C)]; and each coset
    has [len(C) // N] letters or one more. *)
Theorem get_cosets_reconstruction (C : str) (N : Z) :
  1 <= N ->
  exists cosets,
    get_cosets C N = Ok cosets /\
    Z.of_nat (length cosets) = N /\
    interleave cosets = C /\
    total_length cosets = length C /\
    Forall (fun coset =>
              Z.of_nat (length coset) = Z.of_nat (length C) / N \/
              Z.of_nat (length coset) = Z.of_nat (length C) / N + 1)
           cosets.
Proof.
  intros HN. rewrite get_cosets_pos by assumption.
  set (n := Z.to_nat N). assert (Hn : (1 <= n)%nat) by lia.
  set (cosets := map (fun i => stride_from C i n) (seq 0 n)).
  assert (Hlen : length cosets = n)
    by (unfold cosets; now rewrite length_map, length_seq).
  assert (Htot : total_length cosets = length C).
  { unfold cosets.
    rewrite (total_length_cosets _ (length C / n) (length C mod n) n)
      by (try lia; intros i Hi; now apply stride_from_length).
    pose proof (Nat.div_mod_eq (length C) n).
    pose proof (Nat.mod_upper_bound (length C) n ltac:(lia)). nia. }
  exists cosets. split; [reflexivity|]. split; [lia|].
  split; [|split; [assumption|]].
  - unfold interleave. rewrite Hlen, Htot.
    rewrite <- (map_nth_seq C) at 2. apply map_ext_in.
    intros p Hp. apply in_seq in Hp.
    unfold cosets. rewrite nth_map_seq
      by (apply Nat.mod_upper_bound; lia).
    apply stride_from_nth; lia.
  - apply Forall_forall. intros coset Hc. unfold cosets in Hc.
    apply in_map_iff in Hc. destruct Hc as [i [<- Hi]]. apply in_seq in Hi.
    rewrite stride_from_length by lia.
    replace N with (Z.of_nat n) by lia. rewrite <- Nat2Z.inj_div.
    destruct (i <? length C mod n)%nat; [right | left]; lia.
Qed.

Lemma get_cosets_reconstruction_witness :
  1 <= 3 /\
  exists cosets,
    get_cosets (lit "attackatdawn") 3 = Ok cosets /\
    Z.of_nat (length cosets) = 3 /\
    interleave cosets = lit "attackatdawn" /\
    total_length cosets = length (lit "attackatdawn") /\
    Forall (fun coset =>
              Z.of_nat (length coset)
              = Z.of_nat (length (lit "attackatdawn")) / 3 \/
              Z.of_nat (length coset)
              = Z.of_nat (length (lit "attackatdawn")) / 3 + 1)
           cosets.
Proof.
  split; [lia | apply (get_cosets_reconstruction (lit "attackatdawn") 3); lia].
Defined.

(** C8 (as amended).  [get_cosets] is total: for every key length it
    returns a list of cosets, [N] of them for [N >= 1]; for [N = 0] (and
    below) it returns the empty list and raises nothing, the slice with
    step zero never being taken. *)
Theorem get_cosets_total (C : str) (N : Z) :
  (exists cosets,
     get_cosets C N = Ok cosets /\ Z.of_nat (length cosets) = Z.max 0 N) /\
  get_cosets C 0 = Ok [].
Proof.
  split; [|reflexivity].
  destruct (Z_le_gt_dec N 0) as [H|H].
  - rewrite get_cosets_nonpos by assumption. exists []. split; [reflexivity|].
    simpl. lia.
  - rewrite get_cosets_pos by lia. eexists. split; [reflexivity|].
    rewrite length_map, length_seq. lia.
Qed.

(** C8 (counterexample).  Key length 0: the call returns the empty list,
    it does not fail. *)
Lemma get_cosets_zero_returns :
  get_cosets (lit "attackatdawn") 0 = Ok [].
Proof. reflexivity. Qed.

(** ** Counters *)

Lemma counter_incr_keys (k : Z) (c : list (Z * Z)) :
  map fst (counter_incr k c) =
  if mem k (map fst c) then map fst c else map fst c ++ [k].
Proof.
  induction c as [|[k' v] c IH]; [reflexivity|].
  simpl. rewrite (Z.eqb_sym k k').
  destruct (Z.eqb_spec k' k); simpl; [reflexivity|].
  rewrite IH. destruct (mem k (map fst c)); reflexivity.
Qed.

Lemma counter_incr_get (k k' : Z) (c : list (Z * Z)) :
  counter_get k' (counter_incr k c) =
  counter_get k' c + (if k' =? k then 1 else 0).
Proof.
  induction c as [|[k0 v] c IH]; simpl.
  - rewrite (Z.eqb_sym k k'). destruct (k' =? k); reflexivity.
  - destruct (Z.eqb_spec k0 k) as [->|N]; simpl.
    + rewrite (Z.eqb_sym k k'). destruct (k' =? k); lia.
    + destruct (Z.eqb_spec k0 k') as [->|N'].
      * replace (k' =? k) with false by zbool. lia.
      * exact IH.
Qed.

Lemma In_dedup (l : list Z) (x : Z) : In x (dedup l) <-> In x l.
Proof.
  induction l as [|y l IH]; simpl; [tauto|].
  rewrite filter_In, IH, negb_true_iff, Z.eqb_neq.
  destruct (Z.eq_dec y x); intuition congruence.
Qed.

Lemma NoDup_dedup (l : list Z) : NoDup (dedup l).
Proof.
  induction l as [|y l IH]; simpl; constructor.
  - rewrite filter_In, negb_true_iff, Z.eqb_neq. tauto.
  - now apply NoDup_filter.
Qed.

Lemma filter_filter_and {A : Type} (f g : A -> bool) (l : list A) :
  filter f (filter g l) = filter (fun x => g x && f x) l.
Proof.
  induction l as [|x l IH]; simpl; [reflexivity|].
  destruct (g x); simpl; [destruct (f x)|]; now rewrite IH.
Qed.

(** Keys of a counter after a run of increments: the old keys, then the
    new ones in the order in which they are first met. *)
Lemma counter_fold_keys (l : list Z) :
  forall c,
  map fst (fold_left (fun c x => counter_incr x c) l c) =
  map fst c ++ filter (fun x => negb (mem x (map fst c))) (dedup l).
Proof.
  induction l as [|x l IH]; intros c; simpl.
  - now rewrite app_nil_r.
  - rewrite IH, counter_incr_keys. destruct (mem x (map fst c)) eqn:M.
    + simpl. f_equal. rewrite filter_filter_and. apply filter_ext_in.
      intros y _. destruct (Z.eqb_spec y x) as [->|N]; simpl.
      * now rewrite M.
      * reflexivity.
    + simpl. rewrite <- app_assoc. simpl. f_equal. f_equal.
      rewrite filter_filter_and. apply filter_ext_in.
      intros y _. unfold mem. rewrite existsb_app. simpl.
      rewrite orb_false_r, negb_orb, andb_comm. reflexivity.
Qed.

Lemma counter_fold_get (l : list Z) (k : Z) :
  forall c,
  counter_get k (fold_left (fun c x => counter_incr x c) l c) =
  counter_get k c + count k l.
Proof.
  unfold count. induction l as [|x l IH]; intros c; simpl; [lia|].
  rewrite IH, counter_incr_get.
  destruct (Z.eq_dec x k) as [->|N].
  - rewrite Z.eqb_refl. lia.
  - replace (k =? x) with false by zbool. lia.
Qed.

(** A dictionary is the list of its keys, each with its value. *)
Lemma counter_as_map (c : list (Z * Z)) :
  NoDup (map fst c) -> c = map (fun k => (k, counter_get k c)) (map fst c).
Proof.
  induction c as [|[k v] c IH]; intros ND; [reflexivity|].
  simpl in *. inversion ND as [|? ? NI ND']; subst.
  rewrite Z.eqb_refl. f_equal.
  rewrite IH at 1 by assumption. apply map_ext_in.
  intros k' Hk'. destruct (Z.eqb_spec k k') as [->|_]; [contradiction|].
  reflexivity.
Qed.

(** A counter built from nothing: every value met, in the order of first
    meeting, with the number of times it was met. *)
Lemma counter_fold_spec (l : list Z) :
  fold_left (fun c x => counter_incr x c) l [] =
  map (fun k => (k, count k l)) (dedup l).
Proof.
  pose proof (counter_fold_keys l []) as K. simpl in K.
  assert (K' : map fst (fold_left (fun c x => counter_incr x c) l [])
               = dedup l).
  { rewrite K. clear K. induction (dedup l) as [|y d IH]; simpl; congruence. }
  rewrite (counter_as_map (fold_left (fun c x => counter_incr x c) l []))
    by (rewrite K'; apply NoDup_dedup).
  rewrite K'. apply map_ext. intros k. now rewrite counter_fold_get.
Qed.

(** ** [frequency_analysis] *)

Lemma zsum_perm (a b : list Z) : Permutation a b -> zsum a = zsum b.
Proof. unfold zsum. induction 1; simpl; lia. Qed.

Lemma fold_left_add {A : Type} (g : A -> Z) (l : list A) (acc : Z) :
  fold_left (fun score x => score + g x) l acc = acc + zsum (map g l).
Proof.
  revert acc. induction l as [|x l IH]; intros acc; simpl.
  - unfold zsum. simpl. lia.
  - rewrite IH. unfold zsum. simpl. lia.
Qed.

Lemma english_freq_complete (x : Z) :
  97 <= x <= 122 -> mem x ENGLISH_FREQ = true.
Proof.
  intros H.
  assert (A : forallb (fun y => mem y ENGLISH_FREQ) (range 97 123) = true)
    by reflexivity.
  rewrite forallb_forall in A. apply A. apply In_range. lia.
Qed.

Lemma list_index_lt (x : Z) (l : list Z) :
  In x l -> (list_index x l < length l)%nat.
Proof.
  induction l as [|y l IH]; simpl; [tauto|].
  intros H. destruct (Z.eqb_spec y x); [lia|].
  destruct H as [H|H]; [contradiction|]. apply IH in H. lia.
Qed.

(** The rank of a letter is one of 0..25. *)
Lemma rank_bound (x : Z) : 97 <= x <= 122 -> 0 <= rank x <= 25.
Proof.
  intros H. unfold rank.
  pose proof (list_index_lt x ENGLISH_FREQ
                (proj1 (mem_true_iff _ _) (english_freq_complete x H))) as L.
  change (length ENGLISH_FREQ) with 26%nat in L. lia.
Qed.

Lemma expected_char_letter (c s : Z) : 97 <= ((c - 97 - s) mod 26) + 97 <= 122.
Proof. pose proof (Z.mod_pos_bound (c - 97 - s) 26 ltac:(lia)). lia. Qed.

Lemma fold_left_same {A B : Type} (f g : A -> B -> A) (l : list B) (a : A) :
  (forall x y, f x y = g x y) -> fold_left f l a = fold_left g l a.
Proof.
  intros H. revert a. induction l as [|y l IH]; intros a; simpl;
    [reflexivity|]. now rewrite H, IH.
Qed.

(** The loop over the counter adds the contributions of its entries. *)
Lemma shift_score_sum (counts : list (Z * Z)) (shift : Z) :
  shift_score counts shift = zsum (map (contribution shift) counts).
Proof.
  unfold shift_score. rewrite <- (Z.add_0_l (zsum _)).
  rewrite <- fold_left_add. apply fold_left_same. intros score cn.
  f_equal. unfold ord_a.
  rewrite english_freq_complete by apply expected_char_letter.
  reflexivity.
Qed.

(** The score the code computes for a shift is the score of the
    specification. *)
Lemma shift_score_alignment (coset : str) (shift : Z) :
  shift_score (Counter coset) shift = alignment_score coset shift.
Proof.
  rewrite shift_score_sum. unfold Counter. rewrite counter_fold_spec.
  rewrite map_map. unfold alignment_score. fold (zsum
    (map (fun c => count c coset *
                   (26 - rank (((c - 97 - shift) mod 26) + 97)))
         (nodup Z.eq_dec coset))).
  apply zsum_perm. apply Permutation_map.
  apply NoDup_Permutation.
  - apply NoDup_dedup.
  - apply NoDup_nodup.
  - intros x. rewrite In_dedup, nodup_In. tauto.
Qed.

Lemma alignment_score_nonneg (coset : str) (s : Z) :
  0 <= alignment_score coset s.
Proof.
  unfold alignment_score. induction (nodup Z.eq_dec coset) as [|c l IH];
    cbn [map fold_right]; [lia|].
  pose proof (rank_bound _ (expected_char_letter c s)).
  assert (0 <= count c coset) by (unfold count; lia).
  apply Z.add_nonneg_nonneg; [apply Z.mul_nonneg_nonneg; lia | exact IH].
Qed.

(** The scan for the best score.  Either no shift of the list beats the
    starting score and the state is unchanged, or the result is the first
    shift of the list that reaches the largest score of the list. *)
Lemma best_fold (g : Z -> Z) (step : Z * Z -> Z -> Z * Z) :
  (forall best x, step best x = if g x >? snd best then (x, g x) else best) ->
  forall (l : list Z) (b sc : Z),
  let r := fold_left step l (b, sc) in
  (forall x, In x l -> g x <= snd r) /\
  ((r = (b, sc) /\ forall x, In x l -> g x <= sc) \/
   (exists l1 l2, l = l1 ++ fst r :: l2 /\ snd r = g (fst r) /\
                  sc < g (fst r) /\
                  forall x, In x l1 -> g x < g (fst r))).
Proof.
  intros Hstep l. induction l as [|x l IH]; intros b sc; simpl.
  - split; [tauto|]. left. split; [reflexivity | tauto].
  - rewrite Hstep. simpl. rewrite Z.gtb_ltb.
    destruct (Z.ltb_spec sc (g x)) as [L|L].
    + destruct (IH x (g x)) as [M [[E A]|[l1 [l2 [E [S [B A]]]]]]].
      * cbv zeta in M. split.
        -- intros y [<-|Hy]; [rewrite E; simpl; lia | now apply M].
        -- right. exists [], l. rewrite E. simpl.
           repeat split; try lia; try tauto.
      * split.
        -- intros y [<-|Hy]; [lia | now apply M].
        -- right. exists (x :: l1), l2. rewrite E at 1.
           repeat split; try assumption; try lia.
           intros y [<-|Hy]; [lia | now apply A].
    + destruct (IH b sc) as [M [[E A]|[l1 [l2 [E [S [B A]]]]]]].
      * split.
        -- intros y [<-|Hy]; [rewrite E; simpl; lia | now apply M].
        -- left. split; [assumption|].
           intros y [<-|Hy]; [lia | now apply A].
      * split.
        -- intros y [<-|Hy]; [lia | now apply M].
        -- right. exists (x :: l1), l2. rewrite E at 1.
           repeat split; try assumption.
           intros y [<-|Hy]; [lia | now apply A].
Qed.

(** In [range(a, b)] the values before a member are the smaller ones. *)
Lemma range_split (a b x : Z) (l1 l2 : list Z) :
  range a b = l1 ++ x :: l2 -> forall y, a <= y < x -> In y l1.
Proof.
  intros E y Hy.
  assert (Hx : In x (range a b)) by (rewrite E; apply in_elt).
  apply In_range in Hx.
  assert (Hin : In y (range a b)) by (apply In_range; lia).
  rewrite E in Hin. apply in_app_or in Hin.
  destruct Hin as [H|[H|H]]; [assumption | lia |].
  exfalso. unfold range in E.
  assert (S : StronglySorted Z.lt (range a b)).
  { unfold range. generalize (Z.to_nat (b - a)). generalize 0%nat.
    intros s n. revert s. induction n as [|n IH]; intros s; simpl;
      constructor; [apply IH|].
    apply Forall_forall. intros z Hz. apply in_map_iff in Hz.
    destruct Hz as [k [<- Hk]]. apply in_seq in Hk. lia. }
  unfold range in S. rewrite E in S.
  clear E. induction l1 as [|z l1 IH]; simpl in S.
  - apply StronglySorted_inv in S. destruct S as [_ F].
    rewrite Forall_forall in F. apply F in H. lia.
  - apply StronglySorted_inv in S. destruct S as [S _]. now apply IH.
Qed.

(** C2.  ShiftScorer contract: [frequency_analysis] returns a shift [s] of
    0..25 whose score, the sum over the distinct letters [c] of the coset of
    [count(c) * (26 - rank of the letter ((c - 'a') - s) mod 26)], is the
    largest among the shifts 0..25; every smaller shift has a strictly
    smaller score, so the smallest maximising shift is returned; and the
    empty coset gives shift 0.  It holds for every coset, in particular for
    the cosets of lowercase letters. *)
Theorem frequency_analysis_argmax (coset : str) :
  let s := frequency_analysis coset in
  0 <= s <= 25 /\
  (forall t, 0 <= t <= 25 ->
             alignment_score coset t <= alignment_score coset s) /\
  (forall t, 0 <= t < s ->
             alignment_score coset t < alignment_score coset s) /\
  frequency_analysis [] = 0.
Proof.
  cbv zeta. unfold frequency_analysis.
  set (counts := Counter coset).
  pose proof (best_fold (shift_score counts) (best_step counts)
                (fun best x => eq_refl) (range 0 26) 0 (-1)) as H.
  cbv zeta in H. set (r := fold_left (best_step counts) (range 0 26) (0, -1))
    in *.
  destruct H as [M [[_ A]|[l1 [l2 [E [S [_ F]]]]]]].
  - exfalso. specialize (A 0 ltac:(apply In_range; lia)).
    unfold counts in A. rewrite shift_score_alignment in A.
    pose proof (alignment_score_nonneg coset 0). lia.
  - assert (R : In (fst r) (range 0 26)) by (rewrite E; apply in_elt).
    apply In_range in R. rewrite S in M. unfold counts in M, F.
    split; [lia|]. split; [|split; [|reflexivity]].
    + intros t Ht. rewrite <- !shift_score_alignment.
      apply M. apply In_range. lia.
    + intros t Ht. rewrite <- !shift_score_alignment.
      apply F. apply (range_split 0 26 (fst r) l1 l2 E). lia.
Qed.

(** ** The dictionary of trigram occurrences *)

Lemma dict_append_get (k k' : str) (i : Z) (d : list (str * list Z)) :
  dict_get k' (dict_append k i d) =
  if str_eqb k k' then dict_get k' d ++ [i] else dict_get k' d.
Proof.
  induction d as [|[k0 v] d IH]; simpl.
  - destruct (str_eqb k k'); reflexivity.
  - destruct (str_eqb k0 k) eqn:E0; simpl.
    + apply str_eqb_eq in E0. subst k0.
      destruct (str_eqb k k'); reflexivity.
    + destruct (str_eqb k0 k') eqn:E1; [|exact IH].
      apply str_eqb_eq in E1. subst k0. now rewrite (proj2 (str_eqb_neq k k'))
        by (apply str_eqb_neq in E0; congruence).
Qed.

Lemma dict_append_keys (k : str) (i : Z) (d : list (str * list Z)) :
  map fst (dict_append k i d) = map fst d \/
  (~ In k (map fst d) /\ map fst (dict_append k i d) = map fst d ++ [k]).
Proof.
  induction d as [|[k0 v] d IH]; simpl.
  - right. split; [tauto | reflexivity].
  - destruct (str_eqb k0 k) eqn:E0; simpl; [now left|].
    apply str_eqb_neq in E0.
    destruct IH as [->|[N ->]]; [now left|].
    right. split; [intuition congruence | reflexivity].
Qed.

Lemma dict_append_NoDup (k : str) (i : Z) (d : list (str * list Z)) :
  NoDup (map fst d) -> NoDup (map fst (dict_append k i d)).
Proof.
  intros ND. destruct (dict_append_keys k i d) as [->|[N ->]];
    [assumption|].
  apply NoDup_app; [assumption | repeat constructor; simpl; tauto |].
  intros x Hx [<-|[]]. contradiction.
Qed.

Lemma dict_get_In (k : str) (v : list Z) (d : list (str * list Z)) :
  NoDup (map fst d) -> In (k, v) d -> dict_get k d = v.
Proof.
  induction d as [|[k0 v0] d IH]; simpl; [tauto|].
  intros ND [E|H].
  - injection E as -> ->. now rewrite str_eqb_refl.
  - inversion ND as [|? ? NI ND']; subst.
    destruct (str_eqb k0 k) eqn:E0; [|now apply IH].
    apply str_eqb_eq in E0. subst k0. exfalso. apply NI.
    apply in_map_iff. now exists (k, v).
Qed.

Lemma dict_get_nonempty_In (k : str) (d : list (str * list Z)) :
  dict_get k d <> [] -> In (k, dict_get k d) d.
Proof.
  induction d as [|[k0 v0] d IH]; simpl; [congruence|].
  destruct (str_eqb k0 k) eqn:E0.
  - apply str_eqb_eq in E0. subst k0. now left.
  - intros H. right. now apply IH.
Qed.

(** After the loop over the positions, each entry of the dictionary holds
    the positions of its trigram, in the order of the loop. *)
Lemma sequences_fold (text : str) (t : str) (l : list nat) :
  forall d,
  dict_get t
    (fold_left (fun d i => dict_append (trigram_at text i) (Z.of_nat i) d)
               l d) =
  dict_get t d ++
  map Z.of_nat (filter (fun i => str_eqb (trigram_at text i) t) l).
Proof.
  induction l as [|i l IH]; intros d; simpl.
  - now rewrite app_nil_r.
  - rewrite IH, dict_append_get.
    destruct (str_eqb (trigram_at text i) t); simpl.
    + now rewrite <- app_assoc.
    + reflexivity.
Qed.

Lemma sequences_fold_NoDup (text : str) (l : list nat) :
  forall d, NoDup (map fst d) ->
  NoDup (map fst
    (fold_left (fun d i => dict_append (trigram_at text i) (Z.of_nat i) d)
               l d)).
Proof.
  induction l as [|i l IH]; intros d ND; simpl; [assumption|].
  apply IH. now apply dict_append_NoDup.
Qed.

Lemma sequences_NoDup (text : str) : NoDup (map fst (sequences text)).
Proof. apply sequences_fold_NoDup. constructor. Qed.

Lemma sequences_get (text t : str) :
  dict_get t (sequences text) = occurrences text t.
Proof. unfold sequences. now rewrite sequences_fold. Qed.

(** The entries of [sequences] are the trigrams that occur, each with the
    list of its occurrences. *)
Lemma sequences_In (text t : str) (ps : list Z) :
  In (t, ps) (sequences text) -> ps = occurrences text t.
Proof.
  intros H. rewrite <- sequences_get. symmetry.
  apply dict_get_In; [apply sequences_NoDup | assumption].
Qed.

Lemma occurrences_In_sequences (text t : str) :
  occurrences text t <> [] -> In (t, occurrences text t) (sequences text).
Proof.
  intros H. rewrite <- sequences_get in *. now apply dict_get_nonempty_In.
Qed.

(** Occurrences are listed in ascending order. *)
Lemma occurrences_sorted (text t : str) :
  StronglySorted Z.lt (occurrences text t).
Proof.
  unfold occurrences. generalize (length text - 2)%nat. generalize 0%nat.
  intros s n. revert s. induction n as [|n IH]; intros s; simpl;
    [constructor|].
  destruct (str_eqb (trigram_at text s) t); simpl; [|apply IH].
  constructor; [apply IH|].
  apply Forall_forall. intros z Hz. apply in_map_iff in Hz.
  destruct Hz as [k [<- Hk]]. apply filter_In in Hk. destruct Hk as [Hk _].
  apply in_seq in Hk. lia.
Qed.

(** A distance is the difference of two positions of the list, the later
    minus the earlier. *)
Lemma pair_distances_In (ps : list Z) (d : Z) :
  StronglySorted Z.lt ps ->
  In d (pair_distances ps) ->
  exists p q, In p ps /\ In q ps /\ p < q /\ d = q - p.
Proof.
  induction ps as [|p ps IH]; simpl; [tauto|].
  intros S H. apply StronglySorted_inv in S. destruct S as [S F].
  apply in_app_or in H. destruct H as [H|H].
  - apply in_map_iff in H. destruct H as [q [<- Hq]].
    rewrite Forall_forall in F. exists p, q. auto.
  - destruct (IH S H) as [p' [q [Hp [Hq [L E]]]]]. exists p', q. auto.
Qed.

Lemma pair_distances_nonempty (ps : list Z) :
  (2 <= length ps)%nat -> pair_distances ps <> [].
Proof.
  destruct ps as [|p [|q ps]]; simpl; try lia. discriminate.
Qed.

(** Every distance of the text separates two occurrences of one trigram. *)
Lemma distances_In (text : str) (d : Z) :
  In d (distances text) ->
  exists t p q,
    In p (occurrences text t) /\ In q (occurrences text t) /\
    p < q /\ d = q - p.
Proof.
  unfold distances, repeated_seqs. intros H. apply in_flat_map in H.
  destruct H as [[t ps] [Ht Hd]]. apply filter_In in Ht.
  destruct Ht as [Ht _]. apply sequences_In in Ht. subst ps. simpl in Hd.
  exists t. apply pair_distances_In; [apply occurrences_sorted | assumption].
Qed.

Lemma filter_none {A : Type} (f : A -> bool) (l : list A) :
  (forall x, In x l -> f x = false) -> filter f l = [].
Proof.
  induction l as [|x l IH]; intros H; simpl; [reflexivity|].
  rewrite (H x) by now left. apply IH. intros y Hy. apply H. now right.
Qed.

(** Without a repeated trigram there is no distance. *)
Lemma distances_none (text : str) :
  (forall t, (length (occurrences text t) <= 1)%nat) -> distances text = [].
Proof.
  intros H. unfold distances, repeated_seqs.
  rewrite filter_none; [reflexivity|].
  intros [t ps] Hin. apply sequences_In in Hin. subst ps. simpl.
  apply Nat.ltb_ge. apply H.
Qed.

(** ** Sorted lists *)

Lemma StronglySorted_map_impl {A B : Type} (R : A -> A -> Prop)
  (R' : B -> B -> Prop) (f : A -> B) (l : list A) :
  (forall x y, In x l -> In y l -> R x y -> R' (f x) (f y)) ->
  StronglySorted R l -> StronglySorted R' (map f l).
Proof.
  induction l as [|x l IH]; intros H S; simpl; [constructor|].
  apply StronglySorted_inv in S. destruct S as [S F].
  constructor.
  - apply IH; [|assumption]. intros a b Ha Hb. apply H; now right.
  - rewrite Forall_forall in *. intros b Hb. apply in_map_iff in Hb.
    destruct Hb as [y [<- Hy]]. apply H; [now left | now right | now apply F].
Qed.

Lemma StronglySorted_filter_impl {A : Type} (R R' : A -> A -> Prop)
  (f : A -> bool) (l : list A) :
  (forall x y, f x = true -> f y = true -> R x y -> R' x y) ->
  StronglySorted R l -> StronglySorted R' (filter f l).
Proof.
  intros H. induction l as [|x l IH]; intros S; simpl; [constructor|].
  apply StronglySorted_inv in S. destruct S as [S F].
  destruct (f x) eqn:Fx; [|now apply IH].
  constructor; [now apply IH|].
  rewrite Forall_forall in *. intros y Hy. apply filter_In in Hy.
  destruct Hy as [Hy Fy]. apply H; auto.
Qed.

Lemma StronglySorted_firstn {A : Type} (R : A -> A -> Prop) (n : nat)
  (l : list A) :
  StronglySorted R l -> StronglySorted R (firstn n l).
Proof.
  revert l. induction n as [|n IH]; intros l S; simpl; [constructor|].
  destruct l as [|x l]; [constructor|].
  apply StronglySorted_inv in S. destruct S as [S F].
  constructor; [now apply IH|].
  rewrite Forall_forall in *. intros y Hy. apply F.
  rewrite <- (firstn_skipn n l). apply in_or_app. now left.
Qed.

Lemma StronglySorted_app_inv {A : Type} (R : A -> A -> Prop)
  (l1 l2 : list A) :
  StronglySorted R (l1 ++ l2) ->
  forall x y, In x l1 -> In y l2 -> R x y.
Proof.
  induction l1 as [|a l1 IH]; simpl; intros S x y Hx Hy; [tauto|].
  apply StronglySorted_inv in S. destruct S as [S F].
  destruct Hx as [<-|Hx].
  - rewrite Forall_forall in F. apply F. apply in_or_app. now right.
  - now apply IH.
Qed.

(** ** [most_common] *)

Lemma insert_desc_perm (x : Z * Z) (l : list (Z * Z)) :
  Permutation (insert_desc x l) (x :: l).
Proof.
  induction l as [|y l IH]; simpl; [reflexivity|].
  destruct (snd y >? snd x); [|reflexivity].
  rewrite IH. apply perm_swap.
Qed.

Lemma sort_desc_perm (l : list (Z * Z)) : Permutation (sort_desc l) l.
Proof.
  induction l as [|x l IH]; simpl; [reflexivity|].
  rewrite insert_desc_perm. now constructor.
Qed.

Lemma ranks_before_count (idx : Z -> nat) (x y : Z * Z) :
  ranks_before idx x y -> snd y <= snd x.
Proof. unfold ranks_before. lia. Qed.

(** Inserting an item that precedes, for [idx], all the items of a ranked
    list keeps the list ranked. *)
Lemma insert_desc_sorted (idx : Z -> nat) (x : Z * Z) (l : list (Z * Z)) :
  StronglySorted (ranks_before idx) l ->
  Forall (fun y => (idx (fst x) < idx (fst y))%nat) l ->
  StronglySorted (ranks_before idx) (insert_desc x l).
Proof.
  induction l as [|y l IH]; intros S F; simpl.
  - repeat constructor.
  - apply StronglySorted_inv in S. destruct S as [S Fy].
    inversion F as [|? ? Hy Fl]; subst.
    rewrite Z.gtb_ltb. destruct (Z.ltb_spec (snd x) (snd y)) as [L|L].
    + constructor; [now apply IH|].
      apply (Permutation_Forall (Permutation_sym (insert_desc_perm x l))).
      constructor; [left; lia | assumption].
    + constructor; [now constructor|].
      constructor; [unfold ranks_before; lia|].
      rewrite Forall_forall in *. intros z Hz.
      pose proof (ranks_before_count _ _ _ (Fy z Hz)).
      pose proof (Fl z Hz). unfold ranks_before. lia.
Qed.

(** The stable sort ranks a list that is in the order of [idx]. *)
Lemma sort_desc_sorted (idx : Z -> nat) (l : list (Z * Z)) :
  StronglySorted (fun x y => (idx (fst x) < idx (fst y))%nat) l ->
  StronglySorted (ranks_before idx) (sort_desc l).
Proof.
  induction l as [|x l IH]; intros S; simpl; [constructor|].
  apply StronglySorted_inv in S. destruct S as [S F].
  apply insert_desc_sorted; [now apply IH|].
  apply (Permutation_Forall (Permutation_sym (sort_desc_perm l))).
  assumption.
Qed.

Lemma list_index_head (x : Z) (l : list Z) : list_index x (x :: l) = O.
Proof. simpl. now rewrite Z.eqb_refl. Qed.

Lemma list_index_tail (x y : Z) (l : list Z) :
  y <> x -> list_index y (x :: l) = S (list_index y l).
Proof. intros H. simpl. destruct (Z.eqb_spec x y); congruence. Qed.

(** The first occurrences are in the order of their positions. *)
Lemma dedup_sorted (l : list Z) :
  StronglySorted (fun a b => (list_index a l < list_index b l)%nat)
                 (dedup l).
Proof.
  induction l as [|x l IH]; simpl dedup; constructor.
  - apply (StronglySorted_filter_impl
             (fun a b => (list_index a l < list_index b l)%nat));
      [|exact IH].
    intros a b Ha Hb H. apply negb_true_iff, Z.eqb_neq in Ha, Hb.
    rewrite !list_index_tail by assumption. lia.
  - apply Forall_forall. intros y Hy. apply filter_In in Hy.
    destruct Hy as [_ Hy]. apply negb_true_iff, Z.eqb_neq in Hy.
    rewrite list_index_head, list_index_tail by assumption. lia.
Qed.

(** ** Factors and votes *)

Lemma In_factor_list (M n f : Z) :
  In f (factor_list M n) <-> 2 <= f <= M /\ n mod f = 0.
Proof.
  unfold factor_list. rewrite filter_In, In_range, Z.eqb_eq. lia.
Qed.

Lemma votes_le_length (ds : list Z) (f : Z) :
  votes ds f <= Z.of_nat (length ds).
Proof.
  unfold votes. pose proof (filter_length_le (fun d => d mod f =? 0) ds). lia.
Qed.

Lemma votes_pos (ds : list Z) (f : Z) :
  1 <= votes ds f <-> exists d, In d ds /\ d mod f = 0.
Proof.
  unfold votes. split.
  - intros H. destruct (filter (fun d => d mod f =? 0) ds) as [|d l] eqn:E;
      [simpl in H; lia|].
    assert (Hd : In d (filter (fun d => d mod f =? 0) ds))
      by (rewrite E; now left).
    apply filter_In in Hd. exists d. now rewrite <- Z.eqb_eq.
  - intros [d [Hd E]].
    assert (Hin : In d (filter (fun d => d mod f =? 0) ds))
      by (apply filter_In; now rewrite Z.eqb_eq).
    destruct (filter (fun d => d mod f =? 0) ds); [contradiction|].
    simpl. lia.
Qed.

(** A length with a vote from every distance divides them all. *)
Lemma votes_all (ds : list Z) (f : Z) :
  votes ds f = Z.of_nat (length ds) <-> divides_all ds f = true.
Proof.
  unfold votes, divides_all. induction ds as [|d ds IH]; simpl; [tauto|].
  pose proof (filter_length_le (fun d => d mod f =? 0) ds) as L.
  destruct (d mod f =? 0); simpl.
  - rewrite <- IH. lia.
  - split; [lia | discriminate].
Qed.

Section KasiskiFacts.

Variable set_iter : list Z -> list Z.
Hypothesis set_iter_laws : set_laws set_iter.

Lemma In_get_factors (M n f : Z) :
  In f (get_factors set_iter M n) <-> 2 <= f <= M /\ n mod f = 0.
Proof.
  unfold get_factors. rewrite (proj2 (set_iter_laws _)). apply In_factor_list.
Qed.

Lemma NoDup_get_factors (M n : Z) : NoDup (get_factors set_iter M n).
Proof. apply set_iter_laws. Qed.

Lemma In_factor_scan (M : Z) (ds : list Z) (f : Z) :
  In f (factor_scan set_iter M ds) <->
  2 <= f <= M /\ exists d, In d ds /\ d mod f = 0.
Proof.
  unfold factor_scan. rewrite in_flat_map. split.
  - intros [d [Hd Hf]]. apply In_get_factors in Hf. split; [tauto|].
    exists d. tauto.
  - intros [B [d [Hd E]]]. exists d. split; [assumption|].
    now apply In_get_factors.
Qed.

(** The counter of a length of [2..M] is its number of votes. *)
Lemma factor_scan_count (M : Z) (ds : list Z) (f : Z) :
  2 <= f <= M -> count f (factor_scan set_iter M ds) = votes ds f.
Proof.
  intros B. unfold count, votes, factor_scan.
  induction ds as [|d ds IH]; simpl; [reflexivity|].
  rewrite count_occ_app, Nat2Z.inj_add, IH.
  destruct (Z.eqb_spec (d mod f) 0) as [E|E]; simpl.
  - rewrite (proj1 (NoDup_count_occ' Z.eq_dec _) (NoDup_get_factors M d));
      [lia | now apply In_get_factors].
  - rewrite (proj1 (count_occ_not_In Z.eq_dec _ _)); [lia|].
    rewrite In_get_factors. tauto.
Qed.

(** The ranked list behind [kasiski_examination], for a list of distances:
    at most three lengths of [2..M], all different, each dividing some
    distance; in the order of [outranks]; and every voted length left out
    is outranked by the three returned. *)
Lemma kasiski_ranking (M : Z) (ds : list Z) :
  let scan := factor_scan set_iter M ds in
  let r := map fst (most_common 3 (common_factors set_iter M ds)) in
  (length r <= 3)%nat /\
  NoDup r /\
  (forall f, In f r -> 2 <= f <= M /\ exists d, In d ds /\ d mod f = 0) /\
  StronglySorted (outranks ds scan) r /\
  (forall f, 2 <= f <= M -> 1 <= votes ds f -> ~ In f r ->
             length r = 3%nat /\ forall a, In a r -> outranks ds scan a f).
Proof.
  intros scan r.
  set (c := common_factors set_iter M ds).
  set (items := sort_desc c).
  assert (Ec : c = map (fun k => (k, count k scan)) (dedup scan))
    by apply counter_fold_spec.
  assert (Pi : Permutation items c) by apply sort_desc_perm.
  assert (Ek : Permutation (map fst items) (dedup scan)).
  { rewrite (Permutation_map fst Pi), Ec, map_map. simpl.
    now rewrite map_id. }
  assert (Hitem : forall x, In x items ->
            2 <= fst x <= M /\ snd x = votes ds (fst x) /\
            exists d, In d ds /\ d mod fst x = 0).
  { intros x Hx. apply (Permutation_in _ Pi) in Hx. rewrite Ec in Hx.
    apply in_map_iff in Hx. destruct Hx as [k [<- Hk]]. simpl.
    apply In_dedup, In_factor_scan in Hk. destruct Hk as [B D].
    repeat split; try tauto. now apply factor_scan_count. }
  assert (Sitems : StronglySorted (ranks_before (fun k => list_index k scan))
                                  items).
  { apply sort_desc_sorted. rewrite Ec.
    apply (StronglySorted_map_impl
             (fun a b => (list_index a scan < list_index b scan)%nat));
      [|apply dedup_sorted].
    intros a b _ _ H. exact H. }
  assert (Skeys : StronglySorted (outranks ds scan) (map fst items)).
  { apply (StronglySorted_map_impl
             (ranks_before (fun k => list_index k scan)));
      [|assumption].
    intros x y Hx Hy H. destruct (Hitem x Hx) as [_ [Ex _]].
    destruct (Hitem y Hy) as [_ [Ey _]].
    unfold outranks. unfold ranks_before in H. rewrite <- Ex, <- Ey.
    exact H. }
  assert (Er : r = firstn 3 (map fst items))
    by (unfold r, most_common; fold c; fold items; symmetry;
        apply firstn_map).
  assert (Esplit : map fst items = r ++ skipn 3 (map fst items))
    by (rewrite Er; symmetry; apply firstn_skipn).
  split; [rewrite Er; apply firstn_le_length|].
  split.
  { apply (NoDup_app_remove_r r (skipn 3 (map fst items))).
    rewrite <- Esplit.
    apply (Permutation_NoDup (Permutation_sym Ek)), NoDup_dedup. }
  split.
  { intros f Hf.
    assert (Hin : In f (map fst items))
      by (rewrite Esplit; apply in_or_app; now left).
    apply in_map_iff in Hin. destruct Hin as [x [<- Hx]].
    destruct (Hitem x Hx) as [B [_ D]]. tauto. }
  split; [rewrite Er; now apply StronglySorted_firstn|].
  intros f B V NI.
  assert (Hin : In f (map fst items)).
  { apply (Permutation_in _ (Permutation_sym Ek)), In_dedup.
    apply In_factor_scan. split; [assumption | now apply votes_pos]. }
  rewrite Esplit in Hin. apply in_app_or in Hin.
  destruct Hin as [Hin|Hin]; [contradiction|].
  split.
  - rewrite Er, length_firstn. apply Nat.min_l.
    destruct (Nat.le_gt_cases 3 (length (map fst items))) as [L|L];
      [assumption|].
    rewrite skipn_all2 in Hin by lia. contradiction.
  - intros a Ha. rewrite Esplit in Skeys.
    now apply (StronglySorted_app_inv _ _ _ Skeys).
Qed.

End KasiskiFacts.

(** ** [kasiski_examination] *)

Lemma dedup_set_laws : set_laws dedup.
Proof. intros l. split; [apply NoDup_dedup | intros x; apply In_dedup]. Qed.

Lemma only_repeated_spec (text t : str) :
  only_repeated text t = true ->
  forall t', t' <> t -> (length (occurrences text t') <= 1)%nat.
Proof.
  unfold only_repeated, occurrences. intros H t' Ht'.
  rewrite forallb_forall in H. rewrite length_map.
  set (n := (length text - 2)%nat) in *.
  assert (ND : NoDup (filter (fun i => str_eqb (trigram_at text i) t')
                             (seq 0 n)))
    by (apply NoDup_filter, seq_NoDup).
  destruct (filter (fun i => str_eqb (trigram_at text i) t') (seq 0 n))
    as [|i [|j l]] eqn:E; simpl; try lia.
  exfalso.
  assert (Hi : In i (filter (fun i => str_eqb (trigram_at text i) t')
                            (seq 0 n))) by (rewrite E; simpl; tauto).
  assert (Hj : In j (filter (fun i => str_eqb (trigram_at text i) t')
                            (seq 0 n))) by (rewrite E; simpl; tauto).
  apply filter_In in Hi, Hj. destruct Hi as [Hi Ti], Hj as [Hj Tj].
  apply str_eqb_eq in Ti, Tj.
  specialize (H i Hi). rewrite forallb_forall in H. specialize (H j Hj).
  rewrite Ti, Tj, str_eqb_refl in H. simpl in H.
  rewrite orb_false_r, orb_true_iff in H. destruct H as [H|H].
  - apply Nat.eqb_eq in H. subst j. inversion ND as [|? ? NI _]; subst.
    apply NI. now left.
  - apply str_eqb_eq in H. contradiction.
Qed.

Lemma filter_single {A : Type} (f : str * A -> bool) (t : str) (v : A)
  (d : list (str * A)) :
  NoDup (map fst d) -> In (t, v) d -> f (t, v) = true ->
  (forall kv, In kv d -> fst kv <> t -> f kv = false) ->
  filter f d = [(t, v)].
Proof.
  induction d as [|[k0 v0] d IH]; simpl; [tauto|].
  intros ND Hin Ft Hothers. inversion ND as [|? ? NI ND']; subst.
  destruct Hin as [E|Hin].
  - injection E as -> ->. rewrite Ft. f_equal. apply filter_none.
    intros [k w] Hk. apply Hothers; [now right|]. simpl. intros ->.
    apply NI. apply in_map_iff. now exists (t, w).
  - assert (k0 <> t).
    { intros ->. apply NI. apply in_map_iff. now exists (t, v). }
    rewrite (Hothers (k0, v0)) by (simpl; tauto).
    apply IH; auto.
Qed.

(** When [t] is the only repeated trigram, the distances are those between
    its occurrences. *)
Lemma distances_single (text t : str) :
  (2 <= length (occurrences text t))%nat ->
  (forall t', t' <> t -> (length (occurrences text t') <= 1)%nat) ->
  distances text = pair_distances (occurrences text t).
Proof.
  intros H2 H1. unfold distances, repeated_seqs.
  rewrite (filter_single _ t (occurrences text t)).
  - simpl. apply app_nil_r.
  - apply sequences_NoDup.
  - apply occurrences_In_sequences.
    destruct (occurrences text t); [simpl in H2; lia | discriminate].
  - simpl. now apply Nat.ltb_lt.
  - intros [k ps] Hin Hk. apply sequences_In in Hin. subst ps. simpl in *.
    apply Nat.ltb_ge. now apply H1.
Qed.

(** ** The distances of the code are the distances of the specification *)

Lemma str_eqb_sym (s t : str) : str_eqb s t = str_eqb t s.
Proof.
  destruct (str_eqb s t) eqn:E.
  - apply str_eqb_eq in E. subst. symmetry. apply str_eqb_refl.
  - apply str_eqb_neq in E. symmetry. apply str_eqb_neq. congruence.
Qed.

Lemma In_distinct_strs (l : list str) (x : str) :
  In x (distinct_strs l) <-> In x l.
Proof.
  induction l as [|y l IH]; simpl; [tauto|].
  rewrite filter_In, IH, negb_true_iff, str_eqb_neq.
  destruct (list_eq_dec Z.eq_dec y x); intuition congruence.
Qed.

Lemma NoDup_distinct_strs (l : list str) : NoDup (distinct_strs l).
Proof.
  induction l as [|y l IH]; simpl; constructor.
  - rewrite filter_In, negb_true_iff, str_eqb_neq. tauto.
  - now apply NoDup_filter.
Qed.

Lemma dict_append_keys_eq (k : str) (i : Z) (d : list (str * list Z)) :
  map fst (dict_append k i d) =
  if existsb (str_eqb k) (map fst d) then map fst d else map fst d ++ [k].
Proof.
  induction d as [|[k0 v] d IH]; [reflexivity|].
  cbn [dict_append map fst existsb]. rewrite (str_eqb_sym k k0).
  destruct (str_eqb k0 k); cbn [map fst orb]; [reflexivity|].
  rewrite IH. destruct (existsb (str_eqb k) (map fst d)); reflexivity.
Qed.

(** Keys of the dictionary after a run of insertions: the old keys, then
    the new ones in the order in which they are first met. *)
Lemma dict_fold_keys (text : str) (l : list nat) :
  forall d,
  map fst
    (fold_left (fun d i => dict_append (trigram_at text i) (Z.of_nat i) d)
               l d) =
  map fst d ++
  filter (fun t => negb (existsb (str_eqb t) (map fst d)))
         (distinct_strs (map (trigram_at text) l)).
Proof.
  induction l as [|i l IH]; intros d; cbn [fold_left map distinct_strs].
  - cbn [filter]. now rewrite app_nil_r.
  - rewrite IH, dict_append_keys_eq. set (x := trigram_at text i).
    destruct (existsb (str_eqb x) (map fst d)) eqn:M.
    + cbn [filter]. rewrite M. cbn [negb]. f_equal.
      rewrite filter_filter_and. apply filter_ext_in.
      intros y _. destruct (str_eqb y x) eqn:E; cbn [negb andb].
      * apply str_eqb_eq in E. subst y. now rewrite M.
      * reflexivity.
    + cbn [filter]. rewrite M. cbn [negb]. rewrite <- app_assoc.
      cbn [app]. f_equal. f_equal.
      rewrite filter_filter_and. apply filter_ext_in.
      intros y _. rewrite existsb_app. cbn [existsb].
      rewrite orb_false_r, negb_orb, andb_comm. reflexivity.
Qed.

Lemma dict_as_map (d : list (str * list Z)) :
  NoDup (map fst d) -> d = map (fun k => (k, dict_get k d)) (map fst d).
Proof.
  induction d as [|[k v] d IH]; intros ND; [reflexivity|].
  cbn [map fst dict_get] in *. inversion ND as [|? ? NI ND']; subst.
  rewrite str_eqb_refl. f_equal.
  rewrite IH at 1 by assumption. apply map_ext_in.
  intros k' Hk'. destruct (str_eqb k k') eqn:E; [|reflexivity].
  apply str_eqb_eq in E. subst k'. contradiction.
Qed.

(** The dictionary of sequences: the trigrams of the text, in the order of
    their first occurrence, each with its occurrences in ascending
    order. *)
Lemma sequences_spec (text : str) :
  sequences text = map (fun t => (t, occurrences text t)) (trigrams text).
Proof.
  assert (K : map fst (sequences text) = trigrams text).
  { unfold sequences. rewrite dict_fold_keys. cbn [map fst app].
    unfold trigrams, windows.
    generalize (distinct_strs
                  (map (trigram_at text) (seq 0 (length text - 2)))).
    intros l. induction l as [|y l IH]; [reflexivity|].
    cbn [filter existsb negb]. f_equal. exact IH. }
  rewrite (dict_as_map (sequences text) (sequences_NoDup text)), K.
  apply map_ext. intros t. now rewrite sequences_get.
Qed.

Lemma flat_map_same {A B : Type} (f g : A -> list B) (l : list A) :
  (forall x, In x l -> f x = g x) -> flat_map f l = flat_map g l.
Proof.
  induction l as [|x l IH]; intros H; [reflexivity|].
  cbn [flat_map]. rewrite (H x) by now left.
  rewrite IH by (intros y Hy; apply H; now right). reflexivity.
Qed.

Lemma flat_map_of_map {A B C : Type} (f : B -> list C) (g : A -> B)
  (l : list A) :
  flat_map f (map g l) = flat_map (fun x => f (g x)) l.
Proof.
  induction l as [|x l IH]; [reflexivity|].
  cbn [map flat_map]. now rewrite IH.
Qed.

Lemma flat_map_of_flat_map {A B C : Type} (f : B -> list C)
  (g : A -> list B) (l : list A) :
  flat_map f (flat_map g l) = flat_map (fun x => flat_map f (g x)) l.
Proof.
  induction l as [|x l IH]; [reflexivity|].
  cbn [flat_map]. now rewrite flat_map_app, IH.
Qed.

Lemma flat_map_skip {A B : Type} (f : A -> list B) (keep : A -> bool)
  (l : list A) :
  (forall x, In x l -> keep x = false -> f x = []) ->
  flat_map f (filter keep l) = flat_map f l.
Proof.
  induction l as [|x l IH]; intros H; [reflexivity|].
  cbn [filter flat_map].
  rewrite <- IH by (intros y Hy; apply H; now right).
  destruct (keep x) eqn:E; [reflexivity|].
  now rewrite (H x (or_introl eq_refl) E).
Qed.

Lemma filter_all {A : Type} (f : A -> bool) (l : list A) :
  (forall x, In x l -> f x = true) -> filter f l = l.
Proof.
  induction l as [|x l IH]; intros H; [reflexivity|].
  cbn [filter]. rewrite (H x) by now left.
  f_equal. apply IH. intros y Hy. apply H. now right.
Qed.

(** On an ascending list the two nested loops give, for each position, the
    distances to the later ones. *)
Lemma pair_distances_sorted (ps : list Z) :
  StronglySorted Z.lt ps ->
  pair_distances ps =
  flat_map (fun p => map (fun q => q - p) (filter (fun q => p <? q) ps)) ps.
Proof.
  induction ps as [|a ps IH]; intros S; [reflexivity|].
  apply StronglySorted_inv in S. destruct S as [S F].
  rewrite Forall_forall in F.
  cbn [pair_distances flat_map filter]. rewrite Z.ltb_irrefl.
  rewrite (filter_all (fun q => a <? q) ps)
    by (intros q Hq; apply Z.ltb_lt; now apply F).
  f_equal. rewrite (IH S). apply flat_map_same.
  intros p Hp. replace (p <? a) with false; [reflexivity|].
  symmetry. apply Z.ltb_ge. specialize (F p Hp). lia.
Qed.

Lemma pair_distances_few (ps : list Z) :
  (length ps <= 1)%nat -> pair_distances ps = [].
Proof.
  destruct ps as [|p [|q ps]]; simpl; try reflexivity. lia.
Qed.

(** The list of distances of the code is the list of the specification,
    in the same order. *)
Lemma distances_pair_gaps (text : str) : distances text = pair_gaps text.
Proof.
  unfold distances, repeated_seqs, pair_gaps.
  rewrite sequences_spec, filter_map_swap, flat_map_of_map.
  cbn [snd]. rewrite flat_map_skip.
  - apply flat_map_same. intros t _. unfold trigram_gaps.
    apply pair_distances_sorted, occurrences_sorted.
  - intros t _ H. apply pair_distances_few. now apply Nat.ltb_ge.
Qed.

Lemma NoDup_flat_map_apart {A B : Type} (f : A -> list B) (l : list A) :
  NoDup l ->
  (forall x, In x l -> NoDup (f x)) ->
  (forall x y b, In x l -> In y l -> In b (f x) -> In b (f y) -> x = y) ->
  NoDup (flat_map f l).
Proof.
  induction l as [|x l IH]; intros ND Hf Hd; [constructor|].
  inversion ND as [|? ? NI ND']; subst. cbn [flat_map].
  apply NoDup_app.
  - apply Hf. now left.
  - apply IH; [assumption | |].
    + intros y Hy. apply Hf. now right.
    + intros y z b Hy Hz. apply Hd; now right.
  - intros b Hb Hb'. apply in_flat_map in Hb'. destruct Hb' as [y [Hy Hby]].
    assert (x = y) by (apply (Hd x y b); simpl; auto). subst y. contradiction.
Qed.

(** Sorting the window positions by the trigram they spell rearranges
    them. *)
Lemma windows_by_trigram (text : str) :
  Permutation
    (flat_map (fun t => filter (fun i => str_eqb (trigram_at text i) t)
                               (windows text))
              (trigrams text))
    (windows text).
Proof.
  apply NoDup_Permutation.
  - apply NoDup_flat_map_apart.
    + apply NoDup_distinct_strs.
    + intros t _. apply NoDup_filter, seq_NoDup.
    + intros t t' i _ _ Hi Hi'. apply filter_In in Hi, Hi'.
      destruct Hi as [_ Hi], Hi' as [_ Hi']. apply str_eqb_eq in Hi, Hi'.
      congruence.
  - apply seq_NoDup.
  - intros i. rewrite in_flat_map. split.
    + intros [t [_ Hi]]. apply filter_In in Hi. tauto.
    + intros Hi. exists (trigram_at text i). split.
      * unfold trigrams. apply In_distinct_strs. now apply in_map.
      * apply filter_In. split; [assumption | apply str_eqb_refl].
Qed.

(** The distances of one substring, read off the window positions. *)
Lemma trigram_gaps_by_position (text t : str) :
  trigram_gaps text t =
  flat_map
    (fun i =>
       map (fun j => Z.of_nat j - Z.of_nat i)
           (filter (fun j => (i <? j)%nat &&
                             str_eqb (trigram_at text i) (trigram_at text j))
                   (windows text)))
    (filter (fun i => str_eqb (trigram_at text i) t) (windows text)).
Proof.
  unfold trigram_gaps, occurrences. fold (windows text).
  rewrite flat_map_of_map. apply flat_map_same.
  intros i Hi. apply filter_In in Hi. destruct Hi as [_ Ti].
  apply str_eqb_eq in Ti.
  rewrite filter_map_swap, map_map, filter_filter_and.
  f_equal. apply filter_ext. intros j.
  rewrite Ti, (str_eqb_sym t), andb_comm. f_equal.
  destruct (Nat.ltb_spec i j), (Z.ltb_spec (Z.of_nat i) (Z.of_nat j));
    try reflexivity; lia.
Qed.

(** As a multiset, the distances are one for each pair of positions
    [i < j] with the same trigram. *)
Lemma pair_gaps_all_gaps (text : str) :
  Permutation (pair_gaps text) (all_gaps text).
Proof.
  unfold pair_gaps, all_gaps.
  rewrite (flat_map_same _ _ _ (fun t _ => trigram_gaps_by_position text t)).
  rewrite <- flat_map_of_flat_map.
  apply Permutation_flat_map, windows_by_trigram.
Qed.

Lemma votes_rearranged (a b : list Z) (f : Z) :
  Permutation a b -> votes a f = votes b f.
Proof.
  intros P. unfold votes. f_equal.
  induction P as [|x a b P IH|x y a|a b c P1 IH1 P2 IH2].
  - reflexivity.
  - cbn [filter]. destruct (x mod f =? 0); cbn [length]; now rewrite IH.
  - cbn [filter]. destruct (x mod f =? 0), (y mod f =? 0); reflexivity.
  - congruence.
Qed.

(** C4.  Kasiski output shape.  The distances that vote are those of the
    specification: the list built by the code is [pair_gaps], and as a
    multiset it holds one distance [j - i] for each pair of window positions
    [i < j] that spell the same 3-letter substring ([all_gaps]).
    [kasiski_examination] returns at most three lengths, all different,
    each in [2, max_key_length] and each dividing the distance between two
    occurrences of one repeated 3-letter substring; the list is in
    descending order of votes (one vote per distance that the length
    divides), equal votes in the order of first meeting in the factor scan
    over these distances; a voted length that is not returned is outranked
    by the three that are; and without a repeated 3-letter substring the
    list is empty.  [set_iter] is any iteration order of a set. *)
Theorem kasiski_output_shape (set_iter : list Z -> list Z) (text : str)
  (M : Z) :
  set_laws set_iter ->
  let gaps := all_gaps text in
  let scan := discovery_order set_iter M (pair_gaps text) in
  let r := kasiski_examination set_iter text M in
  distances text = pair_gaps text /\
  Permutation (pair_gaps text) gaps /\
  (length r <= 3)%nat /\
  NoDup r /\
  (forall f, In f r ->
     2 <= f <= M /\
     exists t p q,
       In p (occurrences text t) /\ In q (occurrences text t) /\
       p < q /\ (q - p) mod f = 0) /\
  StronglySorted (outranks gaps scan) r /\
  (forall f, 2 <= f <= M -> 1 <= votes gaps f -> ~ In f r ->
     length r = 3%nat /\ forall a, In a r -> outranks gaps scan a f) /\
  ((forall t, (length (occurrences text t) <= 1)%nat) -> r = []).
Proof.
  intros laws gaps scan r.
  pose proof (distances_pair_gaps text) as Ed.
  pose proof (pair_gaps_all_gaps text) as Pg. fold gaps in Pg.
  assert (V : forall f, votes (distances text) f = votes gaps f)
    by (intros f; apply votes_rearranged; now rewrite Ed).
  assert (Es : factor_scan set_iter M (distances text) = scan)
    by (rewrite Ed; reflexivity).
  assert (O : forall a b,
            outranks (distances text)
                     (factor_scan set_iter M (distances text)) a b ->
            outranks gaps scan a b).
  { intros a b. unfold outranks. now rewrite Es, !V. }
  destruct (kasiski_ranking set_iter laws M (distances text))
    as [L [ND [D [S T]]]].
  fold (kasiski_examination set_iter text M) in L, ND, D, S, T.
  fold r in L, ND, D, S, T.
  split; [exact Ed|]. split; [exact Pg|].
  split; [exact L|]. split; [exact ND|].
  split; [|split; [|split]].
  - intros f Hf. destruct (D f Hf) as [B [d [Hd E]]]. split; [exact B|].
    destruct (distances_In text d Hd) as [t [p [q [Hp [Hq [Lt Eq]]]]]].
    exists t, p, q. subst d. auto.
  - rewrite <- (map_id r).
    apply (StronglySorted_map_impl
             (outranks (distances text)
                       (factor_scan set_iter M (distances text))));
      [|exact S].
    intros a b _ _. apply O.
  - intros f B Vf N. rewrite <- V in Vf. destruct (T f B Vf N) as [L3 Ha].
    split; [exact L3|]. intros a Hin. apply O. now apply Ha.
  - intros H. unfold r, kasiski_examination.
    now rewrite (distances_none text H).
Qed.

Lemma kasiski_output_shape_witness :
  set_laws dedup /\
  let text := lit "abcdewxyzabcdepqrfpqruvwghijkuvw" in
  let gaps := all_gaps text in
  let scan := discovery_order dedup 15 (pair_gaps text) in
  let r := kasiski_examination dedup text 15 in
  distances text = pair_gaps text /\
  Permutation (pair_gaps text) gaps /\
  (length r <= 3)%nat /\
  NoDup r /\
  (forall f, In f r ->
     2 <= f <= 15 /\
     exists t p q,
       In p (occurrences text t) /\ In q (occurrences text t) /\
       p < q /\ (q - p) mod f = 0) /\
  StronglySorted (outranks gaps scan) r /\
  (forall f, 2 <= f <= 15 -> 1 <= votes gaps f -> ~ In f r ->
     length r = 3%nat /\ forall a, In a r -> outranks gaps scan a f) /\
  ((forall t, (length (occurrences text t) <= 1)%nat) -> r = []).
Proof.
  split; [exact dedup_set_laws|].
  exact (kasiski_output_shape dedup
           (lit "abcdewxyzabcdepqrfpqruvwghijkuvw") 15 dedup_set_laws).
Defined.

(** Every pair of occurrences counts.  In ['abcdewxyzabcdepqrfpqruvwghijkuvw']
    the trigrams ['abc'], ['bcd'] and ['cde'] each repeat at distance 9,
    ['pqr'] at distance 4 and ['uvw'] at distance 8: the distance 9 is in
    the list three times, so 3 and 9 have three votes each, 2 and 4 have
    two and 8 has one. *)
Example distances_count_every_pair :
  let text := lit "abcdewxyzabcdepqrfpqruvwghijkuvw" in
  distances text = [9; 9; 9; 4; 8] /\
  all_gaps text = [9; 9; 9; 4; 8] /\
  map (votes (all_gaps text)) [2; 3; 4; 8; 9] = [2; 3; 2; 1; 3].
Proof. vm_compute. repeat split. Qed.

(** Offsets that are multiples of [P] are at distances that [P] divides. *)
Lemma period_divides_distances (ps : list Z) (P : Z) :
  StronglySorted Z.lt ps ->
  (forall p, In p ps -> p mod P = 0) ->
  divides_all (pair_distances ps) P = true.
Proof.
  intros S H. unfold divides_all. apply forallb_forall. intros d Hd.
  destruct (pair_distances_In ps d S Hd) as [p [q [Hp [Hq [_ ->]]]]].
  apply Z.eqb_eq. rewrite Zminus_mod, (H p Hp), (H q Hq). reflexivity.
Qed.

(** C5 (counterexample).  The text ['abcdefghijklabc'] repeats the trigram
    ['abc'] at the offsets 0 and 12, both multiples of the period 12, and no
    other trigram occurs twice; the one distance, 12, gives one vote to each
    of 2, 3, 4, 6 and 12, and the three candidates returned are 2, 3 and 4
    (the set of the five factors of 12 is iterated in ascending order):
    the period 12 is not among them. *)
Lemma kasiski_period_12_missed :
  let text := lit "abcdefghijklabc" in
  let t := lit "abc" in
  2 <= 12 <= 15 /\
  occurrences text t = [0; 12] /\
  (forall p, In p (occurrences text t) -> p mod 12 = 0) /\
  (forall t', t' <> t -> (length (occurrences text t') <= 1)%nat) /\
  kasiski_examination dedup text 15 = [2; 3; 4] /\
  ~ In 12 (kasiski_examination dedup text 15).
Proof.
  cbv zeta. split; [lia|]. split; [reflexivity|].
  split; [|split; [|split]].
  - change (occurrences (lit "abcdefghijklabc") (lit "abc")) with [0; 12].
    intros p [<-|[<-|[]]]; reflexivity.
  - apply only_repeated_spec. reflexivity.
  - reflexivity.
  - change (kasiski_examination dedup (lit "abcdefghijklabc") 15)
      with [2; 3; 4].
    simpl. lia.
Qed.

(** Whatever the order in which the set of factors is iterated, one of the
    five periods 2, 3, 4, 6, 12 of that text, each of which divides both
    offsets, is not returned: only three candidates are. *)
Lemma kasiski_period_missed_any_order (set_iter : list Z -> list Z) :
  set_laws set_iter ->
  exists P,
    In P [2; 3; 4; 6; 12] /\
    ~ In P (kasiski_examination set_iter (lit "abcdefghijklabc") 15).
Proof.
  intros laws.
  set (r := kasiski_examination set_iter (lit "abcdefghijklabc") 15).
  assert (L : (length r <= 3)%nat)
    by apply (kasiski_ranking set_iter laws 15).
  destruct (Exists_dec (fun P => ~ In P r) [2; 3; 4; 6; 12]) as [E|N].
  - intros P. destruct (in_dec Z.eq_dec P r); [right | left]; tauto.
  - apply Exists_exists in E. exact E.
  - exfalso.
    assert (I : incl [2; 3; 4; 6; 12] r).
    { intros P HP. destruct (in_dec Z.eq_dec P r) as [Y|Y]; [exact Y|].
      exfalso. apply N. apply Exists_exists. now exists P. }
    assert (ND : NoDup [2; 3; 4; 6; 12])
      by (repeat constructor; simpl; lia).
    pose proof (NoDup_incl_length ND I) as C. simpl in C. lia.
Qed.

(** C5 (as amended).  Kasiski period detection: when one trigram occurs at
    least twice, at offsets that are all multiples of a period [P] of
    [2..max_key_length], and no other trigram occurs twice, every distance
    votes for [P], so that no length has more votes; and [P] is among the
    candidates returned whenever at most two other lengths of
    [2..max_key_length] divide every distance. *)
Theorem kasiski_period_detection (set_iter : list Z -> list Z)
  (text t : str) (P M : Z) :
  set_laws set_iter ->
  2 <= P <= M ->
  (2 <= length (occurrences text t))%nat ->
  (forall p, In p (occurrences text t) -> p mod P = 0) ->
  (forall t', t' <> t -> (length (occurrences text t') <= 1)%nat) ->
  let ds := distances text in
  ds = pair_distances (occurrences text t) /\
  votes ds P = Z.of_nat (length ds) /\
  (forall f, votes ds f <= votes ds P) /\
  ((length (rivals M P ds) <= 2)%nat ->
   In P (kasiski_examination set_iter text M)).
Proof.
  intros laws B H2 Hmult H1 ds.
  assert (Eds : ds = pair_distances (occurrences text t))
    by now apply distances_single.
  assert (Hall : divides_all ds P = true).
  { rewrite Eds. apply period_divides_distances;
      [apply occurrences_sorted | assumption]. }
  assert (V : votes ds P = Z.of_nat (length ds)) by now apply votes_all.
  assert (Hne : ds <> [])
    by (rewrite Eds; now apply pair_distances_nonempty).
  split; [exact Eds|]. split; [exact V|].
  split; [intros f; rewrite V; apply votes_le_length|].
  intros Hr.
  set (r := kasiski_examination set_iter text M).
  destruct (in_dec Z.eq_dec P r) as [Y|N]; [exact Y|]. exfalso.
  destruct (kasiski_ranking set_iter laws M ds) as [_ [ND [D [_ T]]]].
  fold ds in r. change (map fst (most_common 3 (common_factors set_iter M ds)))
    with r in *.
  assert (V1 : 1 <= votes ds P).
  { rewrite V. destruct ds; [congruence | simpl; lia]. }
  destruct (T P B V1 N) as [L3 O].
  assert (I : incl r (rivals M P ds)).
  { intros a Ha. unfold rivals. apply filter_In. split.
    - apply In_range. destruct (D a Ha) as [Ba _]. lia.
    - apply andb_true_iff. split.
      + apply negb_true_iff, Z.eqb_neq. intros ->. contradiction.
      + apply votes_all. pose proof (votes_le_length ds a).
        destruct (O a Ha) as [G|[G _]]; lia. }
  pose proof (NoDup_incl_length ND I). lia.
Qed.

Lemma kasiski_period_detection_witness :
  set_laws dedup /\
  2 <= 7 <= 15 /\
  (2 <= length (occurrences (lit "abcdefgabc") (lit "abc")))%nat /\
  (forall p, In p (occurrences (lit "abcdefgabc") (lit "abc")) ->
             p mod 7 = 0) /\
  (forall t', t' <> lit "abc" ->
              (length (occurrences (lit "abcdefgabc") t') <= 1)%nat) /\
  let ds := distances (lit "abcdefgabc") in
  ds = pair_distances (occurrences (lit "abcdefgabc") (lit "abc")) /\
  votes ds 7 = Z.of_nat (length ds) /\
  (forall f, votes ds f <= votes ds 7) /\
  ((length (rivals 15 7 ds) <= 2)%nat ->
   In 7 (kasiski_examination dedup (lit "abcdefgabc") 15)).
Proof.
  assert (Hm : forall p, In p (occurrences (lit "abcdefgabc") (lit "abc")) ->
                         p mod 7 = 0).
  { change (occurrences (lit "abcdefgabc") (lit "abc")) with [0; 7].
    intros p [<-|[<-|[]]]; reflexivity. }
  assert (Ho : forall t', t' <> lit "abc" ->
                 (length (occurrences (lit "abcdefgabc") t') <= 1)%nat).
  { apply only_repeated_spec. reflexivity. }
  split; [exact dedup_set_laws|]. split; [lia|].
  split; [vm_compute; lia|]. split; [exact Hm|]. split; [exact Ho|].
  apply (kasiski_period_detection dedup (lit "abcdefgabc") (lit "abc") 7 15
           dedup_set_laws ltac:(lia) ltac:(vm_compute; lia) Hm Ho).
Defined.

(** ** [crack_vigenere] *)

(** An attempt at a key length of at least 1 raises nothing. *)
Lemma attempt_total (cleaned ciphertext : str) (N : Z) :
  1 <= N -> exists key decrypted,
    attempt cleaned ciphertext N = Ok (key, decrypted).
Proof.
  intros H. unfold attempt. rewrite get_cosets_pos by assumption. simpl.
  set (key := map (fun coset => frequency_analysis coset + ord_a) _).
  assert (Hk : key <> []).
  { unfold key. destruct (Z.to_nat N) as [|n] eqn:E; [lia|]. discriminate. }
  apply str_lower_nonempty in Hk.
  destruct (decrypt_loop_total _ Hk ciphertext 0) as [out [E _]].
  unfold decrypt_vigenere. rewrite E. simpl. eauto.
Qed.

Section OrchestratorFacts.

Variable set_iter : list Z -> list Z.
Variable stdin : nat -> str.
Variables cleaned ciphertext : str.

(** The second loop is the first loop over the lengths it does not skip. *)
Lemma manual_loop_filter (possible lengths : list Z) (w : console) :
  manual_loop stdin cleaned ciphertext possible lengths w =
  ranked_loop stdin cleaned ciphertext
    (filter (fun k => negb (mem k possible)) lengths) w.
Proof.
  revert w. induction lengths as [|k l IH]; intros w; [reflexivity|].
  simpl. destruct (negb (mem k possible)); simpl.
  - destruct (try_length stdin cleaned ciphertext k w) as [[[kd|] w']|e];
      simpl; auto.
  - apply IH.
Qed.

(** Two loops in a row are one loop over the two lists. *)
Lemma ranked_loop_app (l1 l2 : list Z) (w : console) :
  ranked_loop stdin cleaned ciphertext (l1 ++ l2) w =
  (r <- ranked_loop stdin cleaned ciphertext l1 w ;;
   match fst r with
   | Some kd => Ok (Some kd, snd r)
   | None => ranked_loop stdin cleaned ciphertext l2 (snd r)
   end).
Proof.
  revert w. induction l1 as [|k l IH]; intros w; simpl.
  - reflexivity.
  - destruct (try_length stdin cleaned ciphertext k w) as [[[kd|] w']|e];
      simpl; auto.
Qed.

Lemma try_length_ok (k : Z) (w : console) :
  1 <= k ->
  exists key decrypted,
    attempt cleaned ciphertext k = Ok (key, decrypted) /\
    try_length stdin cleaned ciphertext k w =
    Ok (if says_yes (stdin (asked w)) then Some (key, decrypted) else None,
        {| asked := S (asked w);
           tried := tried w ++ [(k, key, decrypted)] |}).
Proof.
  intros H. destruct (attempt_total cleaned ciphertext k H) as [key [dec E]].
  exists key, dec. split; [assumption|].
  unfold try_length. rewrite E. reflexivity.
Qed.

Lemma tried_lengths_snoc (w : console) (n : nat) (k : Z) (key dec : str) :
  tried_lengths {| asked := n; tried := tried w ++ [(k, key, dec)] |} =
  tried_lengths w ++ [k].
Proof. unfold tried_lengths. simpl. now rewrite map_app. Qed.

(** All answers are rejections: every length of the list is tried, once
    and in order, and the loop ends without a result. *)
Lemma ranked_loop_rejects (l : list Z) :
  (forall k, In k l -> 1 <= k) ->
  forall w,
  (forall j, (j < length l)%nat -> says_yes (stdin (asked w + j)) = false) ->
  exists w',
    ranked_loop stdin cleaned ciphertext l w = Ok (None, w') /\
    asked w' = (asked w + length l)%nat /\
    tried_lengths w' = tried_lengths w ++ l.
Proof.
  induction l as [|k l IH]; intros Hl w Hrej; simpl.
  - exists w. rewrite app_nil_r. auto.
  - destruct (try_length_ok k w (Hl k (or_introl eq_refl)))
      as [key [dec [_ ->]]].
    pose proof (Hrej O ltac:(simpl; lia)) as R0.
    rewrite Nat.add_0_r in R0. rewrite R0. simpl.
    destruct (IH (fun k' H => Hl k' (or_intror H))
                {| asked := S (asked w);
                   tried := tried w ++ [(k, key, dec)] |}) as [w' [E [A T]]].
    + intros j Hj. simpl. replace (S (asked w + j)) with (asked w + S j)%nat
        by lia. apply Hrej. simpl. lia.
    + exists w'. split; [exact E|]. simpl in A. split; [lia|].
      rewrite T, tried_lengths_snoc, <- app_assoc. reflexivity.
Qed.

(** The first acceptance is at question [n]: the lengths up to that one are
    tried, once and in order, and the pair of that attempt is returned. *)
Lemma ranked_loop_accepts (l : list Z) :
  (forall k, In k l -> 1 <= k) ->
  forall n w,
  (n < length l)%nat ->
  (forall j, (j < n)%nat -> says_yes (stdin (asked w + j)) = false) ->
  says_yes (stdin (asked w + n)) = true ->
  exists key decrypted w',
    attempt cleaned ciphertext (nth n l 0) = Ok (key, decrypted) /\
    ranked_loop stdin cleaned ciphertext l w
    = Ok (Some (key, decrypted), w') /\
    asked w' = (asked w + S n)%nat /\
    tried_lengths w' = tried_lengths w ++ firstn (S n) l.
Proof.
  induction l as [|k l IH]; intros Hl n w Hn Hrej Hacc; simpl in Hn; [lia|].
  destruct (try_length_ok k w (Hl k (or_introl eq_refl)))
    as [key [dec [Ea Et]]].
  destruct n as [|n].
  - rewrite Nat.add_0_r in Hacc. exists key, dec. eexists.
    split; [exact Ea|]. simpl. rewrite Et, Hacc. simpl.
    split; [reflexivity|]. split; [simpl; lia|]. apply tried_lengths_snoc.
  - pose proof (Hrej O ltac:(lia)) as R0. rewrite Nat.add_0_r in R0.
    destruct (IH (fun k' H => Hl k' (or_intror H)) n
                {| asked := S (asked w);
                   tried := tried w ++ [(k, key, dec)] |})
      as [key' [dec' [w' [Ea' [E [A T]]]]]].
    + lia.
    + intros j Hj. simpl. replace (S (asked w + j)) with (asked w + S j)%nat
        by lia. apply Hrej. lia.
    + simpl. replace (S (asked w + n)) with (asked w + S n)%nat by lia.
      exact Hacc.
    + exists key', dec', w'. split; [exact Ea'|].
      simpl ranked_loop. rewrite Et, R0. simpl. split; [exact E|].
      simpl in A. split; [lia|].
      rewrite T, tried_lengths_snoc, <- app_assoc. reflexivity.
Qed.

End OrchestratorFacts.

(** The whole run is one loop over the schedule. *)
Lemma crack_vigenere_as_loop (set_iter : list Z -> list Z)
  (stdin : nat -> str) (ciphertext : str) :
  crack_vigenere set_iter stdin ciphertext =
  ranked_loop stdin (clean_text ciphertext) ciphertext
    (schedule (kasiski_examination set_iter (clean_text ciphertext) 15))
    console0.
Proof.
  unfold crack_vigenere, schedule. cbv zeta.
  rewrite ranked_loop_app.
  destruct (ranked_loop stdin (clean_text ciphertext) ciphertext
              (kasiski_examination set_iter (clean_text ciphertext) 15)
              console0) as [[[kd|] w]|e]; unfold bind; cbn [fst snd];
    try reflexivity.
  apply manual_loop_filter.
Qed.

(** Every scheduled length is at least 2, and none is scheduled twice. *)
Lemma schedule_lengths (set_iter : list Z -> list Z) (text : str) :
  set_laws set_iter ->
  let lengths := schedule (kasiski_examination set_iter text 15) in
  NoDup lengths /\ forall k, In k lengths -> 2 <= k <= 15.
Proof.
  intros laws. cbv zeta. unfold schedule.
  destruct (kasiski_ranking set_iter laws 15 (distances text))
    as [_ [ND [D _]]].
  fold (kasiski_examination set_iter text 15) in ND, D.
  split.
  - apply NoDup_app; [exact ND | apply NoDup_filter, NoDup_range |].
    intros k Hk Hf. apply filter_In in Hf. destruct Hf as [_ Hf].
    apply negb_true_iff, mem_false_iff in Hf. contradiction.
  - intros k Hk. apply in_app_or in Hk. destruct Hk as [Hk|Hk].
    + now apply D.
    + apply filter_In in Hk. destruct Hk as [Hk _]. apply In_range in Hk.
      lia.
Qed.

(** C9.  Orchestrator termination and NotFound: the schedule is the ranked
    Kasiski candidates followed by the lengths of 5..15 not among them, in
    ascending order, each length once.  When every answer is a rejection,
    [crack_vigenere] returns, having asked once for each length of the
    schedule, in that order, and its result is NotFound ([None]).  When the
    first acceptance is the answer to question [n], the run stops there and
    returns the key and the decrypted text of the attempt at length number
    [n] of the schedule.  [set_iter] is any iteration order of a set, and
    [stdin k] is the answer typed at question [k]. *)
Theorem crack_vigenere_schedule (set_iter : list Z -> list Z)
  (stdin : nat -> str) (ciphertext : str) :
  set_laws set_iter ->
  let cleaned := clean_text ciphertext in
  let lengths := schedule (kasiski_examination set_iter cleaned 15) in
  NoDup lengths /\
  ((forall k, says_yes (stdin k) = false) ->
   exists w,
     crack_vigenere set_iter stdin ciphertext = Ok (None, w) /\
     asked w = length lengths /\
     tried_lengths w = lengths) /\
  (forall n,
     (n < length lengths)%nat ->
     (forall k, (k < n)%nat -> says_yes (stdin k) = false) ->
     says_yes (stdin n) = true ->
     exists key decrypted w,
       attempt cleaned ciphertext (nth n lengths 0) = Ok (key, decrypted) /\
       crack_vigenere set_iter stdin ciphertext
       = Ok (Some (key, decrypted), w) /\
       asked w = S n /\
       tried_lengths w = firstn (S n) lengths).
Proof.
  intros laws cleaned lengths.
  destruct (schedule_lengths set_iter cleaned laws) as [ND B].
  fold lengths in ND, B.
  assert (B1 : forall k, In k lengths -> 1 <= k)
    by (intros k Hk; specialize (B k Hk); lia).
  rewrite crack_vigenere_as_loop. fold cleaned. fold lengths.
  split; [exact ND|]. split.
  - intros Hrej.
    destruct (ranked_loop_rejects stdin cleaned ciphertext lengths B1
                console0 (fun j _ => Hrej _)) as [w [E [A T]]].
    exists w. auto.
  - intros n Hn Hrej Hacc.
    destruct (ranked_loop_accepts stdin cleaned ciphertext lengths B1
                n console0 Hn Hrej Hacc) as [key [dec [w [Ea [E [A T]]]]]].
    exists key, dec, w. auto.
Qed.

Lemma crack_vigenere_schedule_witness :
  set_laws dedup /\
  let stdin := fun _ : nat => lit "n" in
  let ciphertext := lit "Lxfopv ef rnhr" in
  let cleaned := clean_text ciphertext in
  let lengths := schedule (kasiski_examination dedup cleaned 15) in
  NoDup lengths /\
  ((forall k, says_yes (stdin k) = false) ->
   exists w,
     crack_vigenere dedup stdin ciphertext = Ok (None, w) /\
     asked w = length lengths /\
     tried_lengths w = lengths) /\
  (forall n,
     (n < length lengths)%nat ->
     (forall k, (k < n)%nat -> says_yes (stdin k) = false) ->
     says_yes (stdin n) = true ->
     exists key decrypted w,
       attempt cleaned ciphertext (nth n lengths 0) = Ok (key, decrypted) /\
       crack_vigenere dedup stdin ciphertext
       = Ok (Some (key, decrypted), w) /\
       asked w = S n /\
       tried_lengths w = firstn (S n) lengths).
Proof.
  split; [exact dedup_set_laws|].
  exact (crack_vigenere_schedule dedup (fun _ => lit "n")
           (lit "Lxfopv ef rnhr") dedup_set_laws).
Defined.

(** ** Worked examples *)

Example decrypt_lemon :
  decrypt_vigenere (lit "Lxfopvefrnhr") (lit "lemon")
  = Ok (lit "Attackatdawn").
Proof. vm_compute. reflexivity. Qed.

Example decrypt_keeps_format :
  decrypt_vigenere (lit "Lxfopv ef rnhr, 12:30!") (lit "lemon")
  = Ok (lit "Attack at dawn, 12:30!").
Proof. vm_compute. reflexivity. Qed.

Example cosets_of_eight :
  get_cosets (lit "abcdefgh") 3 = Ok [lit "adg"; lit "beh"; lit "cf"].
Proof. vm_compute. reflexivity. Qed.

Example scorer_tie_smallest_shift :
  frequency_analysis (lit "xxxyz") = 5 /\
  alignment_score (lit "xxxyz") 5 = 99 /\
  alignment_score (lit "xxxyz") 19 = 99.
Proof. repeat split; vm_compute; reflexivity. Qed.

(** The order of iteration of the set shows in the ranking of tied
    candidates: the factors 3 and 9 of the distance 9 have one vote each. *)
Example kasiski_order_of_ties :
  kasiski_examination dedup (lit "abcdefghiabc") 15 = [3; 9] /\
  kasiski_examination (fun l => rev (dedup l)) (lit "abcdefghiabc") 15
  = [9; 3].
Proof. split; vm_compute; reflexivity. Qed.

Example crack_all_rejected :
  (r <- crack_vigenere dedup (fun _ => lit "n") (lit "Lxfopv ef rnhr") ;;
   Ok (fst r, tried_lengths (snd r)))
  = Ok (None, [5; 6; 7; 8; 9; 10; 11; 12; 13; 14; 15]).
Proof. vm_compute. reflexivity. Qed.

Example crack_second_accepted :
  (r <- crack_vigenere dedup
          (fun k => if (k =? 1)%nat then lit "Y" else lit "no")
          (lit "Lxfopv ef rnhr") ;;
   Ok (fst r, tried_lengths (snd r)))
  = Ok (Some (lit "lxrvhr", lit "Aaotie ti asaa"), [5; 6]).
Proof. vm_compute. reflexivity. Qed.

(* ================================================================== *)
(** * Part 3. Further properties of the code *)
(* ================================================================== *)

(** ** [clean_text] *)

Lemma char_lower_letter (c : Z) :
  is_ascii_letter c = true ->
  char_lower c = [if c <=? 90 then c + 32 else c].
Proof.
  rewrite is_ascii_letter_cases, orb_true_iff, is_lower_letter_iff,
    is_upper_letter_iff.
  intros [H|H].
  - rewrite char_lower_of_lower by assumption.
    replace (c <=? 90) with false by zbool. reflexivity.
  - unfold char_lower. replace ((65 <=? c) && (c <=? 90)) with true by zbool.
    replace (c <=? 90) with true by zbool. reflexivity.
Qed.

Lemma clean_text_cons (c : Z) (s : str) :
  clean_text (c :: s) =
  if is_ascii_letter c
  then (if c <=? 90 then c + 32 else c) :: clean_text s
  else clean_text s.
Proof.
  unfold clean_text, str_lower. simpl filter.
  destruct (is_ascii_letter c) eqn:L; [|reflexivity].
  cbn [flat_map]. now rewrite char_lower_letter.
Qed.

Lemma clean_text_nil : clean_text [] = [].
Proof. reflexivity. Qed.

Lemma lowered_letter_bounds (c : Z) :
  is_ascii_letter c = true ->
  97 <= (if c <=? 90 then c + 32 else c) <= 122.
Proof.
  rewrite is_ascii_letter_cases, orb_true_iff, is_lower_letter_iff,
    is_upper_letter_iff.
  intros [H|H]; destruct (Z.leb_spec c 90); lia.
Qed.

Lemma clean_text_lowercase_all (s : str) : lowercase (clean_text s).
Proof.
  unfold lowercase. induction s as [|c s IH].
  - constructor.
  - rewrite clean_text_cons. destruct (is_ascii_letter c) eqn:L; [|exact IH].
    constructor; [now apply lowered_letter_bounds | exact IH].
Qed.

Lemma clean_text_fixes_lowercase (s : str) : lowercase s -> clean_text s = s.
Proof.
  unfold lowercase. induction 1 as [|c s Hc _ IH]; [reflexivity|].
  rewrite clean_text_cons, IH.
  replace (is_ascii_letter c) with true
    by (unfold is_ascii_letter; zbool).
  replace (c <=? 90) with false by zbool. reflexivity.
Qed.

(** X1.  [clean_text] returns lowercase ASCII letters only: every character
    of the result is one of ['a'..'z'], whatever the input holds. *)
Theorem clean_text_only_lowercase (ciphertext : str) (c : Z) :
  In c (clean_text ciphertext) -> 97 <= c <= 122.
Proof.
  intros H. pose proof (clean_text_lowercase_all ciphertext) as F.
  unfold lowercase in F. rewrite Forall_forall in F. now apply F.
Qed.

Lemma clean_text_only_lowercase_witness :
  In 107 (clean_text (lit "Ok, 42!")) /\ 97 <= 107 <= 122.
Proof.
  assert (H : In 107 (clean_text (lit "Ok, 42!")))
    by (vm_compute; tauto).
  split; [exact H|].
  exact (clean_text_only_lowercase (lit "Ok, 42!") 107 H).
Defined.

(** X2.  [clean_text] is idempotent: cleaning a cleaned text changes
    nothing. *)
Theorem clean_text_idempotent (ciphertext : str) :
  clean_text (clean_text ciphertext) = clean_text ciphertext.
Proof. apply clean_text_fixes_lowercase, clean_text_lowercase_all. Qed.

(** X3.  [clean_text] works character by character and keeps the order:
    the cleaning of a concatenation is the concatenation of the cleanings,
    and the result has one character for each ASCII letter of the input, so
    it is never longer than the input. *)
Theorem clean_text_concat (a b : str) :
  clean_text (a ++ b) = clean_text a ++ clean_text b /\
  length (clean_text a) = length (filter is_ascii_letter a) /\
  (length (clean_text a) <= length a)%nat.
Proof.
  split; [|split].
  - induction a as [|c a IH]; [reflexivity|].
    rewrite <- app_comm_cons, !clean_text_cons, IH.
    destruct (is_ascii_letter c); reflexivity.
  - induction a as [|c a IH]; [reflexivity|].
    rewrite clean_text_cons. simpl filter.
    destruct (is_ascii_letter c); simpl; now rewrite IH.
  - induction a as [|c a IH]; [simpl; lia|].
    rewrite clean_text_cons. destruct (is_ascii_letter c); simpl; lia.
Qed.

(** X4.  The characters for which [decrypt_vigenere] draws a key character
    are the letters that [clean_text] keeps, and the Kelvin signs, which
    [clean_text] drops: their number is the length of the cleaned text plus
    the number of Kelvin signs.  On a text without Kelvin sign the key
    positions used in decryption are those of the cleaned text on which the
    key was estimated. *)
Theorem key_uses_clean_text (text : str) :
  key_uses text = (length (clean_text text) + kelvin_count text)%nat.
Proof.
  unfold kelvin_count. induction text as [|c text IH]; [reflexivity|].
  rewrite key_uses_cons, clean_text_cons, IH, takes_key_spec.
  cbn [count_occ].
  destruct (is_ascii_letter c) eqn:L.
  - assert (c <> KELVIN_SIGN) by (intros ->; discriminate L).
    destruct (Z.eq_dec c KELVIN_SIGN); [contradiction|]. simpl. lia.
  - simpl. destruct (Z.eqb_spec c KELVIN_SIGN) as [->|N].
    + destruct (Z.eq_dec KELVIN_SIGN KELVIN_SIGN); [lia | contradiction].
    + destruct (Z.eq_dec c KELVIN_SIGN); [contradiction | lia].
Qed.

(** ** [decrypt_vigenere] and [clean_text] *)

Lemma decrypt_loop_cons_key (key : str) (n : nat) (c d : Z) (rest : str) :
  key <> [] -> takes_key c = true ->
  decrypt_char c (nth (n mod length key) key 0) = Ok d ->
  decrypt_loop key n (c :: rest) =
  (out <- decrypt_loop key (S n) rest ;; Ok (d :: out)).
Proof.
  intros Hk T E. cbn [decrypt_loop]. rewrite T, cycle_next_ok by assumption.
  unfold bind at 1. rewrite E. reflexivity.
Qed.

Lemma decrypt_loop_cons_copy (key : str) (n : nat) (c : Z) (rest : str) :
  takes_key c = false ->
  decrypt_loop key n (c :: rest) =
  (out <- decrypt_loop key n rest ;; Ok (c :: out)).
Proof. intros T. cbn [decrypt_loop]. now rewrite T. Qed.

Lemma takes_key_lower (c : Z) : 97 <= c <= 122 -> takes_key c = true.
Proof. intros H. apply takes_key_true_iff. tauto. Qed.

Lemma takes_key_upper (c : Z) : 65 <= c <= 90 -> takes_key c = true.
Proof. intros H. apply takes_key_true_iff. tauto. Qed.

Lemma decrypt_clean_loop (key : str) :
  key <> [] ->
  forall text, ~ In KELVIN_SIGN text ->
  forall n, exists out,
    decrypt_loop key n text = Ok out /\
    decrypt_loop key n (clean_text text) = Ok (clean_text out).
Proof.
  intros Hk text. induction text as [|c rest IH]; intros NK n.
  - exists []. split; reflexivity.
  - assert (NK' : ~ In KELVIN_SIGN rest) by (intros H; apply NK; now right).
    assert (Hc : c <> KELVIN_SIGN) by (intros ->; apply NK; now left).
    rewrite clean_text_cons.
    set (kc := nth (n mod length key) key 0).
    destruct (is_ascii_letter c) eqn:L.
    + destruct (IH NK' (S n)) as [out [E1 E2]].
      pose proof L as L'.
      rewrite is_ascii_letter_cases, orb_true_iff, is_lower_letter_iff,
        is_upper_letter_iff in L'.
      destruct L' as [Lo|Up].
      * replace (c <=? 90) with false by zbool.
        pose proof (Z.mod_pos_bound (c - 97 - (kc - 97)) 26 ltac:(lia)) as B.
        exists ((((c - 97 - (kc - 97)) mod 26) + 97) :: out).
        rewrite !(decrypt_loop_cons_key key n c _ _ Hk (takes_key_lower c Lo)
                    (decrypt_char_lower c kc Lo)).
        rewrite E1, E2. split; [reflexivity|].
        rewrite clean_text_cons.
        replace (is_ascii_letter ((c - 97 - (kc - 97)) mod 26 + 97))
          with true by (unfold is_ascii_letter; zbool).
        replace ((c - 97 - (kc - 97)) mod 26 + 97 <=? 90) with false
          by zbool.
        reflexivity.
      * replace (c <=? 90) with true by zbool.
        pose proof (Z.mod_pos_bound (c - 65 - (kc - 97)) 26 ltac:(lia)) as B.
        exists ((((c - 65 - (kc - 97)) mod 26) + 65) :: out).
        rewrite (decrypt_loop_cons_key key n c _ _ Hk (takes_key_upper c Up)
                   (decrypt_char_upper c kc Up)).
        assert (Lo : 97 <= c + 32 <= 122) by lia.
        rewrite (decrypt_loop_cons_key key n (c + 32) _ _ Hk
                   (takes_key_lower _ Lo) (decrypt_char_lower _ kc Lo)).
        rewrite E1, E2. split; [reflexivity|].
        rewrite clean_text_cons.
        replace (is_ascii_letter ((c - 65 - (kc - 97)) mod 26 + 65))
          with true by (unfold is_ascii_letter; zbool).
        replace ((c - 65 - (kc - 97)) mod 26 + 65 <=? 90) with true
          by zbool.
        unfold bind. do 2 f_equal.
        replace (c + 32 - 97 - (kc - 97)) with (c - 65 - (kc - 97)) by lia.
        lia.
    + destruct (IH NK' n) as [out [E1 E2]].
      exists (c :: out).
      assert (T : takes_key c = false).
      { rewrite takes_key_spec, L. simpl. now apply Z.eqb_neq. }
      rewrite (decrypt_loop_cons_copy key n c rest T), E1.
      split; [reflexivity|].
      rewrite clean_text_cons, L. exact E2.
Qed.

(** X5.  Cleaning commutes with decryption: for a non-empty key and a text
    without Kelvin sign, decrypting the cleaned text gives the cleaning of
    the decrypted text.  The letters of the decryption of the raw
    ciphertext are therefore the decryption of the cleaned text on which
    the key was estimated, in the same order. *)
Theorem decrypt_commutes_with_clean (text key : str) :
  key <> [] -> ~ In KELVIN_SIGN text ->
  exists out,
    decrypt_vigenere text key = Ok out /\
    decrypt_vigenere (clean_text text) key = Ok (clean_text out).
Proof.
  intros Hk NK. unfold decrypt_vigenere.
  apply decrypt_clean_loop; [now apply str_lower_nonempty | assumption].
Qed.

Lemma decrypt_commutes_with_clean_witness :
  lit "lemon" <> [] /\ ~ In KELVIN_SIGN (lit "Lxfopv ef rnhr!") /\
  exists out,
    decrypt_vigenere (lit "Lxfopv ef rnhr!") (lit "lemon") = Ok out /\
    decrypt_vigenere (clean_text (lit "Lxfopv ef rnhr!")) (lit "lemon")
    = Ok (clean_text out).
Proof.
  assert (Hk : lit "lemon" <> []) by discriminate.
  assert (NK : ~ In KELVIN_SIGN (lit "Lxfopv ef rnhr!"))
    by (vm_compute; intuition discriminate).
  split; [exact Hk|]. split; [exact NK|].
  exact (decrypt_commutes_with_clean (lit "Lxfopv ef rnhr!") (lit "lemon")
           Hk NK).
Defined.

(** ** [decrypt_vigenere]: what the result owes to the key *)

Lemma sub_mod_congr (x a b : Z) :
  (a - b) mod 26 = 0 -> (x - a) mod 26 = (x - b) mod 26.
Proof.
  intros H. apply Z.mod_divide in H; [|lia]. destruct H as [q Hq].
  replace (x - a) with (x - b + (- q) * 26) by lia.
  apply Z_mod_plus_full.
Qed.

(** Key characters with the same shift modulo 26 decrypt alike. *)
Lemma decrypt_char_congr (c k1 k2 : Z) :
  takes_key c = true -> (k1 - k2) mod 26 = 0 ->
  decrypt_char c k1 = decrypt_char c k2.
Proof.
  intros T H. apply takes_key_true_iff in T.
  assert (E : forall x, (x - (k1 - 97)) mod 26 = (x - (k2 - 97)) mod 26).
  { intros x. apply sub_mod_congr.
    replace (k1 - 97 - (k2 - 97)) with (k1 - k2) by lia. exact H. }
  destruct T as [T|[T| ->]].
  - rewrite !decrypt_char_lower by assumption. now rewrite E.
  - rewrite !decrypt_char_upper by assumption. now rewrite E.
  - rewrite !decrypt_char_kelvin. now rewrite E.
Qed.

(** Two keys whose cycles give, call after call, the same shift modulo 26
    decrypt every text alike. *)
Lemma decrypt_loop_key_ext (key1 key2 : str) :
  key1 <> [] -> key2 <> [] ->
  (forall m, (nth (m mod length key1) key1 0
              - nth (m mod length key2) key2 0) mod 26 = 0) ->
  forall text n, decrypt_loop key1 n text = decrypt_loop key2 n text.
Proof.
  intros H1 H2 H text. induction text as [|c rest IH]; intros n;
    [reflexivity|].
  cbn [decrypt_loop]. destruct (takes_key c) eqn:T.
  - rewrite !cycle_next_ok by assumption. unfold bind at 1 4.
    rewrite (decrypt_char_congr c _ _ T (H n)), IH. reflexivity.
  - now rewrite IH.
Qed.

Lemma str_lower_app (a b : str) :
  str_lower (a ++ b) = str_lower a ++ str_lower b.
Proof. unfold str_lower. apply flat_map_app. Qed.

Lemma char_upper_lower (c : Z) :
  97 <= c <= 122 -> char_lower (char_upper c) = [c].
Proof.
  intros H. unfold char_upper.
  replace ((97 <=? c) && (c <=? 122)) with true by zbool.
  unfold char_lower. replace ((65 <=? c - 32) && (c - 32 <=? 90)) with true
    by zbool.
  f_equal. lia.
Qed.

(** X6.  The key is used in lowercase: a key of lowercase letters and the
    same key in capitals decrypt every text to the same result. *)
Theorem decrypt_key_case (text key : str) :
  lowercase key ->
  decrypt_vigenere text (key_upper key) = decrypt_vigenere text key.
Proof.
  intros H. unfold decrypt_vigenere. f_equal.
  rewrite (str_lower_lowercase key H). unfold key_upper, str_lower.
  unfold lowercase in H. induction H as [|c key Hc _ IH]; [reflexivity|].
  cbn [map flat_map]. rewrite IH, char_upper_lower by assumption.
  reflexivity.
Qed.

Lemma decrypt_key_case_witness :
  lowercase (lit "lemon") /\
  decrypt_vigenere (lit "Lxfopv ef rnhr") (key_upper (lit "lemon"))
  = decrypt_vigenere (lit "Lxfopv ef rnhr") (lit "lemon").
Proof.
  assert (H : lowercase (lit "lemon"))
    by (unfold lowercase; repeat constructor; vm_compute; discriminate).
  split; [exact H|].
  exact (decrypt_key_case (lit "Lxfopv ef rnhr") (lit "lemon") H).
Defined.

Lemma nth_concat_repeat (key : str) (m i : nat) :
  (i < m * length key)%nat ->
  nth i (concat (repeat key m)) 0 = nth (i mod length key) key 0.
Proof.
  revert i. induction m as [|m IH]; intros i Hi; [simpl in Hi; lia|].
  cbn [repeat concat].
  assert (L : (0 < length key)%nat) by (destruct (length key); simpl in *; lia).
  destruct (Nat.lt_ge_cases i (length key)) as [Lt|Ge].
  - rewrite app_nth1 by assumption. now rewrite Nat.mod_small.
  - rewrite app_nth2 by assumption. rewrite IH by (simpl in Hi; lia).
    f_equal.
    replace i with ((i - length key) + 1 * length key)%nat at 2 by lia.
    now rewrite Nat.Div0.mod_add.
Qed.

Lemma length_concat_repeat (key : str) (m : nat) :
  length (concat (repeat key m)) = (m * length key)%nat.
Proof.
  induction m as [|m IH]; [reflexivity|].
  cbn [repeat concat]. rewrite length_app, IH. simpl. lia.
Qed.

Lemma str_lower_concat_repeat (key : str) (m : nat) :
  str_lower (concat (repeat key m)) = concat (repeat (str_lower key) m).
Proof.
  induction m as [|m IH]; [reflexivity|].
  cbn [repeat concat]. now rewrite str_lower_app, IH.
Qed.

(** X7.  Only the cycle of the key matters: an ASCII key written [m >= 1]
    times in a row decrypts every text as the key itself does. *)
Theorem decrypt_key_repeated (text key : str) (m : nat) :
  ascii_only key -> (1 <= m)%nat ->
  decrypt_vigenere text (concat (repeat key m)) = decrypt_vigenere text key.
Proof.
  intros _ Hm. unfold decrypt_vigenere. rewrite str_lower_concat_repeat.
  generalize (str_lower key). clear key. intros k.
  destruct k as [|c k'].
  - assert (E : forall j, concat (repeat ([] : str) j) = []).
    { intros j. induction j as [|j IH]; [reflexivity | exact IH]. }
    now rewrite E.
  - set (k := c :: k'). assert (Hk : k <> []) by discriminate.
    assert (L : (0 < length k)%nat) by (simpl; lia).
    apply decrypt_loop_key_ext; [|exact Hk|].
    + intros E. pose proof (length_concat_repeat k m) as Len.
      rewrite E in Len. simpl length in Len at 1. nia.
    + intros i. rewrite length_concat_repeat.
      rewrite nth_concat_repeat by (apply Nat.mod_upper_bound; nia).
      rewrite (Nat.mul_comm m), Nat.Div0.mod_mul_r.
      rewrite (Nat.mul_comm (length k)), Nat.Div0.mod_add,
        Nat.Div0.mod_mod.
      now rewrite Z.sub_diag.
Qed.

Lemma decrypt_key_repeated_witness :
  ascii_only (lit "Lemon") /\ (1 <= 3)%nat /\
  decrypt_vigenere (lit "Lxfopv ef rnhr") (concat (repeat (lit "Lemon") 3))
  = decrypt_vigenere (lit "Lxfopv ef rnhr") (lit "Lemon").
Proof.
  assert (A : ascii_only (lit "Lemon"))
    by (unfold ascii_only; repeat constructor; vm_compute; discriminate).
  split; [exact A|]. split; [lia|].
  exact (decrypt_key_repeated (lit "Lxfopv ef rnhr") (lit "Lemon") 3 A
           ltac:(lia)).
Defined.

(** ** [decrypt_vigenere]: composition and inverse *)

Lemma two_shifts (x s1 s2 : Z) :
  ((x - s1) mod 26 - s2) mod 26 = (x - (s1 + s2) mod 26) mod 26.
Proof.
  rewrite Zminus_mod_idemp_l, Zminus_mod_idemp_r. f_equal. lia.
Qed.

(** Decrypting a character under [a] and the result under [b] is decrypting
    it under the key character that adds the two shifts. *)
Lemma decrypt_char_twice (c a b : Z) :
  takes_key c = true ->
  exists m d,
    decrypt_char c a = Ok m /\ takes_key m = true /\
    decrypt_char m b = Ok d /\
    decrypt_char c ((((a - 97) + (b - 97)) mod 26) + 97) = Ok d.
Proof.
  intros T. apply takes_key_true_iff in T.
  set (k := (((a - 97) + (b - 97)) mod 26) + 97).
  assert (Ek : k - 97 = ((a - 97) + (b - 97)) mod 26) by (unfold k; lia).
  destruct T as [T|[T| ->]].
  - pose proof (Z.mod_pos_bound (c - 97 - (a - 97)) 26 ltac:(lia)) as B.
    assert (Lm : 97 <= (c - 97 - (a - 97)) mod 26 + 97 <= 122) by lia.
    eexists _, _. rewrite !decrypt_char_lower by assumption.
    split; [reflexivity|]. split; [now apply takes_key_lower|].
    rewrite decrypt_char_lower by assumption. split; [reflexivity|].
    rewrite (decrypt_char_lower c k) by assumption.
    do 2 f_equal. rewrite Ek.
    replace ((c - 97 - (a - 97)) mod 26 + 97 - 97 - (b - 97))
      with ((c - 97 - (a - 97)) mod 26 - (b - 97)) by lia.
    symmetry. apply two_shifts.
  - pose proof (Z.mod_pos_bound (c - 65 - (a - 97)) 26 ltac:(lia)) as B.
    assert (Lm : 65 <= (c - 65 - (a - 97)) mod 26 + 65 <= 90) by lia.
    eexists _, _. rewrite !decrypt_char_upper by assumption.
    split; [reflexivity|]. split; [now apply takes_key_upper|].
    rewrite decrypt_char_upper by assumption. split; [reflexivity|].
    rewrite (decrypt_char_upper c k) by assumption.
    do 2 f_equal. rewrite Ek.
    replace ((c - 65 - (a - 97)) mod 26 + 65 - 65 - (b - 97))
      with ((c - 65 - (a - 97)) mod 26 - (b - 97)) by lia.
    symmetry. apply two_shifts.
  - pose proof (Z.mod_pos_bound (10 - (a - 97)) 26 ltac:(lia)) as B.
    assert (Lm : 65 <= (10 - (a - 97)) mod 26 + 65 <= 90) by lia.
    exists ((10 - (a - 97)) mod 26 + 65),
      (((10 - (a - 97)) mod 26 + 65 - 65 - (b - 97)) mod 26 + 65).
    rewrite (decrypt_char_kelvin a).
    split; [reflexivity|]. split; [now apply takes_key_upper|].
    rewrite decrypt_char_upper by assumption. split; [reflexivity|].
    rewrite (decrypt_char_kelvin k).
    do 2 f_equal. rewrite Ek.
    replace ((10 - (a - 97)) mod 26 + 65 - 65 - (b - 97))
      with ((10 - (a - 97)) mod 26 - (b - 97)) by lia.
    symmetry. apply two_shifts.
Qed.

Lemma combine_keys_length (k1 k2 : str) :
  length k2 = length k1 -> length (combine_keys k1 k2) = length k1.
Proof.
  intros H. unfold combine_keys. rewrite length_map, length_combine. lia.
Qed.

Lemma combine_keys_nth (k1 k2 : str) (i : nat) :
  length k2 = length k1 -> (i < length k1)%nat ->
  nth i (combine_keys k1 k2) 0 =
  (((nth i k1 0 - 97) + (nth i k2 0 - 97)) mod 26) + 97.
Proof.
  intros H Hi. unfold combine_keys.
  set (f := fun p : Z * Z => (((fst p - 97) + (snd p - 97)) mod 26) + 97).
  rewrite (nth_indep _ 0 (f (0, 0)))
    by (rewrite length_map, length_combine; lia).
  rewrite (map_nth f), combine_nth by (symmetry; exact H). reflexivity.
Qed.

Lemma combine_keys_lowercase (k1 k2 : str) : lowercase (combine_keys k1 k2).
Proof.
  unfold lowercase, combine_keys. apply Forall_forall. intros x Hx.
  apply in_map_iff in Hx. destruct Hx as [p [<- _]].
  pose proof (Z.mod_pos_bound ((fst p - 97) + (snd p - 97)) 26 ltac:(lia)).
  lia.
Qed.

Lemma decrypt_compose_loop (k1 k2 : str) :
  k1 <> [] -> length k2 = length k1 ->
  forall text n, exists mid out,
    decrypt_loop k1 n text = Ok mid /\
    decrypt_loop k2 n mid = Ok out /\
    decrypt_loop (combine_keys k1 k2) n text = Ok out.
Proof.
  intros H1 HL.
  assert (H2 : k2 <> []) by (destruct k1, k2; simpl in *; congruence).
  assert (H3 : combine_keys k1 k2 <> []).
  { pose proof (combine_keys_length k1 k2 HL) as E.
    destruct k1; [congruence|]. destruct (combine_keys (z :: k1) k2);
      [simpl in E; lia | discriminate]. }
  assert (Lp : (0 < length k1)%nat) by (destruct k1; simpl; [congruence|lia]).
  intros text. induction text as [|c rest IH]; intros n.
  - exists [], []. repeat split.
  - destruct (takes_key c) eqn:T.
    + destruct (decrypt_char_twice c (nth (n mod length k1) k1 0)
                  (nth (n mod length k1) k2 0) T) as [m [d [E1 [Tm [E2 E3]]]]].
      destruct (IH (S n)) as [mid [out [F1 [F2 F3]]]].
      exists (m :: mid), (d :: out).
      rewrite (decrypt_loop_cons_key k1 n c m rest H1 T E1), F1.
      rewrite (decrypt_loop_cons_key k2 n m d mid H2 Tm)
        by (rewrite HL; exact E2).
      rewrite F2.
      rewrite (decrypt_loop_cons_key _ n c d rest H3 T), F3; [repeat split|].
      rewrite combine_keys_length, combine_keys_nth
        by (try assumption; apply Nat.mod_upper_bound; lia).
      exact E3.
    + destruct (IH n) as [mid [out [F1 [F2 F3]]]].
      exists (c :: mid), (c :: out).
      rewrite !(decrypt_loop_cons_copy _ n c _ T), F1, F2, F3.
      repeat split.
Qed.

(** X8.  Decryptions compose: decrypting with a key and then with a second
    key of the same length is decrypting once with the key that adds their
    shifts position by position (modulo 26). *)
Theorem decrypt_compose (text k1 k2 : str) :
  lowercase k1 -> lowercase k2 -> k1 <> [] -> length k2 = length k1 ->
  exists mid out,
    decrypt_vigenere text k1 = Ok mid /\
    decrypt_vigenere mid k2 = Ok out /\
    decrypt_vigenere text (combine_keys k1 k2) = Ok out.
Proof.
  intros L1 L2 H1 HL. unfold decrypt_vigenere.
  rewrite (str_lower_lowercase k1 L1), (str_lower_lowercase k2 L2),
    (str_lower_lowercase _ (combine_keys_lowercase k1 k2)).
  now apply decrypt_compose_loop.
Qed.

Lemma lowercase_lit_check (s : str) :
  forallb (fun c => (97 <=? c) && (c <=? 122)) s = true -> lowercase s.
Proof.
  intros H. unfold lowercase. apply Forall_forall. intros c Hc.
  rewrite forallb_forall in H. specialize (H c Hc).
  apply andb_true_iff in H. destruct H as [A B].
  apply Z.leb_le in A, B. lia.
Qed.

Lemma decrypt_compose_witness :
  lowercase (lit "lemon") /\ lowercase (lit "abcde") /\
  lit "lemon" <> [] /\ length (lit "abcde") = length (lit "lemon") /\
  exists mid out,
    decrypt_vigenere (lit "Lxfopv ef rnhr") (lit "lemon") = Ok mid /\
    decrypt_vigenere mid (lit "abcde") = Ok out /\
    decrypt_vigenere (lit "Lxfopv ef rnhr")
      (combine_keys (lit "lemon") (lit "abcde")) = Ok out.
Proof.
  assert (L1 : lowercase (lit "lemon"))
    by (apply lowercase_lit_check; reflexivity).
  assert (L2 : lowercase (lit "abcde"))
    by (apply lowercase_lit_check; reflexivity).
  assert (H1 : lit "lemon" <> []) by discriminate.
  split; [exact L1|]. split; [exact L2|]. split; [exact H1|].
  split; [reflexivity|].
  exact (decrypt_compose (lit "Lxfopv ef rnhr") (lit "lemon") (lit "abcde")
           L1 L2 H1 eq_refl).
Defined.

Lemma complement_key_lowercase (key : str) : lowercase (complement_key key).
Proof.
  unfold lowercase, complement_key. apply Forall_forall. intros x Hx.
  apply in_map_iff in Hx. destruct Hx as [k [<- _]].
  pose proof (Z.mod_pos_bound (- (k - 97)) 26 ltac:(lia)). lia.
Qed.

Lemma complement_key_length (key : str) :
  length (complement_key key) = length key.
Proof. unfold complement_key. apply length_map. Qed.

(** The shifts of a key and of its complement cancel. *)
Lemma combine_complement (key : str) :
  combine_keys key (complement_key key) = repeat 97 (length key) /\
  combine_keys (complement_key key) key = repeat 97 (length key).
Proof.
  unfold combine_keys, complement_key.
  induction key as [|k key [IH1 IH2]]; [split; reflexivity|].
  cbn [map combine length repeat fst snd]. rewrite IH1, IH2.
  split; f_equal.
  - replace ((- (k - 97)) mod 26 + 97 - 97) with ((- (k - 97)) mod 26) by lia.
    rewrite Zplus_mod_idemp_r.
    replace (k - 97 + - (k - 97)) with 0 by lia. reflexivity.
  - replace ((- (k - 97)) mod 26 + 97 - 97) with ((- (k - 97)) mod 26) by lia.
    rewrite Zplus_mod_idemp_l.
    replace (- (k - 97) + (k - 97)) with 0 by lia. reflexivity.
Qed.

(** X9.  The complement key undoes the key: for a non-empty key of
    lowercase letters and a text without Kelvin sign, decrypting with the
    complement key encrypts (decrypting the result with the key gives the
    text back), and decrypting with the key is undone by decrypting with
    the complement key. *)
Theorem decrypt_complement_key (text key : str) :
  lowercase key -> key <> [] -> ~ In KELVIN_SIGN text ->
  exists enc dec,
    decrypt_vigenere text (complement_key key) = Ok enc /\
    decrypt_vigenere enc key = Ok text /\
    decrypt_vigenere text key = Ok dec /\
    decrypt_vigenere dec (complement_key key) = Ok text.
Proof.
  intros L Hk NK. unfold decrypt_vigenere.
  rewrite (str_lower_lowercase key L),
    (str_lower_lowercase _ (complement_key_lowercase key)).
  assert (Hc : complement_key key <> []).
  { pose proof (complement_key_length key) as E.
    destruct key; [congruence|].
    destruct (complement_key (z :: key)); [simpl in E; lia | discriminate]. }
  assert (Lp : (1 <= length key)%nat)
    by (destruct key; simpl; [congruence | lia]).
  destruct (combine_complement key) as [C1 C2].
  destruct (decrypt_compose_loop (complement_key key) key Hc
              (eq_sym (complement_key_length key)) text 0)
    as [enc [out1 [E1 [E2 E3]]]].
  destruct (decrypt_compose_loop key (complement_key key) Hk
              (complement_key_length key) text 0)
    as [dec [out2 [F1 [F2 F3]]]].
  rewrite C2 in E3.
  rewrite C1 in F3.
  rewrite (decrypt_loop_all_a _ text Lp NK 0) in E3, F3.
  exists enc, dec. repeat split; congruence.
Qed.

Lemma decrypt_complement_key_witness :
  lowercase (lit "lemon") /\ lit "lemon" <> [] /\
  ~ In KELVIN_SIGN (lit "Attack at dawn") /\
  exists enc dec,
    decrypt_vigenere (lit "Attack at dawn") (complement_key (lit "lemon"))
    = Ok enc /\
    decrypt_vigenere enc (lit "lemon") = Ok (lit "Attack at dawn") /\
    decrypt_vigenere (lit "Attack at dawn") (lit "lemon") = Ok dec /\
    decrypt_vigenere dec (complement_key (lit "lemon"))
    = Ok (lit "Attack at dawn").
Proof.
  assert (L : lowercase (lit "lemon"))
    by (apply lowercase_lit_check; reflexivity).
  assert (Hk : lit "lemon" <> []) by discriminate.
  assert (NK : ~ In KELVIN_SIGN (lit "Attack at dawn"))
    by (vm_compute; intuition discriminate).
  split; [exact L|]. split; [exact Hk|]. split; [exact NK|].
  exact (decrypt_complement_key (lit "Attack at dawn") (lit "lemon") L Hk NK).
Defined.

(** ** [decrypt_vigenere]: concatenation *)

Lemma key_uses_app (a b : str) :
  key_uses (a ++ b) = (key_uses a + key_uses b)%nat.
Proof. unfold key_uses. now rewrite filter_app, length_app. Qed.

(** The loop on a concatenation: the second part starts where the cycle
    stands after the first. *)
Lemma decrypt_loop_app (key : str) (a b : str) :
  forall n,
  decrypt_loop key n (a ++ b) =
  (x <- decrypt_loop key n a ;;
   y <- decrypt_loop key (n + key_uses a) b ;; Ok (x ++ y)).
Proof.
  induction a as [|c a IH]; intros n.
  - cbn [app decrypt_loop]. unfold key_uses. cbn [filter length].
    rewrite Nat.add_0_r. unfold bind at 1.
    destruct (decrypt_loop key n b); reflexivity.
  - rewrite <- app_comm_cons. cbn [decrypt_loop].
    rewrite key_uses_cons. destruct (takes_key c).
    + destruct (cycle_next key n) as [kc|e]; [|reflexivity].
      unfold bind at 1 5. destruct (decrypt_char c kc) as [d|e];
        [|reflexivity].
      unfold bind at 1 4. rewrite IH.
      replace (n + (1 + key_uses a))%nat with (S n + key_uses a)%nat by lia.
      destruct (decrypt_loop key (S n) a) as [x|e]; [|reflexivity].
      unfold bind at 2 4.
      destruct (decrypt_loop key (S n + key_uses a) b); reflexivity.
    + rewrite IH. cbn [Nat.add].
      destruct (decrypt_loop key n a) as [x|e]; [|reflexivity].
      unfold bind at 2 4.
      destruct (decrypt_loop key (n + key_uses a) b); reflexivity.
Qed.

Lemma rotate_key_length (m : nat) (key : str) :
  length (rotate_key m key) = length key.
Proof.
  unfold rotate_key. rewrite length_app, length_skipn, length_firstn.
  destruct key as [|k key]; [simpl; lia|].
  pose proof (Nat.mod_upper_bound m (length (k :: key)) ltac:(discriminate)).
  lia.
Qed.

Lemma rotate_key_nth (m j : nat) (key : str) :
  key <> [] ->
  nth (j mod length key) (rotate_key m key) 0 =
  nth ((m + j) mod length key) key 0.
Proof.
  intros Hk. assert (L : length key <> O) by (destruct key; [congruence |
    discriminate]).
  unfold rotate_key.
  pose proof (Nat.mod_upper_bound m (length key) L) as Br.
  pose proof (Nat.mod_upper_bound j (length key) L) as Bi.
  rewrite (Nat.Div0.add_mod m j).
  set (r := (m mod length key)%nat) in *.
  set (i := (j mod length key)%nat) in *.
  destruct (Nat.lt_ge_cases (r + i) (length key)) as [Lt|Ge].
  - rewrite app_nth1 by (rewrite length_skipn; lia).
    rewrite nth_skipn. now rewrite Nat.mod_small.
  - rewrite app_nth2 by (rewrite length_skipn; lia).
    rewrite length_skipn, nth_firstn.
    replace (i - (length key - r) <? r)%nat with true
      by (symmetry; apply Nat.ltb_lt; lia).
    f_equal.
    replace (r + i)%nat with ((r + i - length key) + 1 * length key)%nat
      by lia.
    rewrite Nat.Div0.mod_add, Nat.mod_small; lia.
Qed.

Lemma decrypt_loop_rotate (key : str) (m : nat) :
  key <> [] ->
  forall text j,
  decrypt_loop (rotate_key m key) j text = decrypt_loop key (m + j) text.
Proof.
  intros Hk.
  assert (Hr : rotate_key m key <> []).
  { pose proof (rotate_key_length m key) as E.
    destruct key; [congruence|].
    destruct (rotate_key m (z :: key)); [simpl in E; lia | discriminate]. }
  intros text. induction text as [|c rest IH]; intros j; [reflexivity|].
  cbn [decrypt_loop]. rewrite !cycle_next_ok by assumption.
  rewrite rotate_key_length, rotate_key_nth by assumption.
  rewrite !IH. replace (m + S j)%nat with (S (m + j)) by lia. reflexivity.
Qed.

Lemma rotate_key_lowercase (m : nat) (key : str) :
  lowercase key -> lowercase (rotate_key m key).
Proof.
  unfold lowercase, rotate_key. intros H. rewrite Forall_forall in *.
  intros x Hx. apply H. rewrite <- (firstn_skipn (m mod length key) key).
  apply in_app_or in Hx. apply in_or_app. tauto.
Qed.

(** X10.  Decryption of a concatenation: the first part is decrypted as on
    its own, and the second part as on its own under the key read
    cyclically from the position where the first part left it, that is,
    rotated by the number of letters of the first part. *)
Theorem decrypt_concat (a b key : str) :
  lowercase key -> key <> [] ->
  exists oa ob,
    decrypt_vigenere a key = Ok oa /\
    decrypt_vigenere b (rotate_key (key_uses a) key) = Ok ob /\
    decrypt_vigenere (a ++ b) key = Ok (oa ++ ob).
Proof.
  intros L Hk. unfold decrypt_vigenere.
  rewrite (str_lower_lowercase key L),
    (str_lower_lowercase _ (rotate_key_lowercase (key_uses a) key L)).
  destruct (decrypt_loop_total key Hk a 0) as [oa [Ea _]].
  destruct (decrypt_loop_total key Hk b (key_uses a + 0)) as [ob [Eb _]].
  exists oa, ob. rewrite decrypt_loop_rotate by assumption.
  rewrite decrypt_loop_app, Ea. cbn [Nat.add bind].
  rewrite Nat.add_0_r in Eb. rewrite Nat.add_0_r, Eb.
  repeat split.
Qed.

Lemma decrypt_concat_witness :
  lowercase (lit "lemon") /\ lit "lemon" <> [] /\
  exists oa ob,
    decrypt_vigenere (lit "Lxfopv ") (lit "lemon") = Ok oa /\
    decrypt_vigenere (lit "ef rnhr")
      (rotate_key (key_uses (lit "Lxfopv ")) (lit "lemon")) = Ok ob /\
    decrypt_vigenere (lit "Lxfopv " ++ lit "ef rnhr") (lit "lemon")
    = Ok (oa ++ ob).
Proof.
  assert (L : lowercase (lit "lemon"))
    by (apply lowercase_lit_check; reflexivity).
  assert (Hk : lit "lemon" <> []) by discriminate.
  split; [exact L|]. split; [exact Hk|].
  exact (decrypt_concat (lit "Lxfopv ") (lit "ef rnhr") (lit "lemon") L Hk).
Defined.

(** ** [get_cosets] and [decrypt_vigenere] *)

Lemma key_uses_lowercase (s : str) : lowercase s -> key_uses s = length s.
Proof.
  unfold lowercase. induction 1 as [|c s Hc _ IH]; [reflexivity|].
  rewrite key_uses_cons, IH, (takes_key_lower c Hc). reflexivity.
Qed.

Lemma lowercase_firstn (p : nat) (s : str) :
  lowercase s -> lowercase (firstn p s).
Proof.
  unfold lowercase. intros H. rewrite Forall_forall in *. intros x Hx.
  apply H. rewrite <- (firstn_skipn p s). apply in_or_app. now left.
Qed.

(** On a text of lowercase letters every position draws a key character:
    position [p] is shifted back by the key character [p mod len(key)]. *)
Lemma decrypt_lowercase_nth (key text out : str) (p : nat) :
  key <> [] -> lowercase text ->
  decrypt_loop key 0 text = Ok out -> (p < length text)%nat ->
  nth p out 0 =
  ((nth p text 0 - 97 - (nth (p mod length key) key 0 - 97)) mod 26) + 97.
Proof.
  intros Hk L E Hp.
  pose proof (decrypt_loop_pointwise key Hk text out 0 p E Hp) as P.
  cbv zeta in P.
  assert (Hc : 97 <= nth p text 0 <= 122).
  { unfold lowercase in L. rewrite Forall_forall in L. apply L.
    now apply nth_In. }
  rewrite (takes_key_lower _ Hc) in P.
  rewrite (key_uses_lowercase _ (lowercase_firstn p text L)) in P.
  rewrite length_firstn, Nat.min_l in P by lia. cbn [Nat.add] in P.
  rewrite decrypt_char_lower in P by assumption. congruence.
Qed.

Lemma stride_index_bound (len n i j : nat) :
  (1 <= n)%nat -> (j < (len - i + n - 1) / n)%nat -> (i + j * n < len)%nat.
Proof.
  intros Hn Hj.
  pose proof (Nat.Div0.mul_div_le (len - i + n - 1) n) as M.
  assert (S j * n <= len - i + n - 1)%nat by nia. nia.
Qed.

(** X11.  Decryption acts on each coset as a Caesar shift: for a text of
    lowercase letters and a key of [N >= 1] lowercase letters, coset [i] of
    the decrypted text is coset [i] of the text with every letter shifted
    back by the shift of key character [i]. *)
Theorem cosets_of_decryption (text key : str) :
  lowercase text -> lowercase key -> key <> [] ->
  exists out cosets,
    decrypt_vigenere text key = Ok out /\
    get_cosets text (Z.of_nat (length key)) = Ok cosets /\
    get_cosets out (Z.of_nat (length key)) =
    Ok (map (fun i => caesar_decrypt (nth i key 0) (nth i cosets []))
            (seq 0 (length key))).
Proof.
  intros Lt Lk Hk. unfold decrypt_vigenere.
  rewrite (str_lower_lowercase key Lk).
  destruct (decrypt_loop_total key Hk text 0) as [out [E Len]].
  assert (Hn : (1 <= length key)%nat)
    by (destruct key; [congruence | simpl; lia]).
  exists out. eexists. split; [exact E|].
  rewrite !get_cosets_pos by lia. rewrite Nat2Z.id.
  split; [reflexivity|]. f_equal. apply map_ext_in.
  intros i Hi. apply in_seq in Hi.
  rewrite nth_map_seq by lia.
  unfold stride_from, caesar_decrypt. rewrite Len, map_map.
  apply map_ext_in. intros j Hj. apply in_seq in Hj.
  assert (B : (i + j * length key < length text)%nat)
    by (apply stride_index_bound; lia).
  rewrite (decrypt_lowercase_nth key text out _ Hk Lt E B).
  rewrite Nat.Div0.mod_add, Nat.mod_small by lia. reflexivity.
Qed.

Lemma cosets_of_decryption_witness :
  lowercase (lit "lxfopvefrnhr") /\ lowercase (lit "lemon") /\
  lit "lemon" <> [] /\
  exists out cosets,
    decrypt_vigenere (lit "lxfopvefrnhr") (lit "lemon") = Ok out /\
    get_cosets (lit "lxfopvefrnhr") (Z.of_nat (length (lit "lemon")))
    = Ok cosets /\
    get_cosets out (Z.of_nat (length (lit "lemon"))) =
    Ok (map (fun i => caesar_decrypt (nth i (lit "lemon") 0)
                                     (nth i cosets []))
            (seq 0 (length (lit "lemon")))).
Proof.
  assert (Lt : lowercase (lit "lxfopvefrnhr"))
    by (apply lowercase_lit_check; reflexivity).
  assert (Lk : lowercase (lit "lemon"))
    by (apply lowercase_lit_check; reflexivity).
  assert (Hk : lit "lemon" <> []) by discriminate.
  split; [exact Lt|]. split; [exact Lk|]. split; [exact Hk|].
  exact (cosets_of_decryption (lit "lxfopvefrnhr") (lit "lemon") Lt Lk Hk).
Defined.

(** X12.  A key length at least the length of the text puts every letter in
    a coset of its own: the cosets are the one-letter strings of the text,
    in order, followed by empty cosets up to the key length. *)
Theorem get_cosets_long_key (C : str) (N : Z) :
  1 <= N -> Z.of_nat (length C) <= N ->
  get_cosets C N =
  Ok (map (fun c => [c]) C ++ repeat [] (Z.to_nat N - length C)).
Proof.
  intros H1 HN. rewrite get_cosets_pos by assumption.
  set (n := Z.to_nat N). assert (Hn : (length C <= n)%nat) by lia.
  assert (Hp : (1 <= n)%nat) by lia.
  f_equal.
  replace (seq 0 n)
    with (seq 0 (length C) ++ seq (0 + length C) (n - length C))
    by (rewrite <- seq_app; f_equal; lia).
  rewrite map_app. f_equal.
  - transitivity (map (fun c => [c])
                       (map (fun p => nth p C 0) (seq 0 (length C))));
      [|now rewrite map_nth_seq].
    rewrite map_map. apply map_ext_in. intros i Hi. apply in_seq in Hi.
    unfold stride_from.
    replace ((length C - i + n - 1) / n)%nat with 1%nat.
    + cbn [seq map]. now rewrite Nat.mul_0_l, Nat.add_0_r.
    + apply Nat.div_unique with (r := (length C - i - 1)%nat); lia.
  - cbn [Nat.add]. generalize (n - length C)%nat. intros k.
    assert (E : forall s, (length C <= s)%nat ->
              map (fun i => stride_from C i n) (seq s k) = repeat [] k).
    { induction k as [|k IH]; intros s Hs; [reflexivity|].
      cbn [seq map repeat]. rewrite IH by lia. f_equal.
      unfold stride_from.
      replace ((length C - s + n - 1) / n)%nat with O; [reflexivity|].
      symmetry. apply Nat.div_small. lia. }
    apply E. lia.
Qed.

Lemma get_cosets_long_key_witness :
  1 <= 5 /\ Z.of_nat (length (lit "abc")) <= 5 /\
  get_cosets (lit "abc") 5 =
  Ok (map (fun c => [c]) (lit "abc")
      ++ repeat [] (Z.to_nat 5 - length (lit "abc"))).
Proof.
  split; [lia|]. split; [vm_compute; discriminate|].
  exact (get_cosets_long_key (lit "abc") 5 ltac:(lia)
           ltac:(vm_compute; discriminate)).
Defined.

(** ** [frequency_analysis]: the score, letter by letter *)

Lemma contribution_weight (shift : Z) (cn : Z * Z) :
  contribution shift cn = snd cn * letter_weight shift (fst cn).
Proof. reflexivity. Qed.

Lemma contribution_incr (shift x : Z) (c : list (Z * Z)) :
  zsum (map (contribution shift) (counter_incr x c)) =
  zsum (map (contribution shift) c) + letter_weight shift x.
Proof.
  unfold zsum. induction c as [|[k v] c IH].
  - cbn [counter_incr map fold_right]. rewrite contribution_weight.
    cbn [fst snd]. lia.
  - cbn [counter_incr]. destruct (Z.eqb_spec k x) as [->|N].
    + cbn [map fold_right]. rewrite !contribution_weight. cbn [fst snd]. lia.
    + cbn [map fold_right]. rewrite IH. lia.
Qed.

Lemma counter_fold_score (shift : Z) (l : list Z) :
  forall c,
  zsum (map (contribution shift)
            (fold_left (fun c x => counter_incr x c) l c)) =
  zsum (map (contribution shift) c) + zsum (map (letter_weight shift) l).
Proof.
  induction l as [|x l IH]; intros c; cbn [fold_left map].
  - unfold zsum at 3. cbn [fold_right]. lia.
  - rewrite IH, contribution_incr. unfold zsum at 4. cbn [fold_right].
    fold (zsum (map (letter_weight shift) l)). lia.
Qed.

(** The score computed over the counter is the sum of the weights of the
    letters of the coset, one term for each occurrence. *)
Lemma shift_score_by_letter (coset : str) (shift : Z) :
  shift_score (Counter coset) shift = zsum (map (letter_weight shift) coset).
Proof.
  rewrite shift_score_sum. unfold Counter. rewrite counter_fold_score.
  reflexivity.
Qed.

Lemma letter_weight_bounds (shift c : Z) : 1 <= letter_weight shift c <= 26.
Proof.
  unfold letter_weight.
  pose proof (rank_bound _ (expected_char_letter c shift)). lia.
Qed.

Lemma shift_score_bounds (coset : str) (shift : Z) :
  Z.of_nat (length coset) <= shift_score (Counter coset) shift
                          <= 26 * Z.of_nat (length coset).
Proof.
  rewrite shift_score_by_letter. unfold zsum.
  induction coset as [|c coset IH]; cbn [map fold_right length]; [lia|].
  pose proof (letter_weight_bounds shift c). lia.
Qed.

(** X13.  The score of a shift, which the code computes from the counter
    of the coset, is the sum over all the letters of the coset, repetitions
    included, of 26 minus the rank of the letter they stand for; every
    letter adds between 1 and 26, so the score lies between the length of
    the coset and 26 times that length. *)
Theorem shift_score_per_letter (coset : str) (shift : Z) :
  shift_score (Counter coset) shift = zsum (map (letter_weight shift) coset)
  /\
  Z.of_nat (length coset) <= shift_score (Counter coset) shift
                          <= 26 * Z.of_nat (length coset).
Proof.
  split; [apply shift_score_by_letter | apply shift_score_bounds].
Qed.

Lemma best_fold_same_scores (c1 c2 : list (Z * Z)) :
  (forall s, shift_score c1 s = shift_score c2 s) ->
  forall l init,
  fold_left (best_step c1) l init = fold_left (best_step c2) l init.
Proof.
  intros H l. induction l as [|x l IH]; intros init; [reflexivity|].
  cbn [fold_left]. unfold best_step at 2 4. rewrite H. apply IH.
Qed.

(** X14.  The shift depends on the letters of the coset and not on their
    order: two cosets that are rearrangements of each other get the same
    shift. *)
Theorem frequency_analysis_rearranged (coset coset' : str) :
  Permutation coset coset' ->
  frequency_analysis coset = frequency_analysis coset'.
Proof.
  intros P. unfold frequency_analysis. f_equal.
  apply best_fold_same_scores. intros s.
  rewrite !shift_score_by_letter. apply zsum_perm. now apply Permutation_map.
Qed.

Lemma frequency_analysis_rearranged_witness :
  Permutation (lit "abc") (lit "bac") /\
  frequency_analysis (lit "abc") = frequency_analysis (lit "bac").
Proof.
  assert (P : Permutation (lit "abc") (lit "bac")) by apply perm_swap.
  split; [exact P|].
  exact (frequency_analysis_rearranged (lit "abc") (lit "bac") P).
Defined.

(** A shift of 0..25 whose score is strictly above the score of every other
    shift of 0..25 is the one returned. *)
Lemma frequency_analysis_unique_max (coset : str) (s0 : Z) :
  0 <= s0 <= 25 ->
  (forall t, 0 <= t <= 25 -> t <> s0 ->
     shift_score (Counter coset) t < shift_score (Counter coset) s0) ->
  frequency_analysis coset = s0.
Proof.
  intros B U. unfold frequency_analysis.
  set (counts := Counter coset) in *.
  pose proof (best_fold (shift_score counts) (best_step counts)
                (fun best x => eq_refl) (range 0 26) 0 (-1)) as H.
  cbv zeta in H.
  set (r := fold_left (best_step counts) (range 0 26) (0, -1)) in *.
  destruct H as [M [[_ A]|[l1 [l2 [E [S _]]]]]].
  - exfalso. specialize (A 0 ltac:(apply In_range; lia)).
    pose proof (shift_score_bounds coset 0) as Bd.
    fold counts in Bd. lia.
  - assert (R : In (fst r) (range 0 26)) by (rewrite E; apply in_elt).
    apply In_range in R.
    destruct (Z.eq_dec (fst r) s0) as [Y|N]; [exact Y|]. exfalso.
    specialize (U (fst r) ltac:(lia) N).
    specialize (M s0 ltac:(apply In_range; lia)). lia.
Qed.

Lemma zsum_repeat (x : Z) (n : nat) : zsum (repeat x n) = Z.of_nat n * x.
Proof.
  unfold zsum. induction n as [|n IH]; [reflexivity|].
  cbn [repeat fold_right]. rewrite IH. lia.
Qed.

Lemma rank_zero (x : Z) : rank x = 0 <-> x = 101.
Proof.
  unfold rank. change ENGLISH_FREQ with (101 :: tl ENGLISH_FREQ).
  cbn [list_index]. destruct (Z.eqb_spec 101 x); split; intros H;
    try congruence; try lia.
Qed.

(** X15.  A coset made of one letter repeated gets the shift that turns
    that letter into ['e'], the most frequent letter of the table. *)
Theorem frequency_analysis_single_letter (c : Z) (n : nat) :
  97 <= c <= 122 -> (1 <= n)%nat ->
  frequency_analysis (repeat c n) = (c - 101) mod 26.
Proof.
  intros Hc Hn.
  pose proof (Z.mod_pos_bound (c - 101) 26 ltac:(lia)) as B.
  apply frequency_analysis_unique_max; [lia|].
  intros t Ht Hne. rewrite !shift_score_by_letter, !map_repeat, !zsum_repeat.
  assert (W0 : letter_weight ((c - 101) mod 26) c = 26).
  { unfold letter_weight. rewrite Zminus_mod_idemp_r.
    replace (c - 97 - (c - 101)) with 4 by lia.
    change (4 mod 26 + 97) with 101. rewrite (proj2 (rank_zero 101) eq_refl).
    lia. }
  assert (Wt : letter_weight t c <= 25).
  { unfold letter_weight.
    pose proof (rank_bound _ (expected_char_letter c t)) as Rb.
    assert (rank ((c - 97 - t) mod 26 + 97) <> 0); [|lia].
    intros R0. apply rank_zero in R0. apply Hne.
    assert (E : (c - 97 - t) mod 26 = 4) by lia.
    pose proof (Z.div_mod (c - 97 - t) 26 ltac:(lia)) as D.
    rewrite E in D.
    replace (c - 101) with (t + ((c - 97 - t) / 26) * 26) by lia.
    rewrite Z_mod_plus_full. symmetry. apply Z.mod_small. lia. }
  rewrite W0. nia.
Qed.

Lemma frequency_analysis_single_letter_witness :
  97 <= 120 <= 122 /\ (1 <= 3)%nat /\
  frequency_analysis (repeat 120 3) = (120 - 101) mod 26.
Proof.
  split; [lia|]. split; [lia|].
  exact (frequency_analysis_single_letter 120 3 ltac:(lia) ltac:(lia)).
Defined.

(** Encrypting the coset by [k] moves the score of every shift [k] places
    up, modulo 26. *)
Lemma shift_score_encrypted (coset : str) (k t : Z) :
  shift_score (Counter (caesar_encrypt k coset)) t =
  shift_score (Counter coset) ((t - k) mod 26).
Proof.
  rewrite !shift_score_by_letter. unfold caesar_encrypt. rewrite map_map.
  f_equal. apply map_ext. intros x. unfold letter_weight. do 3 f_equal.
  replace ((x - 97 + k) mod 26 + 97 - 97 - t)
    with ((x - 97 + k) mod 26 - t) by lia.
  rewrite Zminus_mod_idemp_l, Zminus_mod_idemp_r. f_equal. lia.
Qed.

(** X16.  Shift recovery: when one shift [s0] has a score strictly above
    all the others on a coset, the analysis of the coset encrypted by a
    Caesar shift [k] returns [s0 + k] modulo 26; in particular a coset whose
    own best shift is 0 gives back the encryption shift. *)
Theorem frequency_analysis_recovers_shift (coset : str) (s0 k : Z) :
  0 <= s0 <= 25 ->
  (forall t, 0 <= t <= 25 -> t <> s0 ->
     shift_score (Counter coset) t < shift_score (Counter coset) s0) ->
  frequency_analysis (caesar_encrypt k coset) = (s0 + k) mod 26.
Proof.
  intros B U.
  pose proof (Z.mod_pos_bound (s0 + k) 26 ltac:(lia)) as Bk.
  apply frequency_analysis_unique_max; [lia|].
  intros t Ht Hne. rewrite !shift_score_encrypted.
  rewrite Zminus_mod_idemp_l. replace (s0 + k - k) with s0 by lia.
  rewrite (Z.mod_small s0) by lia.
  pose proof (Z.mod_pos_bound (t - k) 26 ltac:(lia)) as Bt.
  apply U; [lia|]. intros E. apply Hne.
  rewrite <- E, Zplus_mod_idemp_l. replace (t - k + k) with t by lia.
  symmetry. apply Z.mod_small. lia.
Qed.

Lemma unique_max_check (coset : str) (s0 : Z) :
  forallb (fun t => (t =? s0) ||
                    (shift_score (Counter coset) t
                     <? shift_score (Counter coset) s0))
          (range 0 26) = true ->
  forall t, 0 <= t <= 25 -> t <> s0 ->
    shift_score (Counter coset) t < shift_score (Counter coset) s0.
Proof.
  intros H t Ht Hne. rewrite forallb_forall in H.
  specialize (H t ltac:(apply In_range; lia)).
  apply orb_true_iff in H. destruct H as [H|H].
  - apply Z.eqb_eq in H. contradiction.
  - now apply Z.ltb_lt.
Qed.

Lemma frequency_analysis_recovers_shift_witness :
  0 <= 0 <= 25 /\
  (forall t, 0 <= t <= 25 -> t <> 0 ->
     shift_score (Counter (lit "thetree")) t
     < shift_score (Counter (lit "thetree")) 0) /\
  frequency_analysis (caesar_encrypt 11 (lit "thetree")) = (0 + 11) mod 26.
Proof.
  assert (U : forall t, 0 <= t <= 25 -> t <> 0 ->
     shift_score (Counter (lit "thetree")) t
     < shift_score (Counter (lit "thetree")) 0)
    by (apply unique_max_check; vm_compute; reflexivity).
  split; [lia|]. split; [exact U|].
  exact (frequency_analysis_recovers_shift (lit "thetree") 0 11
           ltac:(lia) U).
Defined.

(** ** [kasiski_examination]: the dictionary and the distances *)

Lemma occurrences_length (text t : str) :
  (length (occurrences text t) <= length text - 2)%nat.
Proof.
  unfold occurrences. rewrite length_map.
  pose proof (filter_length_le (fun i => str_eqb (trigram_at text i) t)
                (seq 0 (length text - 2))) as H.
  now rewrite length_seq in H.
Qed.

Lemma In_occurrences (text t : str) (p : Z) :
  In p (occurrences text t) <->
  exists i, p = Z.of_nat i /\ (i < length text - 2)%nat /\
            trigram_at text i = t.
Proof.
  unfold occurrences. rewrite in_map_iff. split.
  - intros [i [<- Hi]]. apply filter_In in Hi. destruct Hi as [Hi E].
    apply in_seq in Hi. apply str_eqb_eq in E. exists i. repeat split; auto.
    lia.
  - intros [i [-> [Hi E]]]. exists i. split; [reflexivity|].
    apply filter_In. split; [apply in_seq; lia | now apply str_eqb_eq].
Qed.

(** X17.  A text of fewer than four characters has no repeated trigram:
    [kasiski_examination] returns the empty list, for every
    [max_key_length]. *)
Theorem kasiski_short_text (set_iter : list Z -> list Z) (text : str)
  (M : Z) :
  (length text < 4)%nat -> kasiski_examination set_iter text M = [].
Proof.
  intros H. unfold kasiski_examination.
  rewrite distances_none; [reflexivity|].
  intros t. pose proof (occurrences_length text t). lia.
Qed.

Lemma kasiski_short_text_witness :
  (length (lit "aaa") < 4)%nat /\
  kasiski_examination dedup (lit "aaa") 15 = [].
Proof.
  assert (H : (length (lit "aaa") < 4)%nat) by (vm_compute; lia).
  split; [exact H|].
  exact (kasiski_short_text dedup (lit "aaa") 15 H).
Defined.

Lemma pair_distances_complete (ps : list Z) (p q : Z) :
  StronglySorted Z.lt ps -> In p ps -> In q ps -> p < q ->
  In (q - p) (pair_distances ps).
Proof.
  induction ps as [|a ps IH]; intros S Hp Hq L; [contradiction|].
  apply StronglySorted_inv in S. destruct S as [S F].
  rewrite Forall_forall in F. cbn [pair_distances]. apply in_or_app.
  destruct Hp as [->|Hp].
  - left. destruct Hq as [->|Hq]; [lia|]. apply in_map_iff. now exists q.
  - right. destruct Hq as [->|Hq].
    + specialize (F p Hp). lia.
    + now apply IH.
Qed.

(** X18.  The distances are exactly the differences [j - i] of two window
    positions [i < j] that spell the same trigram, every such pair counted
    and not only neighbouring occurrences; so every distance is at least 1
    and at most [len(text) - 3]. *)
Theorem distances_are_pair_gaps (text : str) (d : Z) :
  (In d (distances text) <->
   exists i j : nat,
     (i < j)%nat /\ (j < length text - 2)%nat /\
     trigram_at text i = trigram_at text j /\
     d = Z.of_nat j - Z.of_nat i) /\
  (In d (distances text) -> 1 <= d <= Z.of_nat (length text) - 3).
Proof.
  assert (Fwd : In d (distances text) ->
     exists i j : nat,
       (i < j)%nat /\ (j < length text - 2)%nat /\
       trigram_at text i = trigram_at text j /\
       d = Z.of_nat j - Z.of_nat i).
  { intros H. destruct (distances_In text d H) as [t [p [q [Hp [Hq [L E]]]]]].
    apply In_occurrences in Hp, Hq.
    destruct Hp as [i [-> [Hi Ti]]]. destruct Hq as [j [-> [Hj Tj]]].
    exists i, j. repeat split; try lia. congruence. }
  split; [split; [exact Fwd|]|].
  - intros [i [j [Lij [Hj [Et ->]]]]].
    set (t := trigram_at text i).
    assert (Hp : In (Z.of_nat i) (occurrences text t))
      by (apply In_occurrences; exists i; repeat split; lia).
    assert (Hq : In (Z.of_nat j) (occurrences text t))
      by (apply In_occurrences; exists j; repeat split; auto).
    unfold distances, repeated_seqs. apply in_flat_map.
    exists (t, occurrences text t). split.
    + apply filter_In. split.
      * apply occurrences_In_sequences. intros E. now rewrite E in Hp.
      * cbn [snd]. apply Nat.ltb_lt.
        destruct (occurrences text t) as [|a [|b l]]; simpl in *; lia.
    + cbn [snd]. apply pair_distances_complete; auto; try lia.
      apply occurrences_sorted.
  - intros H. destruct (Fwd H) as [i [j [Lij [Hj [_ ->]]]]]. lia.
Qed.

Lemma dict_append_values (k : str) (i : Z) (d : list (str * list Z)) :
  Permutation (concat (map snd (dict_append k i d)))
              (i :: concat (map snd d)).
Proof.
  induction d as [|[k0 v] d IH]; cbn [dict_append map concat snd app].
  - reflexivity.
  - destruct (str_eqb k0 k); cbn [map concat snd].
    + rewrite <- app_assoc. cbn [app].
      apply Permutation_sym, Permutation_middle.
    + rewrite IH. apply Permutation_sym, Permutation_middle.
Qed.

Lemma sequences_fold_values (text : str) (l : list nat) :
  forall d,
  Permutation
    (concat (map snd
       (fold_left (fun d i => dict_append (trigram_at text i) (Z.of_nat i) d)
                  l d)))
    (map Z.of_nat l ++ concat (map snd d)).
Proof.
  induction l as [|i l IH]; intros d; cbn [fold_left map app].
  - reflexivity.
  - rewrite IH, dict_append_values. apply Permutation_sym, Permutation_middle.
Qed.

(** X19.  The dictionary of sequences files every window position exactly
    once, under the trigram that starts there: its keys are all different,
    its position lists together are a rearrangement of
    [0 .. len(text) - 3], and every position of an entry spells the key of
    the entry. *)
Theorem sequences_partition (text : str) :
  NoDup (map fst (sequences text)) /\
  Permutation (concat (map snd (sequences text)))
              (map Z.of_nat (seq 0 (length text - 2))) /\
  (forall t ps p, In (t, ps) (sequences text) -> In p ps ->
     0 <= p /\ trigram_at text (Z.to_nat p) = t).
Proof.
  split; [apply sequences_NoDup|]. split.
  - unfold sequences. rewrite sequences_fold_values. cbn [map concat].
    now rewrite app_nil_r.
  - intros t ps p Hin Hp. apply sequences_In in Hin. subst ps.
    apply In_occurrences in Hp. destruct Hp as [i [-> [_ E]]].
    rewrite Nat2Z.id. split; [lia | exact E].
Qed.

(** X20.  The two nested loops take every pair of occurrences once: a
    trigram with [k] occurrences gives [k * (k - 1) / 2] distances. *)
Theorem pair_distances_count (positions : list Z) :
  (2 * length (pair_distances positions)
   = length positions * (length positions - 1))%nat.
Proof.
  induction positions as [|p ps IH]; [reflexivity|].
  cbn [pair_distances length]. rewrite length_app, length_map.
  destruct ps as [|q ps]; [reflexivity|]. cbn [length] in *. nia.
Qed.

(** ** [kasiski_examination]: the candidates *)

Lemma votes_nonneg (ds : list Z) (f : Z) : 0 <= votes ds f.
Proof. unfold votes. lia. Qed.

(** X21.  With a [max_key_length] below 2 no length is tried as a factor
    and [kasiski_examination] returns the empty list, whatever the text. *)
Theorem kasiski_no_room (set_iter : list Z -> list Z) (text : str) (M : Z) :
  set_laws set_iter -> M < 2 -> kasiski_examination set_iter text M = [].
Proof.
  intros laws HM.
  destruct (kasiski_ranking set_iter laws M (distances text))
    as [_ [_ [D _]]].
  fold (kasiski_examination set_iter text M) in D.
  destruct (kasiski_examination set_iter text M) as [|f r]; [reflexivity|].
  destruct (D f (or_introl eq_refl)) as [B _]. lia.
Qed.

Lemma kasiski_no_room_witness :
  set_laws dedup /\ 1 < 2 /\
  kasiski_examination dedup (lit "abcdefghijklabc") 1 = [].
Proof.
  split; [exact dedup_set_laws|]. split; [lia|].
  exact (kasiski_no_room dedup (lit "abcdefghijklabc") 1 dedup_set_laws
           ltac:(lia)).
Defined.

(** X22.  The first candidate is a most voted length: no length of
    [2..max_key_length] divides more distances than the head of the list;
    and the list is empty exactly when no length of that range divides any
    distance. *)
Theorem kasiski_head_most_voted (set_iter : list Z -> list Z) (text : str)
  (M : Z) :
  set_laws set_iter ->
  let ds := distances text in
  let r := kasiski_examination set_iter text M in
  (forall f rest g, r = f :: rest -> 2 <= g <= M ->
                    votes ds g <= votes ds f) /\
  (r = [] <-> forall g, 2 <= g <= M -> votes ds g = 0).
Proof.
  intros laws ds r.
  pose proof (kasiski_ranking set_iter laws M ds) as K. cbv zeta in K.
  change (map fst (most_common 3 (common_factors set_iter M ds)))
    with r in K.
  destruct K as [_ [_ [D [S T]]]].
  split.
  - intros f rest g E Bg.
    destruct (Z_le_gt_dec 1 (votes ds g)) as [V|V].
    + destruct (in_dec Z.eq_dec g r) as [Y|N].
      * rewrite E in Y, S. destruct Y as [->|Y]; [lia|].
        apply StronglySorted_inv in S. destruct S as [_ F].
        rewrite Forall_forall in F. specialize (F g Y).
        unfold outranks in F. lia.
      * destruct (T g Bg V N) as [_ O].
        specialize (O f ltac:(rewrite E; now left)).
        unfold outranks in O. lia.
    + pose proof (votes_nonneg ds f). lia.
  - split.
    + intros E g Bg. pose proof (votes_nonneg ds g).
      destruct (Z_le_gt_dec 1 (votes ds g)) as [V|V]; [|lia].
      assert (N : ~ In g r) by (rewrite E; tauto).
      destruct (T g Bg V N) as [L _]. rewrite E in L. discriminate.
    + intros H. destruct r as [|f rest]; [reflexivity|]. exfalso.
      destruct (D f (or_introl eq_refl)) as [B Hd].
      apply votes_pos in Hd. specialize (H f B). lia.
Qed.

Lemma kasiski_head_most_voted_witness :
  set_laws dedup /\
  let ds := distances (lit "abcdefghijklabc") in
  let r := kasiski_examination dedup (lit "abcdefghijklabc") 15 in
  (forall f rest g, r = f :: rest -> 2 <= g <= 15 ->
                    votes ds g <= votes ds f) /\
  (r = [] <-> forall g, 2 <= g <= 15 -> votes ds g = 0).
Proof.
  split; [exact dedup_set_laws|].
  exact (kasiski_head_most_voted dedup (lit "abcdefghijklabc") 15
           dedup_set_laws).
Defined.

(** ** [crack_vigenere]: the answer, the attempts, the run *)

Lemma str_lower_single (r : str) (x : Z) :
  str_lower r = [x] -> exists c, r = [c] /\ char_lower c = [x].
Proof.
  unfold str_lower. destruct r as [|c r]; [discriminate|].
  cbn [flat_map]. intros H.
  pose proof (char_lower_nonempty c) as Hc.
  destruct (char_lower c) as [|y l] eqn:E; [congruence|].
  injection H as -> H'.
  destruct l as [|z l]; [|discriminate].
  cbn [app] in H'. destruct r as [|c' r].
  - exists c. now rewrite E.
  - cbn [flat_map] in H'. pose proof (char_lower_nonempty c') as Hc'.
    destruct (char_lower c'); [congruence | discriminate].
Qed.

(** X23.  The answer counts as an acceptance exactly when it is ['y'] or
    ['Y']: any other reply, ['yes'] and the empty line included, is a
    rejection. *)
Theorem says_yes_iff (response : str) :
  says_yes response = true <-> response = lit "y" \/ response = lit "Y".
Proof.
  unfold says_yes. rewrite str_eqb_eq. split.
  - intros H. change (lit "y") with [121] in H.
    apply str_lower_single in H. destruct H as [c [-> E]].
    unfold char_lower, KELVIN_SIGN, CAPITAL_I_WITH_DOT in E.
    destruct ((65 <=? c) && (c <=? 90)).
    + right. injection E as E. change (lit "Y") with [89]. f_equal. lia.
    + destruct (c =? 8490); [discriminate|].
      destruct (c =? 304); [discriminate|]. left. exact E.
  - intros [-> | ->]; reflexivity.
Qed.

Lemma frequency_analysis_range (coset : str) :
  0 <= frequency_analysis coset <= 25.
Proof.
  unfold frequency_analysis. set (counts := Counter coset).
  pose proof (best_fold (shift_score counts) (best_step counts)
                (fun best x => eq_refl) (range 0 26) 0 (-1)) as H.
  cbv zeta in H.
  set (r := fold_left (best_step counts) (range 0 26) (0, -1)) in *.
  destruct H as [_ [[E _]|[l1 [l2 [E _]]]]].
  - rewrite E. simpl. lia.
  - assert (R : In (fst r) (range 0 26)) by (rewrite E; apply in_elt).
    apply In_range in R. lia.
Qed.

Lemma attempt_result (cleaned ciphertext : str) (N : Z) :
  1 <= N ->
  exists key decrypted,
    attempt cleaned ciphertext N = Ok (key, decrypted) /\
    Z.of_nat (length key) = N /\
    lowercase key /\
    length decrypted = length ciphertext /\
    decrypt_vigenere ciphertext key = Ok decrypted.
Proof.
  intros H. unfold attempt. rewrite get_cosets_pos by assumption.
  cbn [bind].
  set (key := map (fun coset => frequency_analysis coset + ord_a) _).
  assert (Lk : Z.of_nat (length key) = N).
  { unfold key. rewrite !length_map, length_seq. lia. }
  assert (Hk : key <> []) by (destruct key; [simpl in Lk; lia | discriminate]).
  assert (Lo : lowercase key).
  { unfold lowercase, key. apply Forall_forall. intros x Hx.
    apply in_map_iff in Hx. destruct Hx as [coset [<- _]].
    pose proof (frequency_analysis_range coset). unfold ord_a. lia. }
  pose proof (str_lower_nonempty key Hk) as Hl.
  destruct (decrypt_loop_total _ Hl ciphertext 0) as [out [E L]].
  exists key, out. unfold decrypt_vigenere. rewrite E. cbn [bind].
  repeat split; auto.
Qed.

(** X24.  An attempt at a key length [N >= 1] never fails: it yields a key
    of exactly [N] lowercase letters and a decryption that has the length
    of the ciphertext and is the decryption of the ciphertext under that
    key. *)
Theorem attempt_shape (cleaned ciphertext : str) (N : Z) :
  1 <= N ->
  exists key decrypted,
    attempt cleaned ciphertext N = Ok (key, decrypted) /\
    Z.of_nat (length key) = N /\
    lowercase key /\
    length decrypted = length ciphertext /\
    decrypt_vigenere ciphertext key = Ok decrypted.
Proof. apply attempt_result. Qed.

Lemma attempt_shape_witness :
  1 <= 5 /\
  exists key decrypted,
    attempt (lit "lxfopvefrnhr") (lit "Lxfopv ef rnhr") 5
    = Ok (key, decrypted) /\
    Z.of_nat (length key) = 5 /\
    lowercase key /\
    length decrypted = length (lit "Lxfopv ef rnhr") /\
    decrypt_vigenere (lit "Lxfopv ef rnhr") key = Ok decrypted.
Proof.
  split; [lia|].
  exact (attempt_shape (lit "lxfopvefrnhr") (lit "Lxfopv ef rnhr") 5
           ltac:(lia)).
Defined.

(** Among the first [L] answers, either all reject or there is a first
    acceptance. *)
Lemma first_acceptance (stdin : nat -> str) (L : nat) :
  (forall j, (j < L)%nat -> says_yes (stdin j) = false) \/
  (exists n, (n < L)%nat /\ says_yes (stdin n) = true /\
             forall k, (k < n)%nat -> says_yes (stdin k) = false).
Proof.
  induction L as [|L [IH|IH]].
  - left. intros j Hj. lia.
  - destruct (says_yes (stdin L)) eqn:E.
    + right. exists L. repeat split; auto.
    + left. intros j Hj. destruct (Nat.eq_dec j L) as [->|N]; [exact E|].
      apply IH. lia.
  - right. destruct IH as [n [Hn [A R]]]. exists n. repeat split; auto.
Qed.

(** The schedule holds every length of 5..15 and has between 11 and 14
    lengths. *)
Lemma schedule_size (set_iter : list Z -> list Z) (text : str) :
  set_laws set_iter ->
  let lengths := schedule (kasiski_examination set_iter text 15) in
  (forall k, 5 <= k <= 15 -> In k lengths) /\
  (11 <= length lengths <= 14)%nat.
Proof.
  intros laws lengths.
  destruct (schedule_lengths set_iter text laws) as [ND B].
  fold lengths in ND, B.
  assert (C : forall k, 5 <= k <= 15 -> In k lengths).
  { intros k Hk. unfold lengths, schedule. apply in_or_app.
    destruct (mem k (kasiski_examination set_iter text 15)) eqn:E.
    - left. now apply mem_true_iff.
    - right. apply filter_In. split; [apply In_range; lia|]. now rewrite E. }
  split; [exact C|]. split.
  - assert (I : incl (range 5 16) lengths).
    { intros k Hk. apply C. apply In_range in Hk. lia. }
    pose proof (NoDup_incl_length (NoDup_range 5 16) I) as H.
    exact H.
  - assert (I : incl lengths (range 2 16)).
    { intros k Hk. apply In_range. specialize (B k Hk). lia. }
    pose proof (NoDup_incl_length ND I) as H. exact H.
Qed.

(** Every run, whatever the answers. *)
Lemma crack_vigenere_run (set_iter : list Z -> list Z)
  (stdin : nat -> str) (ciphertext : str) :
  set_laws set_iter ->
  exists r w,
    crack_vigenere set_iter stdin ciphertext = Ok (r, w) /\
    (asked w <= 14)%nat /\
    match r with
    | None =>
        (11 <= asked w)%nat /\
        (forall k, (k < asked w)%nat -> says_yes (stdin k) = false) /\
        (forall k, 5 <= k <= 15 -> In k (tried_lengths w))
    | Some (key, decrypted) =>
        decrypt_vigenere ciphertext key = Ok decrypted /\
        lowercase key /\
        (2 <= length key <= 15)%nat /\
        (1 <= asked w)%nat /\
        says_yes (stdin (asked w - 1)%nat) = true /\
        length decrypted = length ciphertext
    end.
Proof.
  intros laws. rewrite crack_vigenere_as_loop.
  set (cleaned := clean_text ciphertext).
  set (lengths := schedule (kasiski_examination set_iter cleaned 15)).
  destruct (schedule_lengths set_iter cleaned laws) as [_ B].
  destruct (schedule_size set_iter cleaned laws) as [C Sz].
  fold lengths in B, C, Sz.
  assert (B1 : forall k, In k lengths -> 1 <= k)
    by (intros k Hk; specialize (B k Hk); lia).
  destruct (first_acceptance stdin (length lengths)) as [R|[n [Hn [A R]]]].
  - destruct (ranked_loop_rejects stdin cleaned ciphertext lengths B1
                console0 R) as [w [E [As T]]].
    exists None, w. cbn [asked console0 Nat.add] in As.
    split; [exact E|]. split; [lia|]. split; [lia|]. split.
    + intros k Hk. apply R. lia.
    + intros k Hk. rewrite T. apply C. exact Hk.
  - destruct (ranked_loop_accepts stdin cleaned ciphertext lengths B1
                n console0 Hn R A) as [key [dec [w [Ea [E [As T]]]]]].
    exists (Some (key, dec)), w. cbn [asked console0 Nat.add] in As.
    split; [exact E|]. split; [lia|].
    assert (Hin : In (nth n lengths 0) lengths) by now apply nth_In.
    destruct (attempt_result cleaned ciphertext (nth n lengths 0)
                (B1 _ Hin)) as [key' [dec' [Ea' [Lk [Lo [Ld D]]]]]].
    rewrite Ea in Ea'. injection Ea' as <- <-.
    specialize (B _ Hin).
    split; [exact D|]. split; [exact Lo|]. split; [lia|]. split; [lia|].
    split; [|exact Ld].
    rewrite As. replace (S n - 1)%nat with n by lia. exact A.
Qed.

(** X25.  Whatever is answered, [crack_vigenere] returns without an
    exception after at most 14 questions.  A NotFound result comes after at
    least 11 questions, all rejected, with every length of 5..15 tried.  A
    found result comes right after an acceptance, and is a key of 2 to 15
    lowercase letters together with the decryption of the ciphertext under
    that key. *)
Theorem crack_vigenere_outcome (set_iter : list Z -> list Z)
  (stdin : nat -> str) (ciphertext : str) :
  set_laws set_iter ->
  exists r w,
    crack_vigenere set_iter stdin ciphertext = Ok (r, w) /\
    (asked w <= 14)%nat /\
    match r with
    | None =>
        (11 <= asked w)%nat /\
        (forall k, (k < asked w)%nat -> says_yes (stdin k) = false) /\
        (forall k, 5 <= k <= 15 -> In k (tried_lengths w))
    | Some (key, decrypted) =>
        decrypt_vigenere ciphertext key = Ok decrypted /\
        lowercase key /\
        (2 <= length key <= 15)%nat /\
        (1 <= asked w)%nat /\
        says_yes (stdin (asked w - 1)%nat) = true
    end.
Proof.
  intros laws.
  destruct (crack_vigenere_run set_iter stdin ciphertext laws)
    as [r [w [E [A H]]]].
  exists r, w. split; [exact E|]. split; [exact A|].
  destruct r as [[key dec]|]; [|exact H].
  destruct H as [D [Lo [Lk [As [Y _]]]]]. auto.
Qed.

Lemma crack_vigenere_outcome_witness :
  set_laws dedup /\
  exists r w,
    crack_vigenere dedup (fun _ => lit "yes") (lit "Lxfopv ef rnhr")
    = Ok (r, w) /\
    (asked w <= 14)%nat /\
    match r with
    | None =>
        (11 <= asked w)%nat /\
        (forall k, (k < asked w)%nat ->
                   says_yes ((fun _ => lit "yes") k) = false) /\
        (forall k, 5 <= k <= 15 -> In k (tried_lengths w))
    | Some (key, decrypted) =>
        decrypt_vigenere (lit "Lxfopv ef rnhr") key = Ok decrypted /\
        lowercase key /\
        (2 <= length key <= 15)%nat /\
        (1 <= asked w)%nat /\
        says_yes ((fun _ => lit "yes") (asked w - 1)%nat) = true
    end.
Proof.
  split; [exact dedup_set_laws|].
  exact (crack_vigenere_outcome dedup (fun _ => lit "yes")
           (lit "Lxfopv ef rnhr") dedup_set_laws).
Defined.

(** X26.  The end of the script: for a ciphertext that is not empty,
    success is reported, with the key and the plaintext, exactly when an
    attempt was accepted, since a returned key has at least two letters and
    the plaintext has the length of the ciphertext; for the empty
    ciphertext failure is reported even after an acceptance, the plaintext
    being the empty string. *)
Theorem script_report (set_iter : list Z -> list Z) (stdin : nat -> str)
  (ciphertext : str) :
  set_laws set_iter ->
  exists r w,
    crack_vigenere set_iter stdin ciphertext = Ok (r, w) /\
    (ciphertext <> [] ->
     final_report r = match r with
                      | Some (key, plaintext) => Success key plaintext
                      | None => Failed
                      end) /\
    (ciphertext = [] -> final_report r = Failed).
Proof.
  intros laws.
  destruct (crack_vigenere_run set_iter stdin ciphertext laws)
    as [r [w [E [_ H]]]].
  exists r, w. split; [exact E|].
  destruct r as [[key dec]|]; [|split; reflexivity].
  destruct H as [_ [_ [Lk [_ [_ Ld]]]]]. cbn [final_report].
  assert (Tk : truthy key = true) by (destruct key; [simpl in Lk; lia|reflexivity]).
  rewrite Tk. cbn [andb]. split.
  - intros Hc. destruct dec as [|d dec]; [|reflexivity].
    destruct ciphertext; [congruence | discriminate].
  - intros ->. destruct dec; [reflexivity | discriminate].
Qed.

Lemma script_report_witness :
  set_laws dedup /\
  exists r w,
    crack_vigenere dedup (fun _ => lit "y") (lit "") = Ok (r, w) /\
    (lit "" <> [] ->
     final_report r = match r with
                      | Some (key, plaintext) => Success key plaintext
                      | None => Failed
                      end) /\
    (lit "" = [] -> final_report r = Failed).
Proof.
  split; [exact dedup_set_laws|].
  exact (script_report dedup (fun _ => lit "y") (lit "") dedup_set_laws).
Defined.

(** ** [decrypt_vigenere]: what is kept and what never comes out *)

(** X27.  With a non-empty key [decrypt_vigenere] returns a text of the
    length of its input, in which every ASCII letter of the input has
    become an ASCII letter of the same case at the same position and every
    character that is neither an ASCII letter nor the Kelvin sign stands
    unchanged at its position. *)
Theorem decrypt_format_kept (text key : str) :
  key <> [] ->
  exists out,
    decrypt_vigenere text key = Ok out /\
    length out = length text /\
    forall i, (i < length text)%nat ->
      (is_upper_letter (nth i text 0) = true ->
       is_upper_letter (nth i out 0) = true) /\
      (is_lower_letter (nth i text 0) = true ->
       is_lower_letter (nth i out 0) = true) /\
      (is_ascii_letter (nth i text 0) = false ->
       nth i text 0 <> KELVIN_SIGN -> nth i out 0 = nth i text 0).
Proof.
  intros Hk.
  destruct (decrypt_vigenere_case_format text key Hk) as [out [E [L P]]].
  exists out. split; [exact E|]. split; [exact L|].
  intros i Hi. destruct (P i Hi) as [U [Lo C]]. cbv zeta in U, Lo, C.
  split; [exact U|]. split; [exact Lo|].
  intros NL NK. apply C. rewrite takes_key_spec, NL. cbn [orb].
  now apply Z.eqb_neq.
Qed.

Lemma decrypt_format_kept_witness :
  lit "lemon" <> [] /\
  exists out,
    decrypt_vigenere (lit "Lxfopv ef rnhr!") (lit "lemon") = Ok out /\
    length out = length (lit "Lxfopv ef rnhr!") /\
    forall i, (i < length (lit "Lxfopv ef rnhr!"))%nat ->
      (is_upper_letter (nth i (lit "Lxfopv ef rnhr!") 0) = true ->
       is_upper_letter (nth i out 0) = true) /\
      (is_lower_letter (nth i (lit "Lxfopv ef rnhr!") 0) = true ->
       is_lower_letter (nth i out 0) = true) /\
      (is_ascii_letter (nth i (lit "Lxfopv ef rnhr!") 0) = false ->
       nth i (lit "Lxfopv ef rnhr!") 0 <> KELVIN_SIGN ->
       nth i out 0 = nth i (lit "Lxfopv ef rnhr!") 0).
Proof.
  assert (Hk : lit "lemon" <> []) by discriminate.
  split; [exact Hk|].
  exact (decrypt_format_kept (lit "Lxfopv ef rnhr!") (lit "lemon") Hk).
Defined.

(** X28.  No result of [decrypt_vigenere] contains the Kelvin sign, for any
    input and any key: a Kelvin sign of the input comes out as an ASCII
    capital. *)
Theorem decrypt_never_returns_kelvin (text key out : str) :
  decrypt_vigenere text key = Ok out -> ~ In KELVIN_SIGN out.
Proof.
  unfold decrypt_vigenere. apply decrypt_output_has_no_kelvin.
Qed.

Lemma decrypt_never_returns_kelvin_witness :
  decrypt_vigenere (lit "273 " ++ [KELVIN_SIGN]) (lit "b")
  = Ok (lit "273 J") /\
  ~ In KELVIN_SIGN (lit "273 J").
Proof.
  assert (E : decrypt_vigenere (lit "273 " ++ [KELVIN_SIGN]) (lit "b")
              = Ok (lit "273 J")) by (vm_compute; reflexivity).
  split; [exact E|].
  exact (decrypt_never_returns_kelvin _ _ _ E).
Defined.

(** X29.  A key made of the letter ['a'] only, of any length [m >= 1],
    decrypts every text without Kelvin sign to itself. *)
Theorem decrypt_all_a_key (text : str) (m : nat) :
  (1 <= m)%nat -> ~ In KELVIN_SIGN text ->
  decrypt_vigenere text (repeat 97 m) = Ok text.
Proof.
  intros Hm NK. unfold decrypt_vigenere.
  rewrite str_lower_lowercase.
  - now apply decrypt_loop_all_a.
  - apply Forall_forall. intros x Hx. apply repeat_spec in Hx. lia.
Qed.

Lemma decrypt_all_a_key_witness :
  (1 <= 4)%nat /\ ~ In KELVIN_SIGN (lit "Attack at dawn!") /\
  decrypt_vigenere (lit "Attack at dawn!") (repeat 97 4)
  = Ok (lit "Attack at dawn!").
Proof.
  assert (NK : ~ In KELVIN_SIGN (lit "Attack at dawn!"))
    by (vm_compute; intuition discriminate).
  split; [lia|]. split; [exact NK|].
  exact (decrypt_all_a_key (lit "Attack at dawn!") 4 ltac:(lia) NK).
Defined.
